(** * Random trip generators for a road network: model and properties

    The repository holds three scripts that read a road network (node ids
    and, per node, the ids of its outgoing links) and write a matrix of
    random trips:

    - [generante_random_trips.py]: the basic generator ([Module Basic]);
    - [generate_random_trips_segmented.py]: start times drawn from time
      slots and a quota of trips with origin = destination
      ([Module Segmented]);
    - [generate_random_trips_segmented_group.py]: trips grouped by
      (origin, destination, start) and sorted by start ([Module Group]).

    Python's [random] module is modelled by an oracle: an arbitrary
    infinite sequence of naturals read through a cursor, one number per
    call of [random.choice] / [random.randint].  Exceptions and loops that
    may run forever are explicit in the result type.  A float is a
    binary64 number: every operation on floats rounds its exact result to
    the nearest one.  The output file is written through a file system
    that may refuse any of the operations on it. *)

From Stdlib Require Import ZArith QArith Qround Qpower Qreduction Lia Lqa.
From Stdlib Require Import Permutation Sorted.
From stdpp Require Import base tactics option list strings gmap pretty.

Local Open Scope string_scope.
Local Open Scope list_scope.
Local Open Scope Z_scope.

(** ** Python primitives *)

Module Py.

Inductive exn :=
| ValueError | IndexError | KeyError
| OverflowError | ZeroDivisionError | IOError.

(** Outcome of a computation: a value, a raised exception, or a loop
    that used up its fuel (the model of a run that does not return). *)
Inductive result (A : Type) :=
| Ret (a : A)
| Raise (e : exn)
| OutOfFuel.
Arguments Ret {A} a.
Arguments Raise {A} e.
Arguments OutOfFuel {A}.

(** The random source: [oracle] is the whole future of the generator,
    [cursor] the number of draws made so far. *)
Record rng := Rng { oracle : nat -> nat; cursor : nat }.

(** Sequencing of computations that do not read the random source. *)
Definition rbind {A B} (r : result A) (k : A -> result B) : result B :=
  match r with
  | Ret a => k a
  | Raise e => Raise e
  | OutOfFuel => OutOfFuel
  end.

Notation "'let+' x ':=' r 'in' k" := (rbind r (fun x => k))
  (at level 10, x pattern, r at level 100, k at level 200).

Fixpoint map_result {A B} (f : A -> result B) (l : list A)
    : result (list B) :=
  match l with
  | [] => Ret []
  | x :: rest =>
      let+ y := f x in
      let+ ys := map_result f rest in
      Ret (y :: ys)
  end.

Definition M (A : Type) : Type := rng -> result (A * rng).

Definition ret {A} (a : A) : M A := fun g => Ret (a, g).
Definition raise {A} (e : exn) : M A := fun _ => Raise e.
Definition bind {A B} (m : M A) (k : A -> M B) : M B :=
  fun g => match m g with
           | Ret (a, g') => k a g'
           | Raise e => Raise e
           | OutOfFuel => OutOfFuel
           end.

Definition lift {A} (r : result A) : M A :=
  fun g => match r with
           | Ret a => Ret (a, g)
           | Raise e => Raise e
           | OutOfFuel => OutOfFuel
           end.

(** [random._randbelow(n)]: a number in [0, n). *)
Definition randbelow (n : nat) : M nat :=
  fun g => Ret ((oracle g (cursor g) mod n)%nat,
                Rng (oracle g) (S (cursor g))).

(** The state of the random source after one draw. *)
Definition advance (g : rng) : rng := Rng (oracle g) (S (cursor g)).

(** [random.choice(seq)]: IndexError on an empty sequence. *)
Definition choice {A} (l : list A) : M A :=
  match l with
  | [] => raise IndexError
  | d :: _ => bind (randbelow (length l)) (fun i => ret (nth i l d))
  end.

(** [random.randint(a, b)]: an integer of [a, b], ValueError when the
    range is empty. *)
Definition randint (a b : Z) : M Z :=
  if b <? a then raise ValueError
  else bind (randbelow (Z.to_nat (b - a + 1)))
            (fun i => ret (a + Z.of_nat i)).

(** [x[i], x[j] = x[j], x[i]] *)
Definition swap {A} (x : list A) (i j : nat) : list A :=
  match x !! i, x !! j with
  | Some xi, Some xj => <[i := xj]> (<[j := xi]> x)
  | _, _ => x
  end.

(** [random.shuffle(x)]:
    [for i in reversed(range(1, len(x))): j = randbelow(i + 1); swap]. *)
Fixpoint shuffle_from {A} (i : nat) (x : list A) : M (list A) :=
  match i with
  | O => ret x
  | S i' => bind (randbelow (S i)) (fun j => shuffle_from i' (swap x i j))
  end.

Definition shuffle {A} (x : list A) : M (list A) :=
  shuffle_from (length x - 1) x.

(** Truncation toward zero of a rational. *)
Definition int_of (q : Q) : Z := Z.quot (Qnum q) (Zpos (Qden q)).

(** Nearest integer of a rational, ties to the even one. *)
Definition round (q : Q) : Z :=
  let f := Qfloor q in
  match Qcompare (q - inject_Z f) (1 # 2) with
  | Lt => f
  | Gt => f + 1
  | Eq => if Z.even f then f else f + 1
  end.

(** *** Floats

    A Python float is an IEEE 754 binary64 number: 53 bits of significand,
    exponents of 2 from -1074 (the subnormal numbers) up, and everything
    of magnitude 2^1024 or more after rounding is an infinity. *)

(** [ilog2 q] for [q > 0]: the [k] with [2^k <= q < 2^(k+1)]. *)
Definition ilog2 (q : Q) : Z :=
  let k := Z.log2 (Qnum q) - Z.log2 (Zpos (Qden q)) in
  if Qle_bool (2 ^ k) q then k else k - 1.

(** The binary64 number nearest to [q > 0], ties to the even significand;
    [None] when it is beyond the largest finite number. *)
Definition round64_pos (q : Q) : option Q :=
  let e := Z.max (ilog2 q - 52) (-1074) in
  let v := (inject_Z (round (q / 2 ^ e)) * 2 ^ e)%Q in
  if Qle_bool (2 ^ 1024) v then None else Some (Qred v).

Definition round64 (q : Q) : option Q :=
  match Qcompare q 0 with
  | Eq => Some 0%Q
  | Gt => round64_pos q
  | Lt => Qopp <$> round64_pos (- q)
  end.

(** A float: a finite number, given by the rational it denotes, an
    infinity or a NaN.  The two zeros are one value: the scripts do
    nothing that tells them apart but print them. *)
Inductive float := Finite (q : Q) | Infinity (negative : bool) | NaN.

Definition Qlt_bool (x y : Q) : bool := negb (Qle_bool y x).

(** The float nearest to a rational: the value of a decimal literal, of
    [float("...")], and of an arithmetic operation on finite floats whose
    exact result is the rational. *)
Definition to_float (q : Q) : float :=
  match round64 q with
  | Some v => Finite v
  | None => Infinity (Qlt_bool q 0)
  end.

Definition is_negative (x : float) : bool :=
  match x with
  | Finite q => Qlt_bool q 0
  | Infinity negative => negative
  | NaN => false
  end.

Definition is_zero (x : float) : bool :=
  match x with
  | Finite q => Qeq_bool q 0
  | _ => false
  end.

(** [x * y] *)
Definition fmul (x y : float) : float :=
  match x, y with
  | Finite a, Finite b => to_float (a * b)
  | NaN, _ | _, NaN => NaN
  | _, _ =>
      if is_zero x || is_zero y then NaN
      else Infinity (xorb (is_negative x) (is_negative y))
  end.

(** [x + y] *)
Definition fadd (x y : float) : float :=
  match x, y with
  | Finite a, Finite b => to_float (a + b)
  | NaN, _ | _, NaN => NaN
  | Infinity s, Infinity s' => if Bool.eqb s s' then Infinity s else NaN
  | Infinity s, Finite _ | Finite _, Infinity s => Infinity s
  end.

(** [x / y]: the quotient for a divisor that is not zero, and
    ZeroDivisionError for a zero divisor. *)
Definition quotient (x y : float) : float :=
  match x, y with
  | Finite a, Finite b => to_float (a / b)
  | NaN, _ | _, NaN => NaN
  | Infinity _, Infinity _ => NaN
  | Finite _, Infinity _ => Finite 0
  | Infinity s, Finite _ => Infinity (xorb s (is_negative y))
  end.

Definition fdiv (x y : float) : result float :=
  if is_zero y then Raise ZeroDivisionError else Ret (quotient x y).

(** [x < y] and [x <= y]: false when a NaN is compared. *)
Definition flt (x y : float) : bool :=
  match x, y with
  | Finite a, Finite b => Qlt_bool a b
  | Finite _, Infinity s => negb s
  | Infinity s, Finite _ => s
  | Infinity s, Infinity s' => s && negb s'
  | NaN, _ | _, NaN => false
  end.

Definition fle (x y : float) : bool :=
  match x, y with
  | Finite a, Finite b => Qle_bool a b
  | Finite _, Infinity s => negb s
  | Infinity s, Finite _ => s
  | Infinity s, Infinity s' => s || negb s'
  | NaN, _ | _, NaN => false
  end.

(** [float(n)] for an int: OverflowError ("int too large to convert to
    float") when the nearest float is not finite. *)
Definition float_of_int (n : Z) : result float :=
  match round64 (inject_Z n) with
  | Some v => Ret (Finite v)
  | None => Raise OverflowError
  end.

(** [n * x] for an int and a float: the int is converted first. *)
Definition int_times (n : Z) (x : float) : result float :=
  let+ f := float_of_int n in
  Ret (fmul f x).

(** [int(x)]: truncation toward zero; OverflowError for an infinity,
    ValueError for a NaN. *)
Definition int_float (x : float) : result Z :=
  match x with
  | Finite q => Ret (int_of q)
  | Infinity _ => Raise OverflowError
  | NaN => Raise ValueError
  end.

(** [round(x)]: the nearest integer, ties to the even one; the same
    exceptions. *)
Definition round_float (x : float) : result Z :=
  match x with
  | Finite q => Ret (round q)
  | Infinity _ => Raise OverflowError
  | NaN => Raise ValueError
  end.

(** [l[:n]] *)
Definition slice_to {A} (n : Z) (l : list A) : list A :=
  if 0 <=? n then take (Z.to_nat n) l
  else take (length l - Z.to_nat (- n)) l.

(** [range(n)] and [range(a, b)] *)
Definition range (n : Z) : list Z := Z.of_nat <$> seq 0 (Z.to_nat n).
Definition range2 (a b : Z) : list Z :=
  (fun k => a + Z.of_nat k) <$> seq 0 (Z.to_nat (b - a)).

End Py.

Import Py.

Coercion Finite : Q >-> float.
Bind Scope Q_scope with float.

Notation "'let*' x ':=' m 'in' k" := (Py.bind m (fun x => k))
  (at level 10, x pattern, m at level 100, k at level 200).

(** ** The network file and its index *)

Module Network.

(** What [ET.iterparse(file, events=('start', 'end'))] yields: for every
    element a start and an end event carrying the element (tag and
    attribute dictionary), or a ParseError raised in the middle of the
    iteration. *)
Inductive event := ev_start | ev_end.
Record element := Element { tag : string; attrib : gmap string string }.
Inductive parse_item :=
| Item (ev : event) (elem : element)
| XmlParseError.

(** A path names a regular file holding a document, or nothing. *)
Definition network_file := option (list parse_item).

Inductive context := ctx_nodes | ctx_links.

Record reader := Reader {
  node_ids : list string;
  outgoing_links : gmap string (list string);
  ctx : option context
}.

Definition context_is (c : context) (o : option context) : bool :=
  match o, c with
  | Some ctx_nodes, ctx_nodes | Some ctx_links, ctx_links => true
  | _, _ => false
  end.

(** [elem.get(key)] followed by the truth test [if value:]: an attribute
    that is absent or empty counts as missing. *)
Definition get_truthy (elem : element) (key : string) : option string :=
  match attrib elem !! key with
  | Some v => if String.eqb v "" then None else Some v
  | None => None
  end.

(** [if from_node not in outgoing_links: outgoing_links[from_node] = []]
    then [outgoing_links[from_node].append(link_id)] *)
Definition add_link (from_node link_id : string)
    (m : gmap string (list string)) : gmap string (list string) :=
  <[from_node := default [] (m !! from_node) ++ [link_id]]> m.

(** Body of the loop [for event, elem in context_iter] (the same text in
    the three scripts). *)
Definition on_item (st : reader) (ev : event) (elem : element) : reader :=
  match ev with
  | ev_start =>
      if String.eqb (tag elem) "nodes" then
        Reader (node_ids st) (outgoing_links st) (Some ctx_nodes)
      else if String.eqb (tag elem) "links" then
        Reader (node_ids st) (outgoing_links st) (Some ctx_links)
      else if context_is ctx_nodes (ctx st) && String.eqb (tag elem) "node" then
        match get_truthy elem "id" with
        | Some node_id =>
            Reader (node_ids st ++ [node_id]) (outgoing_links st) (ctx st)
        | None => st
        end
      else if context_is ctx_links (ctx st) && String.eqb (tag elem) "link" then
        match get_truthy elem "from", get_truthy elem "id" with
        | Some from_node, Some link_id =>
            Reader (node_ids st)
                   (add_link from_node link_id (outgoing_links st)) (ctx st)
        | _, _ => st
        end
      else st
  | ev_end =>
      if String.eqb (tag elem) "nodes" then
        Reader (node_ids st) (outgoing_links st) None
      else if String.eqb (tag elem) "links" then
        Reader (node_ids st) (outgoing_links st) None
      else st
  end.

(** The whole loop; [None] when the parser raises ParseError. *)
Fixpoint iterate (items : list parse_item) (st : reader) : option reader :=
  match items with
  | [] => Some st
  | XmlParseError :: _ => None
  | Item ev elem :: rest => iterate rest (on_item st ev elem)
  end.

Definition initial : reader := Reader [] ∅ None.

(** [node in outgoing_links and outgoing_links[node]] *)
Definition valid_origin (links : gmap string (list string))
    (node : string) : bool :=
  match links !! node with
  | Some (_ :: _) => true
  | _ => false
  end.

(** [[node for node in node_ids if node in outgoing_links and
      outgoing_links[node]]] *)
Definition valid_origin_nodes (nodes : list string)
    (links : gmap string (list string)) : list string :=
  List.filter (valid_origin links) nodes.

(** Truth value of a list and of a dict. *)
Definition nonempty_list {A} (l : list A) : bool :=
  match l with [] => false | _ => true end.
Definition nonempty_dict (m : gmap string (list string)) : bool :=
  negb (bool_decide (m = ∅)).

(** The ids of all [node] elements of a document that carry a non-empty
    [id], in document order (used to state properties of the input). *)
Definition node_elements (items : list parse_item) : list string :=
  omap (fun it => match it with
                  | Item ev_start elem =>
                      if String.eqb (tag elem) "node"
                      then get_truthy elem "id" else None
                  | _ => None
                  end) items.

End Network.

Import Network.

Abbreviation index := (list string * gmap string (list string))%type.

(** ** Trip records *)

(** The attribute dictionary of one [<trip>] element. [start] is kept as
    the integer that the writer prints ([str(start_time)]). *)
Record trip := Trip {
  name : string;
  origin : string;
  destination : string;
  link_origin : string;
  count : nat;
  start : Z;
  mode : string;
  digital_rails_capable : string
}.

(** [d[k]] on a dict and [l[i]] on a list (for [i >= 0], the only case the
    scripts reach). *)
Definition dict_getitem (d : gmap string (list string)) (k : string)
    : M (list string) :=
  match d !! k with
  | Some v => ret v
  | None => raise KeyError
  end.

Definition list_getitem {A} (l : list A) (i : Z) : M A :=
  match l !! Z.to_nat i with
  | Some x => ret x
  | None => raise IndexError
  end.

(** [for i in indices: f.write(body(i))]: the trips written so far are kept
    whatever ends the loop. *)
Fixpoint write_loop (body : Z -> M trip) (indices : list Z)
    (written : list trip) (g : rng) : list trip * result rng :=
  match indices with
  | [] => (written, Ret g)
  | i :: rest =>
      match body i g with
      | Ret (t, g') => write_loop body rest (written ++ [t]) g'
      | Raise e => (written, Raise e)
      | OutOfFuel => (written, OutOfFuel)
      end
  end.

(** The file system under the output file: the operations of a script on
    the file are numbered in the order the script makes them, [open] being
    number 0, and [output_file k] tells whether operation [k] succeeds. An
    operation that does not succeed raises IOError. *)
Definition io := nat → bool.

(** A file system that refuses nothing. *)
Definition reliable : io := fun _ => true.

(** [f.write(...)] as operation [k], writing the record [x]. *)
Definition f_write {A} (output_file : io) (k : nat) (x : A) : M A :=
  if output_file k then ret x else raise IOError.

(** The body of a writing loop: the attributes of trip [i] are made by
    [make], then written; the write is operation [offset + i]. *)
Definition write_trip (output_file : io) (offset : nat) (make : Z → M trip)
    (i : Z) : M trip :=
  let* t := make i in
  f_write output_file (offset + Z.to_nat i) t.

(** [with open(output_file, 'w') as f:] around a loop of [n] writes: the
    file is opened (operation 0), the header and the opening tag are
    written (1 and 2), the loop runs, the closing tag is written
    ([n + 3]) and the file is closed ([n + 4]). *)
Definition with_open (output_file : io) (n : nat)
    (loop : rng → list trip * result rng) (g : rng)
    : list trip * result rng :=
  if negb (output_file 0%nat && output_file 1%nat && output_file 2%nat)
  then ([], Raise IOError)
  else
    match loop g with
    | (w, Ret g') =>
        if output_file (n + 3)%nat && output_file (n + 4)%nat
        then (w, Ret g')
        else (w, Raise IOError)
    | r => r
    end.

(** The file system accepts every operation of a script that writes [n]
    trips (the last one is operation [n + 4]), or refuses one of them. *)
Definition accepts (output_file : io) (n : nat) : Prop :=
  ∀ k, (k ≤ n + 4)%nat → output_file k = true.
Definition refuses (output_file : io) (n : nat) : Prop :=
  ∃ k, (k ≤ n + 4)%nat ∧ output_file k = false.

(** The [try: ... return True / except IOError: return False /
    except Exception: return False] around the [with] block. *)
Definition try_except (r : list trip * result rng) : list trip * result bool :=
  match r with
  | (w, Ret _) => (w, Ret true)
  | (w, Raise _) => (w, Ret false)
  | (w, OutOfFuel) => (w, OutOfFuel)
  end.

(** A trip whose origin is a valid origin of the network and whose
    [link_origin] is one of the links recorded as leaving that origin. *)
Definition origin_ok (node_ids : list string)
    (outgoing_links : gmap string (list string)) (t : trip) : Prop :=
  origin t ∈ valid_origin_nodes node_ids outgoing_links
  ∧ ∃ ls, outgoing_links !! origin t = Some ls ∧ link_origin t ∈ ls.

(** A written trip whose origin and destination are the same node, and
    the number of such trips in an output. *)
Definition od_equal (t : trip) : bool := String.eqb (origin t) (destination t).
Definition count_od_equal (written : list trip) : nat :=
  length (List.filter od_equal written).

(** The random source never withholds for ever the nodes that differ from
    a given one: after every position [p] of the oracle some draw, read by
    [random.choice(node_ids)], returns a node other than [o].  Uniform
    draws have this property with probability 1 when [node_ids] holds two
    distinct ids; no oracle has it when all ids are the same. *)
Definition offers_other_nodes (node_ids : list string) (f : nat → nat) : Prop :=
  ∀ (p : nat) (o : string), ∃ (q : nat) (d : string) (g' : rng),
    (p ≤ q)%nat ∧ choice node_ids (Rng f q) = Ret (d, g') ∧ d ≠ o.

(** [produced body i t]: some state of the random source makes the loop
    body write [t] for index [i]. *)
Definition produced (body : Z → M trip) (i : Z) (t : trip) : Prop :=
  ∃ g g', body i g = Ret (t, g').

(** ** generante_random_trips.py *)

Module Basic.

Definition parse_network_iterative (file : network_file) : option index :=
  match file with
  | None => None
  | Some items =>
      match iterate items initial with
      | None => None
      | Some st =>
          let valid_origin_nodes_count :=
            length (valid_origin_nodes (node_ids st) (outgoing_links st)) in
          if Nat.eqb valid_origin_nodes_count 0
             && nonempty_list (node_ids st)
             && nonempty_dict (outgoing_links st)
          then None
          else Some (node_ids st, outgoing_links st)
      end
  end.

(** [while len(node_ids) > 1 and destination_node == origin_node:
       destination_node = random.choice(node_ids)]
    The loop has no bound of its own: [fuel] counts the iterations the
    model follows, and [OutOfFuel] stands for a run still in the loop. *)
Fixpoint redraw (fuel : nat) (node_ids : list string)
    (origin_node destination_node : string) : M string :=
  if (1 <? length node_ids)%nat && String.eqb destination_node origin_node
  then match fuel with
       | O => fun _ => OutOfFuel
       | S fuel' =>
           let* d := choice node_ids in
           redraw fuel' node_ids origin_node d
       end
  else ret destination_node.

(** Body of [for i in range(1, num_trips + 1)]. *)
Definition make_trip (fuel : nat) (node_ids : list string)
    (outgoing_links : gmap string (list string))
    (valid_origin_nodes : list string) (max_start_time : Z) (i : Z)
    : M trip :=
  let* origin_node := choice valid_origin_nodes in
  let* possible_link_origins := dict_getitem outgoing_links origin_node in
  let* link_origin := choice possible_link_origins in
  let* d0 := choice node_ids in
  let* destination_node := redraw fuel node_ids origin_node d0 in
  let* start_time := randint 0 max_start_time in
  ret (Trip ("trip_" +:+ pretty i) origin_node destination_node link_origin
            1 start_time "car" "false").

(** Returns the trips written to the output file and the function's
    return value. *)
Definition generate_and_write_trips_iterative (fuel : nat)
    (node_ids : list string) (outgoing_links : gmap string (list string))
    (num_trips max_start_time : Z) (output_file : io) (g : rng)
    : list trip * result bool :=
  if negb (nonempty_list node_ids) then ([], Ret false)
  else
    let valid_origin_nodes := valid_origin_nodes node_ids outgoing_links in
    if negb (nonempty_list valid_origin_nodes) then ([], Ret false)
    else
      try_except
        (with_open output_file (Z.to_nat num_trips)
           (write_loop
              (write_trip output_file 2
                 (make_trip fuel node_ids outgoing_links valid_origin_nodes
                            max_start_time))
              (range2 1 (num_trips + 1)) [])
           g).

End Basic.

(** ** generate_random_trips_segmented.py *)

Module Segmented.

(** The critical check of this loader only prints its message ("Por ora,
    permite continuar"): a network without a valid origin is returned. *)
Definition parse_network_iterative (file : network_file) : option index :=
  match file with
  | None => None
  | Some items =>
      match iterate items initial with
      | None => None
      | Some st => Some (node_ids st, outgoing_links st)
      end
  end.

(** One entry of [time_slot_definitions]. *)
Record slot := Slot {
  slot_name : string;
  start_sec : Z;
  end_sec : Z;
  percentage : float
}.

(** A number of the [--time-slots] JSON text, as Python's decoder returns
    it: an [int] for a literal without fraction and exponent, the float
    nearest to its decimal value for any other (an infinity when the value
    is beyond the floats).  The literals [NaN] and [Infinity], which are
    not JSON, are left out. *)
Inductive number := Int (z : Z) | Dec (q : Q).

(** [float(x)] for a decoded number. *)
Definition float_of (x : number) : result float :=
  match x with
  | Int z => float_of_int z
  | Dec q => Ret (to_float q)
  end.

(** An object of the [--time-slots] JSON list, after decoding: a key that
    is absent is [None]; the values of the three numeric keys are
    numbers. *)
Record slot_def := SlotDef {
  sd_name : option string;
  sd_start_hour : option number;
  sd_end_hour : option number;
  sd_percentage : option number
}.

(** [slots_input.sort(key=lambda x: float(x.get("start_hour", -1)))]: the
    keys of all objects are computed first, and what [float] raises there
    (OverflowError) is not among the exceptions the [try] around the sort
    catches.  The sort is stable and compares keys with [<]; it is
    computed by insertion. *)
Definition sort_key (x : slot_def) : result float :=
  match sd_start_hour x with
  | Some n => float_of n
  | None => Ret (Finite (-1))
  end.

Fixpoint insert_by_key (x : float * slot_def) (l : list (float * slot_def))
    : list (float * slot_def) :=
  match l with
  | [] => [x]
  | y :: rest =>
      if flt y.1 x.1 then y :: insert_by_key x rest
      else x :: l
  end.

Definition sort_slots (l : list slot_def) : result (list slot_def) :=
  let+ keyed := map_result (λ x, let+ k := sort_key x in Ret (k, x)) l in
  Ret ((foldr insert_by_key [] keyed).*2).

Section TimeSlots.

(** The label of a slot without a name,
    [f"Faixa {i+1}: {start_hour}h-{end_hour}h"]. *)
Variable default_name : nat → float → float → string.

(** The loop [for i, slot_def in enumerate(slots_input)] on the state
    ([processed_slots], [total_percentage], [last_end_sec]); [Ret None] is
    the early [return None].  The conversions to seconds are outside the
    [try] of the loop body. *)
Fixpoint read_slots (max_total_time_simulation : Z) (i : nat)
    (slots_input : list slot_def) (st : list slot * float * Z)
    : result (option (list slot * float)) :=
  let '(processed_slots, total_percentage, last_end_sec) := st in
  match slots_input with
  | [] => Ret (Some (processed_slots, total_percentage))
  | slot_def :: rest =>
      match sd_start_hour slot_def, sd_end_hour slot_def,
            sd_percentage slot_def with
      | Some start_hour, Some end_hour, Some percentage =>
          let+ start_hour := float_of start_hour in
          let+ end_hour := float_of end_hour in
          let+ percentage := float_of percentage in
          let name :=
            default (default_name i start_hour end_hour) (sd_name slot_def) in
          if flt start_hour 0 || fle end_hour start_hour
             || fle percentage 0 || flt 1 percentage
          then Ret None
          else
            let+ start_sec := int_float (fmul start_hour 3600) in
            let+ end_sec := int_float (fmul end_hour 3600) in
            let end_sec := end_sec - 1 in
            if start_sec <=? last_end_sec then Ret None
            else if max_total_time_simulation <? start_sec
            then read_slots max_total_time_simulation (S i) rest st
            else read_slots max_total_time_simulation (S i) rest
                   (processed_slots ++ [Slot name start_sec end_sec percentage],
                    fadd total_percentage percentage, end_sec)
      | _, _, _ => Ret None
      end
  end.

(** [slot['percentage'] /= total_percentage] *)
Definition normalise (total_percentage : float) (s : slot) : result slot :=
  let+ p := fdiv (percentage s) total_percentage in
  Ret (Slot (slot_name s) (start_sec s) (end_sec s) p).

(** [parse_time_slots_json] on the decoded list; [0.999] and [1.001] are
    the floats nearest to these decimals. *)
Definition parse_time_slots_json (slots_input : list slot_def)
    (max_total_time_simulation : Z) : result (option (list slot)) :=
  let+ slots_input := sort_slots slots_input in
  let+ r := read_slots max_total_time_simulation 0 slots_input
                       ([], Finite 0, -1) in
  match r with
  | None => Ret None
  | Some (processed_slots, total_percentage) =>
      let+ normalised :=
        if negb (fle (to_float (999 # 1000)) total_percentage
                 && fle total_percentage (to_float (1001 # 1000)))
        then if flt 0 total_percentage
             then let+ l := map_result (normalise total_percentage)
                                       processed_slots in
                  Ret (Some l)
             else Ret None
        else Ret (Some processed_slots) in
      match normalised with
      | None => Ret None
      | Some [] => Ret None
      | Some processed_slots => Ret (Some processed_slots)
      end
  end.

End TimeSlots.

(** The test that marks a slot as useless ("Faixa inútil"), with
    [slot_actual_end_s = min(end_sec, max_start_time_simulation)]. *)
Definition useless (max_start_time_simulation : Z) (s : slot) : bool :=
  (max_start_time_simulation <? start_sec s)
  || (Z.min (end_sec s) max_start_time_simulation <? start_sec s).

(** [for _ in range(n): all_trip_start_times.append(random.randint(lo, hi))] *)
Fixpoint draw_times (n : nat) (lo hi : Z) (all_trip_start_times : list Z)
    : M (list Z) :=
  match n with
  | O => ret all_trip_start_times
  | S n' =>
      let* t := randint lo hi in
      draw_times n' lo hi (all_trip_start_times ++ [t])
  end.

(** A slot whose share is a finite float between 0 and 1. *)
Definition proper_share (s : slot) : Prop :=
  ∃ q : Q, percentage s = Finite q ∧ (0 <= q)%Q ∧ (q <= 1)%Q.

(** [round(num_trips * slot['percentage'])], the number of start times
    of a slot that is not the last one. *)
Definition rounded_share (num_trips : Z) (s : slot) : result Z :=
  let+ x := int_times num_trips (percentage s) in
  round_float x.

(** Body of [for i, slot in enumerate(time_slot_definitions)]. The branch
    for a useless slot sets [num_in_this_slot = 0] and falls through
    ([pass]); the assignment after it replaces that value. *)
Definition allocate_slot (num_trips max_start_time_simulation : Z)
    (n_slots i : nat) (s : slot) (st : list Z * Z) : M (list Z * Z) :=
  let '(all_trip_start_times, trips_allocated_count) := st in
  let slot_actual_start_s := start_sec s in
  let slot_actual_end_s := Z.min (end_sec s) max_start_time_simulation in
  let num_in_this_slot :=
    if useless max_start_time_simulation s then Some 0 else None in
  let* num_in_this_slot :=
    if Z.of_nat i =? Z.of_nat n_slots - 1
    then ret (num_trips - trips_allocated_count)
    else lift (rounded_share num_trips s) in
  let trips_allocated_count := trips_allocated_count + num_in_this_slot in
  let* all_trip_start_times :=
    draw_times (Z.to_nat num_in_this_slot)
               slot_actual_start_s slot_actual_end_s all_trip_start_times in
  ret (all_trip_start_times, trips_allocated_count).

Fixpoint allocate_slots (num_trips max_start_time_simulation : Z)
    (n_slots i : nat) (slots : list slot) (st : list Z * Z)
    : M (list Z * Z) :=
  match slots with
  | [] => ret st
  | s :: rest =>
      let* st' := allocate_slot num_trips max_start_time_simulation
                                n_slots i s st in
      allocate_slots num_trips max_start_time_simulation
                     n_slots (S i) rest st'
  end.

(** [for slot_def in reversed(time_slot_definitions): ... break] *)
Definition target_slot_for_remainder (max_start_time_simulation : Z)
    (slots : list slot) : option (Z * Z) :=
  match List.find
          (fun s => (start_sec s <=? Z.min (end_sec s) max_start_time_simulation)
                    && (start_sec s <=? max_start_time_simulation))
          (rev slots) with
  | Some s => Some (start_sec s, Z.min (end_sec s) max_start_time_simulation)
  | None => None
  end.

(** [while len(all_trip_start_times) < num_trips: ...]; every iteration
    appends one element, so [fuel] at least the shortfall is enough. *)
Fixpoint refill (fuel : nat) (num_trips max_start_time_simulation : Z)
    (slots : list slot) (all_trip_start_times : list Z) : M (list Z) :=
  if Z.of_nat (length all_trip_start_times) <? num_trips then
    match fuel with
    | O => fun _ => OutOfFuel
    | S fuel' =>
        match target_slot_for_remainder max_start_time_simulation slots with
        | Some (lo, hi) =>
            let* t := randint lo hi in
            refill fuel' num_trips max_start_time_simulation slots
                   (all_trip_start_times ++ [t])
        | None =>
            let* t := randint 0 max_start_time_simulation in
            let all_trip_start_times := all_trip_start_times ++ [t] in
            if num_trips <=? Z.of_nat (length all_trip_start_times)
            then ret all_trip_start_times
            else refill fuel' num_trips max_start_time_simulation slots
                        all_trip_start_times
        end
    end
  else ret all_trip_start_times.

(** Step 1 of the generator: the list of start times of all trips. *)
Definition start_time_pool (num_trips max_start_time_simulation : Z)
    (slots : list slot) : M (list Z) :=
  let* (all_trip_start_times, _) :=
    allocate_slots num_trips max_start_time_simulation
                   (length slots) 0 slots ([], 0) in
  let* all_trip_start_times :=
    refill (Z.to_nat num_trips) num_trips max_start_time_simulation slots
           all_trip_start_times in
  ret (slice_to num_trips all_trip_start_times).

(** Step 2: which trips get origin = destination. *)
Definition target_od_equal_trips (num_trips : Z)
    (actual_percentage_od_equal : float) : result Z :=
  let+ x := int_times num_trips actual_percentage_od_equal in
  int_float x.

Definition od_equal_flags (num_trips : Z) (actual_percentage_od_equal : float)
    : M (list bool) :=
  let* target :=
    lift (target_od_equal_trips num_trips actual_percentage_od_equal) in
  shuffle (replicate (Z.to_nat target) true
           ++ replicate (Z.to_nat (num_trips - target)) false).

(** [while destination_node == origin_node and attempts < max_attempts];
    [remaining] is [max_attempts - attempts]. *)
Fixpoint retry (remaining : nat) (node_ids : list string)
    (origin_node destination_node : string) : M string :=
  if String.eqb destination_node origin_node then
    match remaining with
    | O => ret destination_node
    | S r =>
        let* d := choice node_ids in
        retry r node_ids origin_node d
    end
  else ret destination_node.

(** The choice of the destination inside the trip loop. *)
Definition select_destination (node_ids : list string)
    (origin_node : string) (is_this_trip_od_equal is_single_node_network : bool)
    : M string :=
  if is_this_trip_od_equal || is_single_node_network then ret origin_node
  else
    let* d0 := choice node_ids in
    let max_attempts := (length node_ids + 5)%nat in
    let* destination_node := retry max_attempts node_ids origin_node d0 in
    if String.eqb destination_node origin_node then
      let other_nodes :=
        List.filter (fun n => negb (String.eqb n origin_node)) node_ids in
      if nonempty_list other_nodes then choice other_nodes
      else ret destination_node
    else ret destination_node.

(** Body of [for i in range(num_trips)]. *)
Definition make_trip (node_ids : list string)
    (outgoing_links : gmap string (list string))
    (valid_origin_nodes : list string) (is_single_node_network : bool)
    (all_trip_start_times : list Z) (trip_is_od_equal_flags : list bool)
    (i : Z) : M trip :=
  let* current_start_time := list_getitem all_trip_start_times i in
  let* is_this_trip_od_equal := list_getitem trip_is_od_equal_flags i in
  let* origin_node := choice valid_origin_nodes in
  let* possible_link_origins := dict_getitem outgoing_links origin_node in
  let* link_origin := choice possible_link_origins in
  let* destination_node :=
    select_destination node_ids origin_node
                       is_this_trip_od_equal is_single_node_network in
  ret (Trip ("trip_" +:+ pretty (i + 1)) origin_node destination_node
            link_origin 1 current_start_time "car" "false").

(** Steps 1 and 2 run before the [try] block: what they raise leaves the
    function. *)
Definition generate_and_write_trips_iterative
    (node_ids : list string) (outgoing_links : gmap string (list string))
    (num_trips max_start_time_simulation : Z) (output_file : io)
    (time_slot_definitions : list slot) (percentage_od_equal : float)
    (g : rng) : list trip * result bool :=
  if negb (nonempty_list node_ids) then ([], Ret false)
  else
    let valid_origin_nodes := valid_origin_nodes node_ids outgoing_links in
    if negb (nonempty_list valid_origin_nodes) then ([], Ret false)
    else
      let is_single_node_network := Nat.eqb (length node_ids) 1 in
      let actual_percentage_od_equal :=
        if is_single_node_network then Finite 1 else percentage_od_equal in
      match (let* pool := start_time_pool num_trips max_start_time_simulation
                                          time_slot_definitions in
             let* flags := od_equal_flags num_trips
                                          actual_percentage_od_equal in
             ret (pool, flags)) g with
      | Raise e => ([], Raise e)
      | OutOfFuel => ([], OutOfFuel)
      | Ret ((all_trip_start_times, trip_is_od_equal_flags), g') =>
          try_except
            (with_open output_file (Z.to_nat num_trips)
               (write_loop
                  (write_trip output_file 3
                     (make_trip node_ids outgoing_links valid_origin_nodes
                                is_single_node_network all_trip_start_times
                                trip_is_od_equal_flags))
                  (range num_trips) [])
               g')
      end.

(** How the script ends: [sys.exit(code)], or an exception that nothing
    catches. *)
Inductive exit := Exit (code : Z) | Uncaught (e : exn).

(** [main] with the parsed command line ([percentage_od_equal] is the
    float that argparse made of the option): the trips left in the output
    file and the way the script ends ([None] for a run that is out of
    fuel). A file written by a generator that returns [False] is
    removed. *)
Definition main (default_name : nat → float → float → string)
    (network : network_file) (num_trips : Z) (output_file : io)
    (max_time : Z) (time_slots : list slot_def)
    (percentage_od_equal : float) (g : rng)
    : list trip * option exit :=
  if num_trips <=? 0 then ([], Some (Exit 1))
  else if max_time <? 0 then ([], Some (Exit 1))
  else if negb (fle (Finite 0) percentage_od_equal
                && fle percentage_od_equal (Finite 1))
  then ([], Some (Exit 1))
  else
    match parse_time_slots_json default_name time_slots max_time with
    | Raise e => ([], Some (Uncaught e))
    | OutOfFuel => ([], None)
    | Ret None => ([], Some (Exit 1))
    | Ret (Some time_slot_definitions) =>
        let usable_slots_within_maxtime :=
          existsb (λ s, (start_sec s <=? max_time)
                        && (start_sec s <=? Z.min (end_sec s) max_time))
                  time_slot_definitions in
        if negb usable_slots_within_maxtime then ([], Some (Exit 1))
        else
          match parse_network_iterative network with
          | None => ([], Some (Exit 1))
          | Some (node_ids, outgoing_links) =>
              if negb (nonempty_list node_ids) then ([], Some (Exit 1))
              else
                match generate_and_write_trips_iterative
                        node_ids outgoing_links num_trips max_time
                        output_file time_slot_definitions
                        percentage_od_equal g with
                | (written, Ret true) => (written, Some (Exit 0))
                | (_, Ret false) => ([], Some (Exit 1))
                | (written, Raise e) => (written, Some (Uncaught e))
                | (written, OutOfFuel) => (written, None)
                end
          end
    end.

End Segmented.

(** ** generate_random_trips_segmented_group.py *)

Module Group.

Definition parse_network_iterative (file : network_file) : option index :=
  match file with
  | None => None
  | Some items =>
      match iterate items initial with
      | None => None
      | Some st =>
          let valid_origin_nodes_count :=
            length (valid_origin_nodes (node_ids st) (outgoing_links st)) in
          if Nat.eqb valid_origin_nodes_count 0
             && nonempty_list (node_ids st)
             && nonempty_dict (outgoing_links st)
          then None
          else Some (node_ids st, outgoing_links st)
      end
  end.

(** [trip_key = (origin_node, destination_node, start_time)] *)
Definition trip_key := (string * string * Z)%type.

(** One sampled trip, before grouping. *)
Record raw_trip := Raw {
  raw_origin : string;
  raw_destination : string;
  raw_start : Z;
  raw_link_origin : string
}.

Definition key_of (r : raw_trip) : trip_key :=
  (raw_origin r, raw_destination r, raw_start r).

(** A value of [aggregated_trips_map]. *)
Record group := Grp { grp_count : nat; grp_link_origin : string }.

(** [aggregated_trips_map]: a Python dict, which keeps its keys in the
    order of their first insertion. *)
Abbreviation trips_map := (list (trip_key * group)).

(** [if trip_key not in m: m[trip_key] = {'count': 0, 'link_origin': l}]
    then [m[trip_key]['count'] += 1] *)
Fixpoint record_trip (k : trip_key) (link_origin : string) (m : trips_map)
    : trips_map :=
  match m with
  | [] => [(k, Grp 1 link_origin)]
  | (k', v) :: rest =>
      if decide (k = k')
      then (k', Grp (S (grp_count v)) (grp_link_origin v)) :: rest
      else (k', v) :: record_trip k link_origin rest
  end.

(** [while len(node_ids) > 1 and destination_node == origin_node], as in
    the basic script. *)
Fixpoint redraw (fuel : nat) (node_ids : list string)
    (origin_node destination_node : string) : M string :=
  if (1 <? length node_ids)%nat && String.eqb destination_node origin_node
  then match fuel with
       | O => fun _ => OutOfFuel
       | S fuel' =>
           let* d := choice node_ids in
           redraw fuel' node_ids origin_node d
       end
  else ret destination_node.

(** The sampling part of the body of [for _ in range(num_trips_to_generate)]. *)
Definition sample_trip (fuel : nat) (node_ids : list string)
    (outgoing_links : gmap string (list string))
    (valid_origin_nodes : list string) (max_start_time : Z) : M raw_trip :=
  let* origin_node := choice valid_origin_nodes in
  let* possible_link_origins := dict_getitem outgoing_links origin_node in
  let* link_origin := choice possible_link_origins in
  let* d0 := choice node_ids in
  let* destination_node := redraw fuel node_ids origin_node d0 in
  let* start_time := randint 0 max_start_time in
  ret (Raw origin_node destination_node start_time link_origin).

(** The loop: sample a trip, then record it in the map. *)
Fixpoint aggregate_loop (n : nat) (sample : M raw_trip) (m : trips_map)
    : M trips_map :=
  match n with
  | O => ret m
  | S n' =>
      let* r := sample in
      aggregate_loop n' sample (record_trip (key_of r) (raw_link_origin r) m)
  end.

(** An entry of [processed_trips_list]. *)
Record processed := Processed {
  p_origin : string;
  p_destination : string;
  p_start : Z;
  p_count : nat;
  p_link_origin : string
}.

Definition processed_trips_list (m : trips_map) : list processed :=
  (fun kv => match kv with
             | ((o, d, s), v) => Processed o d s (grp_count v) (grp_link_origin v)
             end) <$> m.

(** [processed_trips_list.sort(key=lambda x: x['start'])]: Python's sort
    is stable, and a stable sort has one possible result; it is computed
    here by insertion. *)
Fixpoint insert_by_start (t : processed) (l : list processed)
    : list processed :=
  match l with
  | [] => [t]
  | x :: rest =>
      if p_start t <=? p_start x then t :: l
      else x :: insert_by_start t rest
  end.

Definition sort_by_start (l : list processed) : list processed :=
  foldr insert_by_start [] l.

(** [for i, trip_data in enumerate(processed_trips_list)]:
    [name = f"trip_{i+1}"] *)
Definition final_trips_for_xml (l : list processed) : list trip :=
  imap (fun i t =>
          Trip ("trip_" +:+ pretty (Z.of_nat i + 1)) (p_origin t)
               (p_destination t) (p_link_origin t) (p_count t) (p_start t)
               "car" "false") l.

(** Everything after the sampling loop. *)
Definition finish (m : trips_map) : list trip :=
  final_trips_for_xml (sort_by_start (processed_trips_list m)).

(** The function has no [try]: an exception of the sampling loop leaves
    it. *)
Definition generate_aggregated_and_sorted_trips (fuel : nat)
    (node_ids : list string) (outgoing_links : gmap string (list string))
    (num_trips_to_generate max_start_time : Z) (g : rng)
    : result (list trip) :=
  if negb (nonempty_list node_ids) then Ret []
  else
    let valid_origin_nodes := valid_origin_nodes node_ids outgoing_links in
    if negb (nonempty_list valid_origin_nodes) then Ret []
    else
      match aggregate_loop (Z.to_nat num_trips_to_generate)
              (sample_trip fuel node_ids outgoing_links valid_origin_nodes
                           max_start_time) [] g with
      | Ret (m, _) => Ret (finish m)
      | Raise e => Raise e
      | OutOfFuel => OutOfFuel
      end.

(** The map the loop builds from a given sequence of sampled trips, in
    the order they were sampled. *)
Definition aggregate (raws : list raw_trip) : trips_map :=
  foldl (fun m r => record_trip (key_of r) (raw_link_origin r) m) [] raws.

(** The grouping key of an output record. *)
Definition trip_key_of (t : trip) : trip_key :=
  (origin t, destination t, start t).

(** The trips that the loop samples, in the order it samples them (used
    to state what the loop aggregates). *)
Fixpoint sample_loop (n : nat) (sample : M raw_trip) : M (list raw_trip) :=
  match n with
  | O => ret []
  | S n' =>
      let* r := sample in
      let* rest := sample_loop n' sample in
      ret (r :: rest)
  end.

(** The fields of an output record other than its name and the two fixed
    attributes, and the same fields of an entry of the map. *)
Definition fields_of (t : trip) : string * string * Z * nat * string :=
  (origin t, destination t, start t, count t, link_origin t).

Definition entry_fields (kv : trip_key * group)
    : string * string * Z * nat * string :=
  match kv with
  | ((o, d, s), v) => (o, d, s, grp_count v, grp_link_origin v)
  end.

(** The number of raw trips with a given origin, destination and start. *)
Definition occurrences (o d : string) (s : Z) (raws : list raw_trip) : nat :=
  length (List.filter
            (fun r => String.eqb (raw_origin r) o
                      && String.eqb (raw_destination r) d
                      && (raw_start r =? s)) raws).

(** [sampled sample r]: some state of the random source makes the
    sampling step return [r]. *)
Definition sampled (sample : M raw_trip) (r : raw_trip) : Prop :=
  ∃ g g', sample g = Ret (r, g').

End Group.

(** ** Sample inputs *)

Module Examples.

Definition elem_pair (t : string) (attrs : gmap string string)
    (children : list parse_item) : list parse_item :=
  Item ev_start (Element t attrs) :: children ++ [Item ev_end (Element t attrs)].

Definition node_elem (id : string) : list parse_item :=
  elem_pair "node" {["id" := id]} [].

Definition link_elem (from_node id : string) : list parse_item :=
  elem_pair "link" {["from" := from_node; "id" := id]} [].

Definition network_doc (nodes links : list parse_item) : list parse_item :=
  elem_pair "network" ∅
    (elem_pair "nodes" ∅ nodes ++ elem_pair "links" ∅ links).

(** Two nodes [a] and [b], links [l1], [l2] out of [a] and [l3] out of [b]. *)
Definition doc_ab : list parse_item :=
  network_doc (node_elem "a" ++ node_elem "b")
              (link_elem "a" "l1" ++ link_elem "a" "l2" ++ link_elem "b" "l3").

(** Two node elements with the same id. *)
Definition doc_twice : list parse_item :=
  network_doc (node_elem "a" ++ node_elem "a") (link_elem "a" "l1").

(** A node [a] and a link that leaves an unknown node [b]. *)
Definition doc_no_origin : list parse_item :=
  network_doc (node_elem "a") (link_elem "b" "l1").

Definition links_ab : gmap string (list string) :=
  {["a" := ["l1"; "l2"]; "b" := ["l3"]]}.

(** A random source that returns 0, 1, 2, ... *)
Definition counting : rng := Rng (fun i => i) 0.

(** A random source that always returns 0. *)
Definition zeros : rng := Rng (fun _ => 0%nat) 0.

(** A random source that returns 0 for its first [k] draws and 1 after. *)
Definition zeros_then_one (k : nat) : rng :=
  Rng (fun i => if (i <? k)%nat then 0%nat else 1%nat) 0.

Definition morning : Segmented.slot :=
  Segmented.Slot "morning" 0 3599 (Finite (1 # 2)).
Definition evening : Segmented.slot :=
  Segmented.Slot "evening" 3600 7199 (Finite (1 # 2)).

(** What [parse_time_slots_json] makes of [start_hour = 0],
    [end_hour = 0.0001]: [end_sec = int(0.36) - 1 = -1]. *)
Definition sliver : Segmented.slot :=
  Segmented.Slot "sliver" 0 (-1) (Finite (1 # 2)).

(** The [--time-slots] list
    [[{"name": "sliver", "start_hour": 0, "end_hour": 0.0001, "percentage": 0.5},
      {"name": "morning", "start_hour": 0.0001, "end_hour": 1, "percentage": 0.5}]]. *)
Definition sliver_json : list Segmented.slot_def :=
  [Segmented.SlotDef (Some "sliver") (Some (Segmented.Int 0))
     (Some (Segmented.Dec (1 # 10000))) (Some (Segmented.Dec (1 # 2)));
   Segmented.SlotDef (Some "morning") (Some (Segmented.Dec (1 # 10000)))
     (Some (Segmented.Int 1)) (Some (Segmented.Dec (1 # 2)))].

(** Two slots of one hour, given in the wrong order. *)
Definition two_hours_json : list Segmented.slot_def :=
  [Segmented.SlotDef (Some "evening") (Some (Segmented.Int 1))
     (Some (Segmented.Int 2)) (Some (Segmented.Dec (1 # 2)));
   Segmented.SlotDef (Some "morning") (Some (Segmented.Int 0))
     (Some (Segmented.Int 1)) (Some (Segmented.Dec (1 # 2)))].

End Examples.

(** ** The text of the output file *)

Module Xml.

Import Stdlib.Strings.Ascii.

(** The characters that cannot be written inside a string literal. *)
Definition dquote : string := String (Ascii.ascii_of_nat 34) "".
Definition newline : string := String (Ascii.ascii_of_nat 10) "".

(** [s.replace(old, new)] for a one-character [old]. *)
Fixpoint replace_char (old : Ascii.ascii) (new : string) (s : string) : string :=
  match s with
  | EmptyString => EmptyString
  | String c rest =>
      if Ascii.eqb c old then new +:+ replace_char old new rest
      else String c (replace_char old new rest)
  end.

(** [xml.sax.saxutils.escape(data)]: the ampersand first, then [>], then
    [<]. *)
Definition escape (data : string) : string :=
  let data := replace_char "&"%char "&amp;" data in
  let data := replace_char ">"%char "&gt;" data in
  replace_char "<"%char "&lt;" data.

(** [f'{k}="{escape(str(v))}"'] *)
Definition attribute (kv : string * string) : string :=
  kv.1 +:+ "=" +:+ dquote +:+ escape kv.2 +:+ dquote.

(** [" ".join(... for k, v in trip_attrs.items())] *)
Definition attr_string (trip_attrs : list (string * string)) : string :=
  String.concat " " (attribute <$> trip_attrs).

(** [f'  <trip {attr_string}/>\n'] *)
Definition trip_line (trip_attrs : list (string * string)) : string :=
  "  <trip " +:+ attr_string trip_attrs +:+ "/>" +:+ newline.

Definition header : string :=
  "<?xml version=" +:+ dquote +:+ "1.0" +:+ dquote +:+ " encoding="
  +:+ dquote +:+ "utf-8" +:+ dquote +:+ "?>" +:+ newline.

(** The text of the output file: the header, the opening tag, one line
    per trip and the closing tag. *)
Definition document (trips : list (list (string * string))) : string :=
  header +:+ "<scsimulator_matrix>" +:+ newline
  +:+ String.concat "" (trip_line <$> trips)
  +:+ "</scsimulator_matrix>" +:+ newline.

(** What [escape] makes of one character, and the substitution of every
    character of a string at once (used to state properties of
    [escape]). *)
Definition entity (c : ascii) : string :=
  if Ascii.eqb c "&" then "&amp;"
  else if Ascii.eqb c ">" then "&gt;"
  else if Ascii.eqb c "<" then "&lt;"
  else String c "".

Fixpoint substitute (s : string) : string :=
  match s with
  | EmptyString => EmptyString
  | String c rest => entity c +:+ substitute rest
  end.

(** Number of occurrences of a character, and its absence. *)
Fixpoint count_char (c : Ascii.ascii) (s : string) : nat :=
  match s with
  | EmptyString => 0
  | String c' rest =>
      ((if Ascii.eqb c' c then 1 else 0) + count_char c rest)%nat
  end.

Definition plain (s : string) : Prop :=
  count_char "&"%char s = 0%nat ∧ count_char "<"%char s = 0%nat
  ∧ count_char ">"%char s = 0%nat.

End Xml.

(** The pairs (from, id) of all [link] elements of a document that carry
    both attributes, in document order (used to state properties of the
    input). *)
Definition link_elements (items : list parse_item) : list (string * string) :=
  omap (fun it => match it with
                  | Item ev_start elem =>
                      if String.eqb (tag elem) "link"
                      then match get_truthy elem "from", get_truthy elem "id" with
                           | Some from_node, Some link_id => Some (from_node, link_id)
                           | _, _ => None
                           end
                      else None
                  | _ => None
                  end) items.

(** The sum of a list of integers. *)
Definition sum_Z (l : list Z) : Z := foldr Z.add 0 l.

(** ** The rest of generante_random_trips.py *)

Module BasicScript.

(** [trip_attrs], in the order of the dict literal. *)
Definition trip_attrs (t : trip) : list (string * string) :=
  [("name", name t); ("origin", origin t); ("destination", destination t);
   ("link_origin", link_origin t); ("count", pretty (count t));
   ("start", pretty (start t)); ("mode", mode t);
   ("digital_rails_capable", digital_rails_capable t)].

(** The text of the output file after the trips [written]. *)
Definition file_text (written : list trip) : string :=
  Xml.document (trip_attrs <$> written).

(** [main] with the parsed command line: the trips left in the output file
    and the way the script ends ([None] for a run that is out of fuel). A
    file written by a generator that returns [False] is removed. *)
Definition main (fuel : nat) (network : network_file)
    (num_trips : Z) (output_file : io) (max_time : Z) (g : rng)
    : list trip * option Segmented.exit :=
  if num_trips <=? 0 then ([], Some (Segmented.Exit 1))
  else if max_time <? 0 then ([], Some (Segmented.Exit 1))
  else
    match Basic.parse_network_iterative network with
    | None => ([], Some (Segmented.Exit 1))
    | Some (node_ids, outgoing_links) =>
        if negb (nonempty_list node_ids) then ([], Some (Segmented.Exit 1))
        else if negb (nonempty_dict outgoing_links)
        then ([], Some (Segmented.Exit 1))
        else
          match Basic.generate_and_write_trips_iterative
                  fuel node_ids outgoing_links num_trips max_time
                  output_file g with
          | (written, Ret true) => (written, Some (Segmented.Exit 0))
          | (_, Ret false) => ([], Some (Segmented.Exit 1))
          | (written, Raise e) => (written, Some (Segmented.Uncaught e))
          | (written, OutOfFuel) => (written, None)
          end
    end.

End BasicScript.

(** ** The rest of generate_random_trips_segmented_group.py *)

Module GroupScript.

(** The keys of a dict of [final_trips_for_xml]: those of
    [processed_trips_list] in the order of its dict literal, then [name],
    which is added to the copy. *)
Definition trip_attrs (t : trip) : list (string * string) :=
  [("origin", origin t); ("destination", destination t);
   ("start", pretty (start t)); ("count", pretty (count t));
   ("link_origin", link_origin t); ("mode", mode t);
   ("digital_rails_capable", digital_rails_capable t); ("name", name t)].

(** The text of the output file after the trips [written]. *)
Definition file_text (written : list trip) : string :=
  Xml.document (trip_attrs <$> written).

(** [for trip_attrs in trips_list_for_xml: f.write(...)], the first write
    being operation [k]: the trips written and whether all were. *)
Fixpoint write_all (output_file : io) (k : nat) (trips : list trip)
    (written : list trip) : list trip * bool :=
  match trips with
  | [] => (written, true)
  | t :: rest =>
      if output_file k then write_all output_file (S k) rest (written ++ [t])
      else (written, false)
  end.

(** [write_trips_to_xml_iterative]: the trips written and the value
    returned; the operations on the file are numbered as in [with_open],
    and every failure is an IOError, which the function catches. *)
Definition write_trips_to_xml_iterative (trips_list_for_xml : list trip)
    (output_file : io) : list trip * bool :=
  if negb (output_file 0%nat && output_file 1%nat && output_file 2%nat)
  then ([], false)
  else
    match write_all output_file 3 trips_list_for_xml [] with
    | (written, true) =>
        let n := length trips_list_for_xml in
        (written, output_file (n + 3)%nat && output_file (n + 4)%nat)
    | (written, false) => (written, false)
    end.

(** [main] with the parsed command line: the trips left in the output
    file and the way the script ends ([None] for a run that is out of
    fuel). A file whose writing failed is removed. *)
Definition main (fuel : nat) (network : network_file)
    (num_trips : Z) (output_file : io) (max_time : Z) (g : rng)
    : list trip * option Segmented.exit :=
  if num_trips <=? 0 then ([], Some (Segmented.Exit 1))
  else if max_time <? 0 then ([], Some (Segmented.Exit 1))
  else
    match Group.parse_network_iterative network with
    | None => ([], Some (Segmented.Exit 1))
    | Some (node_ids, outgoing_links) =>
        if negb (nonempty_list node_ids) then ([], Some (Segmented.Exit 1))
        else if negb (nonempty_dict outgoing_links)
        then ([], Some (Segmented.Exit 1))
        else
          match Group.generate_aggregated_and_sorted_trips
                  fuel node_ids outgoing_links num_trips max_time g with
          | Ret final_xml_trips =>
              if negb (nonempty_list final_xml_trips) && (0 <? num_trips)
              then ([], Some (Segmented.Exit 1))
              else
                match write_trips_to_xml_iterative final_xml_trips
                                                   output_file with
                | (written, true) => (written, Some (Segmented.Exit 0))
                | (_, false) => ([], Some (Segmented.Exit 1))
                end
          | Raise e => ([], Some (Segmented.Uncaught e))
          | OutOfFuel => ([], None)
          end
    end.

End GroupScript.

(** ** More sample inputs *)

Module MoreExamples.

(** A document that ends in the middle of an element. *)
Definition doc_broken : list parse_item :=
  [Item ev_start (Element "network" ∅);
   Item ev_start (Element "nodes" ∅);
   XmlParseError].

(** A node and a link written directly under the root, without the
    [nodes] and [links] elements around them. *)
Definition doc_flat : list parse_item :=
  Examples.elem_pair "network" ∅
    (Examples.node_elem "a" ++ Examples.link_elem "a" "l1").


(** A label for the slots that carry no name. *)
Definition label : nat → float → float → string := fun _ _ _ => "Faixa".


(** [[{"start_hour": 2, "end_hour": 3, "percentage": 1}]] *)
Definition late_json : list Segmented.slot_def :=
  [Segmented.SlotDef None (Some (Segmented.Int 2)) (Some (Segmented.Int 3))
     (Some (Segmented.Int 1))].

(** Two hours with shares that add up to 1/2. *)
Definition half_json : list Segmented.slot_def :=
  [Segmented.SlotDef (Some "morning") (Some (Segmented.Int 0))
     (Some (Segmented.Int 1)) (Some (Segmented.Dec (1 # 4)));
   Segmented.SlotDef (Some "evening") (Some (Segmented.Int 1))
     (Some (Segmented.Int 2)) (Some (Segmented.Dec (1 # 4)))].

(** [[{"start_hour": 0, "end_hour": 1e400, "percentage": 1}]]: the end
    hour is decoded as an infinity. *)
Definition endless_json : list Segmented.slot_def :=
  [Segmented.SlotDef None (Some (Segmented.Int 0))
     (Some (Segmented.Dec (inject_Z (10 ^ 400)))) (Some (Segmented.Int 1))].

(** One node and one link that leaves it and comes back. *)
Definition doc_one : list parse_item :=
  Examples.network_doc (Examples.node_elem "a") (Examples.link_elem "a" "l1").

(** A file system whose operation [k] fails. *)
Definition fails_at (k : nat) : io := fun i => negb (i =? k)%nat.

(** Three trips [a → b] at time 5 over two links, and one at time 3. *)
Definition raws : list Group.raw_trip :=
  [Group.Raw "a" "b" 5 "l1"; Group.Raw "b" "a" 3 "l3";
   Group.Raw "a" "b" 5 "l2"; Group.Raw "a" "b" 5 "l1"].

(** A trip whose node ids hold the characters of XML markup. *)
Definition marked_trip : trip :=
  Trip "trip_1" "a&b" "c<d>" "l1" 1 0 "car" "false".

End MoreExamples.

(** * Properties *)

(** ** The random source and the monad *)

Section Monad.

Lemma bind_Ret {A B} (m : M A) (k : A → M B) g b g' :
  Py.bind m k g = Ret (b, g') →
  ∃ a g1, m g = Ret (a, g1) ∧ k a g1 = Ret (b, g').
Proof.
  unfold Py.bind. destruct (m g) as [[a g1]| |]; [|done..]. eauto.
Qed.

Lemma bind_Ret_intro {A B} (m : M A) (k : A → M B) g a g1 :
  m g = Ret (a, g1) → Py.bind m k g = k a g1.
Proof. unfold Py.bind. by intros ->. Qed.

Lemma choice_Ret {A} (l : list A) g x g' :
  choice l g = Ret (x, g') → x ∈ l ∧ g' = advance g.
Proof.
  destruct l as [|d l]; [done|].
  unfold choice, Py.bind, randbelow, Py.ret.
  set (l' := d :: l). intros H.
  assert (x = nth (oracle g (cursor g) `mod` length l') l' d) as ->
    by congruence.
  assert (g' = advance g) as -> by (unfold advance; congruence).
  split; [|done].
  apply list_elem_of_In, nth_In, Nat.mod_upper_bound. done.
Qed.

Lemma choice_total {A} (l : list A) g :
  l ≠ [] → ∃ x, choice l g = Ret (x, advance g) ∧ x ∈ l.
Proof.
  intros Hl. destruct l as [|d l]; [done|].
  unfold choice, Py.bind, randbelow, Py.ret. set (l' := d :: l).
  eexists. split; [reflexivity|].
  apply list_elem_of_In, nth_In, Nat.mod_upper_bound. done.
Qed.

Lemma choice_index {A} (l : list A) g j x :
  l !! j = Some x →
  (oracle g (cursor g) `mod` length l)%nat = j →
  choice l g = Ret (x, advance g).
Proof.
  intros Hj Hmod. destruct l as [|d l]; [done|].
  unfold choice, Py.bind, randbelow, Py.ret. set (l' := d :: l) in *.
  by rewrite Hmod, nth_lookup, Hj.
Qed.

Lemma choice_not_OutOfFuel {A} (l : list A) g : choice l g ≠ OutOfFuel.
Proof. by destruct l. Qed.

Lemma randint_Ret a b g t g' :
  randint a b g = Ret (t, g') → a ≤ t ≤ b ∧ g' = advance g.
Proof.
  unfold randint. destruct (b <? a) eqn:E; [done|].
  apply Z.ltb_ge in E.
  unfold Py.bind, randbelow, Py.ret. intros [= <- <-]. split; [|done].
  assert (oracle g (cursor g) `mod` Z.to_nat (b - a + 1)
          < Z.to_nat (b - a + 1))%nat by (apply Nat.mod_upper_bound; lia).
  lia.
Qed.

Lemma randint_total a b g :
  a ≤ b → ∃ t, randint a b g = Ret (t, advance g) ∧ a ≤ t ≤ b.
Proof.
  intros Hab. unfold randint.
  destruct (b <? a) eqn:E; [apply Z.ltb_lt in E; lia|].
  eexists. split; [reflexivity|].
  assert (oracle g (cursor g) `mod` Z.to_nat (b - a + 1)
          < Z.to_nat (b - a + 1))%nat by (apply Nat.mod_upper_bound; lia).
  lia.
Qed.

Lemma randint_empty a b g : b < a → randint a b g = Raise ValueError.
Proof. intros H. unfold randint. apply Z.ltb_lt in H. by rewrite H. Qed.

Lemma dict_getitem_Ret d k v g g' :
  dict_getitem d k g = Ret (v, g') → d !! k = Some v ∧ g' = g.
Proof.
  unfold dict_getitem. destruct (d !! k); [|done]. by intros [= <- <-].
Qed.

Lemma list_getitem_Ret {A} (l : list A) i x g g' :
  list_getitem l i g = Ret (x, g') → l !! Z.to_nat i = Some x ∧ g' = g.
Proof.
  unfold list_getitem. destruct (l !! Z.to_nat i); [|done].
  by intros [= <- <-].
Qed.

Lemma valid_origin_links links o :
  valid_origin links o = true →
  ∃ l ls, links !! o = Some (l :: ls).
Proof.
  unfold valid_origin. destruct (links !! o) as [[|l ls]|]; [done| |done].
  eauto.
Qed.

Lemma valid_origin_nodes_spec nodes links o :
  o ∈ valid_origin_nodes nodes links ↔ o ∈ nodes ∧ valid_origin links o = true.
Proof.
  unfold valid_origin_nodes. rewrite !list_elem_of_In, filter_In. done.
Qed.

End Monad.

(** Splits a hypothesis [bind m k g = Ret _] into its two steps. *)
Ltac bind_inv H :=
let a := fresh "a" in
let g1 := fresh "g" in
let H1 := fresh "Hm" in
apply bind_Ret in H as (a & g1 & H1 & H).

(** ** Rounding to binary64 *)

Section Binary64.

Lemma two_neq_0 : ¬ (2 == 0)%Q.
Proof. discriminate. Qed.

Lemma pow2_pos (e : Z) : (0 < 2 ^ e)%Q.
Proof. by apply Qpower_0_lt. Qed.

Lemma pow2_Z (z : Z) : 0 ≤ z → (2 ^ z == inject_Z (2 ^ z))%Q.
Proof. intros Hz. by rewrite (Zpower_Qpower 2 z Hz). Qed.

Lemma pow2_le (a b : Z) : a ≤ b → (2 ^ a <= 2 ^ b)%Q.
Proof. intros H. by apply Qpower_le_compat_l. Qed.

Lemma pow2_lt (a b : Z) : a < b → (2 ^ a < 2 ^ b)%Q.
Proof. intros H. by apply Qpower_lt_compat_l. Qed.

Lemma pow2_lt_inv (a b : Z) : (2 ^ a < 2 ^ b)%Q → a < b.
Proof. intros H. by apply (Qpower_lt_compat_l_inv 2). Qed.

Lemma pow2_add (a b : Z) : (2 ^ (a + b) == 2 ^ a * 2 ^ b)%Q.
Proof. apply Qpower_plus, two_neq_0. Qed.

Lemma pow2_sub (a b : Z) : (2 ^ (a - b) == 2 ^ a / 2 ^ b)%Q.
Proof. apply Qpower_minus, two_neq_0. Qed.

(** *** The exponent *)

Lemma quotient_bounds (n d a b : Z) :
  0 < n → 0 < d → 2 ^ a ≤ n < 2 ^ (a + 1) → 2 ^ b ≤ d < 2 ^ (b + 1) →
  0 ≤ a → 0 ≤ b →
  (2 ^ (a - b - 1) < inject_Z n / inject_Z d)%Q
  ∧ (inject_Z n / inject_Z d < 2 ^ (a - b + 1))%Q.
Proof.
  intros Hn Hd [Ha1 Ha2] [Hb1 Hb2] Ha Hb.
  assert (0 < inject_Z d)%Q as Hd' by (unfold Qlt; simpl; lia).
  split.
  - apply Qlt_shift_div_l; [done|].
    replace (a - b - 1) with (a - (b + 1)) by lia.
    rewrite pow2_sub. unfold Qdiv. rewrite <- Qmult_assoc.
    rewrite (Qmult_comm (/ _)). rewrite Qmult_assoc.
    apply Qlt_shift_div_r; [apply pow2_pos|].
    rewrite !pow2_Z by lia. rewrite <- !inject_Z_mult, <- Zlt_Qlt. nia.
  - apply Qlt_shift_div_r; [done|].
    replace (a - b + 1) with (a + 1 - b) by lia.
    rewrite pow2_sub. unfold Qdiv. rewrite <- Qmult_assoc.
    rewrite (Qmult_comm (/ _)). rewrite Qmult_assoc.
    apply Qlt_shift_div_l; [apply pow2_pos|].
    rewrite !pow2_Z by lia. rewrite <- !inject_Z_mult, <- Zlt_Qlt. nia.
Qed.

Lemma ilog2_spec (q : Q) :
  (0 < q)%Q → (2 ^ ilog2 q <= q)%Q ∧ (q < 2 ^ (ilog2 q + 1))%Q.
Proof.
  intros Hq. destruct q as [n d].
  assert (0 < n) as Hn by (unfold Qlt in Hq; simpl in Hq; lia).
  pose proof (Z.log2_spec n Hn) as Ha.
  pose proof (Z.log2_spec (Z.pos d) (Pos2Z.is_pos d)) as Hb.
  pose proof (Z.log2_nonneg n) as Ha0.
  pose proof (Z.log2_nonneg (Z.pos d)) as Hb0.
  destruct (quotient_bounds n (Z.pos d) _ _ Hn (Pos2Z.is_pos d) Ha Hb Ha0 Hb0)
    as [Hlo Hhi].
  rewrite <- Qmake_Qdiv in Hlo, Hhi.
  replace (Z.succ (Z.log2 n)) with (Z.log2 n + 1) in * by lia.
  unfold ilog2. simpl Qnum. simpl Qden.
  set (k := Z.log2 n - Z.log2 (Z.pos d)) in *.
  destruct (Qle_bool (2 ^ k) (n # d)) eqn:E.
  - apply Qle_bool_iff in E. done.
  - split.
    + by apply Qlt_le_weak.
    + replace (k - 1 + 1) with k by lia.
      apply Qnot_le_lt. intros H. apply Qle_bool_iff in H. congruence.
Qed.

Lemma ilog2_unique (q : Q) (e : Z) :
  (2 ^ e <= q)%Q → (q < 2 ^ (e + 1))%Q → ilog2 q = e.
Proof.
  intros H1 H2.
  assert (0 < q)%Q as Hq by (eapply Qlt_le_trans; [apply (pow2_pos e)|done]).
  destruct (ilog2_spec q Hq) as [H3 H4].
  assert (ilog2 q < e + 1).
  { apply pow2_lt_inv. eapply Qle_lt_trans; [exact H3|exact H2]. }
  assert (e < ilog2 q + 1).
  { apply pow2_lt_inv. eapply Qle_lt_trans; [exact H1|exact H4]. }
  lia.
Qed.

Lemma ilog2_mono (x y : Q) : (0 < x)%Q → (x <= y)%Q → ilog2 x ≤ ilog2 y.
Proof.
  intros Hx Hxy.
  assert (0 < y)%Q as Hy by (eapply Qlt_le_trans; done).
  destruct (ilog2_spec x Hx) as [H1 _]. destruct (ilog2_spec y Hy) as [_ H2].
  assert (ilog2 x < ilog2 y + 1); [|lia].
  apply pow2_lt_inv. eapply Qle_lt_trans; [exact H1|].
  eapply Qle_lt_trans; [exact Hxy|exact H2].
Qed.

(** *** Rounding to an integer *)

Lemma round_bounds (q : Q) : Qfloor q ≤ round q ≤ Qfloor q + 1.
Proof.
  unfold round. destruct (Qcompare _ _); [destruct (Z.even _)|..]; lia.
Qed.

Lemma round_Z (z : Z) (q : Q) : (q == inject_Z z)%Q → round q = z.
Proof.
  intros H. unfold round.
  assert (Qfloor q = z) as ->.
  { rewrite H. apply Qfloor_Z. }
  assert (q - inject_Z z == 0)%Q as E by (rewrite H; ring).
  assert ((q - inject_Z z ?= 1 # 2)%Q = Lt) as ->; [|done].
  rewrite E. reflexivity.
Qed.

Lemma round_cases (q : Q) :
  (q - inject_Z (Qfloor q) < 1 # 2 ∧ round q = Qfloor q)%Q
  ∨ ((q - inject_Z (Qfloor q) == 1 # 2)%Q
     ∧ round q = if Z.even (Qfloor q) then Qfloor q else Qfloor q + 1)
  ∨ ((1 # 2 < q - inject_Z (Qfloor q))%Q ∧ round q = Qfloor q + 1).
Proof.
  unfold round.
  destruct (Qcompare (q - inject_Z (Qfloor q)) (1 # 2)) eqn:E.
  - apply Qeq_alt in E. by right; left.
  - apply Qlt_alt in E. by left.
  - apply Qgt_alt in E. by right; right.
Qed.

Lemma round_mono (a b : Q) : (a <= b)%Q → round a ≤ round b.
Proof.
  intros Hab.
  pose proof (Qfloor_resp_le _ _ Hab) as Hf.
  destruct (decide (Qfloor a = Qfloor b)) as [E|E].
  - destruct (round_cases a) as [[Ha ->]|[[Ha ->]|[Ha ->]]];
      destruct (round_cases b) as [[Hb ->]|[[Hb ->]|[Hb ->]]];
      rewrite E in *; try destruct (Z.even _); try lia; exfalso; lra.
  - pose proof (round_bounds a). pose proof (round_bounds b). lia.
Qed.

Lemma round_le_Z (q : Q) (z : Z) : (q <= inject_Z z)%Q → round q ≤ z.
Proof.
  intros H. rewrite <- (round_Z z (inject_Z z)) by reflexivity.
  by apply round_mono.
Qed.

Lemma round_ge_Z (q : Q) (z : Z) : (inject_Z z <= q)%Q → z ≤ round q.
Proof.
  intros H. rewrite <- (round_Z z (inject_Z z)) by reflexivity.
  by apply round_mono.
Qed.

Lemma round_nonneg (q : Q) : (0 <= q)%Q → 0 ≤ round q.
Proof. intros H. by apply (round_ge_Z q 0). Qed.

(** *** Rounding to binary64 *)

Local Abbreviation exponent q := (Z.max (ilog2 q - 52) (-1074)).
Local Abbreviation rounded q :=
  (inject_Z (round (q / 2 ^ exponent q)) * 2 ^ exponent q)%Q.

Lemma round64_pos_Some (q v : Q) :
  round64_pos q = Some v →
  v = Qred (rounded q) ∧ (v == rounded q)%Q ∧ (rounded q < 2 ^ 1024)%Q.
Proof.
  unfold round64_pos.
  destruct (Qle_bool (2 ^ 1024) (rounded q)) eqn:E; [done|].
  intros [= <-]. split; [done|]. split; [apply Qred_correct|].
  apply Qnot_le_lt. intros H. apply Qle_bool_iff in H. congruence.
Qed.

Lemma round64_pos_None (q : Q) :
  round64_pos q = None → (2 ^ 1024 <= rounded q)%Q.
Proof.
  unfold round64_pos.
  destruct (Qle_bool (2 ^ 1024) (rounded q)) eqn:E; [|done].
  intros _. by apply Qle_bool_iff.
Qed.

Lemma rounded_nonneg (q : Q) : (0 <= q)%Q → (0 <= rounded q)%Q.
Proof.
  intros Hq. apply Qmult_le_0_compat; [|apply Qlt_le_weak, pow2_pos].
  change 0%Q with (inject_Z 0). rewrite <- Zle_Qle. apply round_nonneg.
  apply Qle_shift_div_l; [apply pow2_pos|]. by rewrite Qmult_0_l.
Qed.

Lemma rounded_upper (q : Q) :
  (0 < q)%Q → (rounded q <= 2 ^ (exponent q + 53))%Q.
Proof.
  intros Hq. destruct (ilog2_spec q Hq) as [_ Hhi].
  rewrite (Z.add_comm (exponent q) 53), pow2_add.
  apply Qmult_le_compat_r; [|apply Qlt_le_weak, pow2_pos].
  rewrite (pow2_Z 53) by lia. rewrite <- Zle_Qle. apply round_le_Z.
  rewrite <- (pow2_Z 53) by lia.
  apply Qle_shift_div_r; [apply pow2_pos|].
  rewrite <- pow2_add. apply Qlt_le_weak.
  eapply Qlt_le_trans; [exact Hhi|]. apply pow2_le. lia.
Qed.

Lemma rounded_lower (q : Q) :
  (0 < q)%Q → -1074 < exponent q → (2 ^ (exponent q + 52) <= rounded q)%Q.
Proof.
  intros Hq He. destruct (ilog2_spec q Hq) as [Hlo _].
  rewrite (Z.add_comm (exponent q) 52), pow2_add.
  apply Qmult_le_compat_r; [|apply Qlt_le_weak, pow2_pos].
  rewrite (pow2_Z 52) by lia. rewrite <- Zle_Qle. apply round_ge_Z.
  rewrite <- (pow2_Z 52) by lia.
  apply Qle_shift_div_l; [apply pow2_pos|].
  rewrite <- pow2_add. eapply Qle_trans; [|exact Hlo].
  apply pow2_le. lia.
Qed.

Lemma rounded_mono (x y : Q) :
  (0 < x)%Q → (x <= y)%Q → (rounded x <= rounded y)%Q.
Proof.
  intros Hx Hxy.
  assert (0 < y)%Q as Hy by (eapply Qlt_le_trans; done).
  pose proof (ilog2_mono x y Hx Hxy) as Hl.
  destruct (decide (exponent x = exponent y)) as [E|E].
  - rewrite E. apply Qmult_le_compat_r; [|apply Qlt_le_weak, pow2_pos].
    rewrite <- Zle_Qle. apply round_mono.
    apply Qmult_le_compat_r; [done|].
    apply Qlt_le_weak, Qinv_lt_0_compat, pow2_pos.
  - eapply Qle_trans; [by apply rounded_upper|].
    eapply Qle_trans; [|apply rounded_lower; [done|lia]].
    apply pow2_le. lia.
Qed.

Lemma round64_of_pos (q : Q) : (0 < q)%Q → round64 q = round64_pos q.
Proof.
  intros H. unfold round64. destruct (Qcompare q 0) eqn:E; [| |done].
  - apply Qeq_alt in E. lra.
  - apply Qlt_alt in E. lra.
Qed.

Lemma round64_of_neg (q : Q) :
  (q < 0)%Q → round64 q = Qopp <$> round64_pos (- q).
Proof.
  intros H. unfold round64. destruct (Qcompare q 0) eqn:E; [|done|].
  - apply Qeq_alt in E. lra.
  - apply Qgt_alt in E. lra.
Qed.

Lemma round64_of_0 (q : Q) : (q == 0)%Q → round64 q = Some 0%Q.
Proof.
  intros H. unfold round64. destruct (Qcompare q 0) eqn:E; [done| |].
  - apply Qlt_alt in E. lra.
  - apply Qgt_alt in E. lra.
Qed.

Lemma round64_sign (q v : Q) :
  round64 q = Some v →
  ((0 <= q)%Q → (0 <= v)%Q) ∧ ((q <= 0)%Q → (v <= 0)%Q).
Proof.
  destruct (Qlt_le_dec 0 q) as [Hp|Hn]; [|destruct (Qlt_le_dec q 0) as [Hn'|Hz]].
  - rewrite round64_of_pos by done. intros Ev.
    apply round64_pos_Some in Ev as (_ & Ev & _).
    assert (0 <= rounded q)%Q by (apply rounded_nonneg; lra).
    split; intros; lra.
  - rewrite round64_of_neg by done.
    destruct (round64_pos (- q)) as [w|] eqn:Ew; [|done]. intros [= <-].
    apply round64_pos_Some in Ew as (_ & Ew & _).
    assert (0 <= rounded (- q))%Q by (apply rounded_nonneg; lra).
    split; intros; lra.
  - rewrite round64_of_0 by lra. intros [= <-]. split; intros; lra.
Qed.

(** Rounding keeps the order. *)
Lemma round64_mono (q1 q2 v1 v2 : Q) :
  (q1 <= q2)%Q → round64 q1 = Some v1 → round64 q2 = Some v2 →
  (v1 <= v2)%Q.
Proof.
  intros Hq H1 H2.
  destruct (Qlt_le_dec 0 q1) as [Hp|Hn].
  - assert (0 < q2)%Q as Hp2 by lra.
    rewrite round64_of_pos in H1, H2 by done.
    apply round64_pos_Some in H1 as (_ & -> & _).
    apply round64_pos_Some in H2 as (_ & -> & _).
    by apply rounded_mono.
  - destruct (Qlt_le_dec q2 0) as [Hn2|Hp2].
    + assert (q1 < 0)%Q as Hn1 by lra.
      rewrite round64_of_neg in H1, H2 by done.
      destruct (round64_pos (- q1)) as [w1|] eqn:E1; [|done].
      destruct (round64_pos (- q2)) as [w2|] eqn:E2; [|done].
      injection H1 as <-. injection H2 as <-.
      apply round64_pos_Some in E1 as (_ & -> & _).
      apply round64_pos_Some in E2 as (_ & -> & _).
      assert (rounded (- q2) <= rounded (- q1))%Q
        by (apply rounded_mono; lra).
      lra.
    + apply round64_sign in H1 as [_ H1]. apply round64_sign in H2 as [H2 _].
      specialize (H1 Hn). specialize (H2 Hp2). lra.
Qed.

(** Beyond an overflow everything overflows. *)
Lemma round64_overflow (q1 q2 : Q) :
  (0 <= q1)%Q → (q1 <= q2)%Q → round64 q1 = None → round64 q2 = None.
Proof.
  intros H0 Hq H1.
  destruct (Qlt_le_dec 0 q1) as [Hp|Hn].
  - rewrite round64_of_pos in * by lra.
    apply round64_pos_None in H1.
    pose proof (rounded_mono q1 q2 Hp Hq) as Hm.
    unfold round64_pos.
    destruct (Qle_bool (2 ^ 1024) (rounded q2)) eqn:E; [done|].
    exfalso. assert (2 ^ 1024 <= rounded q2)%Q as Hle by lra.
    apply Qle_bool_iff in Hle. congruence.
  - rewrite round64_of_0 in H1 by lra. done.
Qed.

Lemma Qred_inject_Z (z : Z) : Qred (inject_Z z) = inject_Z z.
Proof.
  unfold Qred, inject_Z.
  pose proof (Z.ggcd_correct_divisors z 1) as Hd.
  pose proof (Z.ggcd_gcd z 1) as Hg.
  destruct (Z.ggcd z 1) as [g [aa bb]]. simpl in *.
  rewrite Z.gcd_1_r in Hg. subst g. destruct Hd as [Hz Hb].
  assert (aa = z) as -> by lia. assert (bb = 1) as -> by lia. reflexivity.
Qed.

(** The integers up to [2^53] are binary64 numbers. *)
Lemma rounded_Z (z : Z) : 0 < z ≤ 2 ^ 53 → (rounded (inject_Z z) == inject_Z z)%Q.
Proof.
  intros Hz.
  assert (0 < inject_Z z)%Q as Hq by (unfold Qlt; simpl; lia).
  destruct (ilog2_spec _ Hq) as [Hlo Hhi].
  assert (ilog2 (inject_Z z) ≤ 53) as Hl.
  { assert (ilog2 (inject_Z z) < 54); [|lia].
    apply pow2_lt_inv. eapply Qle_lt_trans; [exact Hlo|].
    rewrite (pow2_Z 54) by lia. rewrite <- Zlt_Qlt. lia. }
  assert (0 ≤ ilog2 (inject_Z z)) as Hl0.
  { assert (-1 < ilog2 (inject_Z z)); [|lia].
    replace (-1) with (0 - 1) by lia.
    assert (0 < ilog2 (inject_Z z) + 1); [|lia].
    apply pow2_lt_inv. eapply Qle_lt_trans; [|exact Hhi].
    change (2 ^ 0)%Q with (inject_Z 1). rewrite <- Zle_Qle. lia. }
  set (e := exponent (inject_Z z)) in *.
  assert (-52 ≤ e ≤ 1) as He by (unfold e; lia).
  destruct (decide (e = 1)) as [E1|E1].
  - assert (ilog2 (inject_Z z) = 53) as E53 by (unfold e in E1; lia).
    rewrite E53 in Hlo. rewrite (pow2_Z 53) in Hlo by lia.
    rewrite <- Zle_Qle in Hlo. assert (z = 2 ^ 53) as -> by lia.
    rewrite E1. rewrite (round_Z (2 ^ 52)); [reflexivity|]. reflexivity.
  - assert (e ≤ 0) as He0 by lia.
    rewrite (round_Z (z * 2 ^ (- e))).
    + rewrite inject_Z_mult. rewrite <- (pow2_Z (- e)) by lia.
      rewrite <- Qmult_assoc, <- pow2_add.
      replace (- e + e) with 0 by lia. change (2 ^ 0)%Q with 1%Q. ring.
    + rewrite inject_Z_mult. rewrite <- (pow2_Z (- e)) by lia.
      rewrite Qpower_opp. reflexivity.
Qed.

Lemma round64_Z (z : Z) :
  - 2 ^ 53 ≤ z ≤ 2 ^ 53 → round64 (inject_Z z) = Some (inject_Z z).
Proof.
  intros Hz.
  assert (∀ z, 0 < z ≤ 2 ^ 53 → round64_pos (inject_Z z) = Some (inject_Z z))
    as Hpos.
  { intros z' Hz'. pose proof (rounded_Z z' Hz') as Hr.
    unfold round64_pos.
    destruct (Qle_bool (2 ^ 1024) (rounded (inject_Z z'))) eqn:E.
    - exfalso. apply Qle_bool_iff in E. rewrite Hr in E.
      rewrite (pow2_Z 1024) in E by lia. rewrite <- Zle_Qle in E.
      assert (2 ^ 53 < 2 ^ 1024) by (apply Z.pow_lt_mono_r; lia). lia.
    - f_equal. rewrite (Qred_complete _ _ Hr). apply Qred_inject_Z. }
  destruct (Z.lt_trichotomy z 0) as [Hn|[->|Hp]].
  - rewrite round64_of_neg by (unfold Qlt; simpl; lia).
    rewrite <- inject_Z_opp, Hpos by lia. simpl.
    rewrite inject_Z_opp. f_equal. unfold Qopp, inject_Z. simpl. f_equal. lia.
  - reflexivity.
  - rewrite round64_of_pos by (unfold Qlt; simpl; lia). apply Hpos. lia.
Qed.

End Binary64.

(** ** The operations on floats *)

Section Floats.

Lemma rbind_Ret {A B} (r : result A) (k : A → result B) b :
  rbind r k = Ret b → ∃ a, r = Ret a ∧ k a = Ret b.
Proof. destruct r as [a| |]; [|done..]. simpl. eauto. Qed.

Lemma lift_Ret {A} (r : result A) g a g' :
  lift r g = Ret (a, g') → r = Ret a ∧ g' = g.
Proof. destruct r; [|done..]. unfold lift. by intros [= <- <-]. Qed.

Lemma lift_not_OutOfFuel {A} (r : result A) g :
  r ≠ OutOfFuel → lift r g ≠ OutOfFuel.
Proof. by destruct r. Qed.

Lemma Qlt_bool_false (x y : Q) : Qlt_bool x y = false → (y <= x)%Q.
Proof.
  unfold Qlt_bool. intros H. apply negb_false_iff in H.
  by apply Qle_bool_iff.
Qed.

Lemma Qlt_bool_true (x y : Q) : Qlt_bool x y = true → (x < y)%Q.
Proof.
  unfold Qlt_bool. intros H. apply negb_true_iff in H.
  apply Qnot_le_lt. intros Hle. apply Qle_bool_iff in Hle. congruence.
Qed.

Lemma Qle_bool_false (x y : Q) : Qle_bool x y = false → (y < x)%Q.
Proof.
  intros H. apply Qnot_le_lt. intros Hle. apply Qle_bool_iff in Hle.
  congruence.
Qed.

Lemma inject_Z_nonneg (z : Z) : 0 ≤ z → (0 <= inject_Z z)%Q.
Proof. intros H. change 0%Q with (inject_Z 0). by rewrite <- Zle_Qle. Qed.

Lemma float_of_int_Ret (n : Z) (x : float) :
  float_of_int n = Ret x →
  ∃ v, x = Finite v ∧ round64 (inject_Z n) = Some v.
Proof.
  unfold float_of_int. destruct (round64 (inject_Z n)) as [v|]; [|done].
  intros [= <-]. eauto.
Qed.

Lemma float_of_int_not_OutOfFuel (n : Z) : float_of_int n ≠ OutOfFuel.
Proof. unfold float_of_int. by destruct (round64 _). Qed.

(** An int of magnitude at most 2^53 is a float. *)
Lemma float_of_int_exact (n : Z) :
  - 2 ^ 53 ≤ n ≤ 2 ^ 53 → float_of_int n = Ret (Finite (inject_Z n)).
Proof. intros H. unfold float_of_int. by rewrite round64_Z. Qed.

(** The product of an int of at most 2^53 and a float between 0 and 1 is a
    finite float between 0 and the int. *)
Lemma int_times_share (n : Z) (q : Q) :
  0 ≤ n ≤ 2 ^ 53 → (0 <= q <= 1)%Q →
  ∃ v, int_times n (Finite q) = Ret (Finite v)
       ∧ round64 (inject_Z n * q) = Some v
       ∧ (0 <= v <= inject_Z n)%Q.
Proof.
  intros Hn [Hq0 Hq1]. unfold int_times.
  rewrite float_of_int_exact by lia. simpl. unfold to_float.
  assert (H0 : (0 <= inject_Z n)%Q) by (apply inject_Z_nonneg; lia).
  assert (Hprod : (0 <= inject_Z n * q)%Q) by by apply Qmult_le_0_compat.
  assert (Hle : (inject_Z n * q <= inject_Z n)%Q).
  { pose proof (Qmult_le_compat_r q 1 (inject_Z n) Hq1 H0). lra. }
  destruct (round64 (inject_Z n * q)) as [v|] eqn:E.
  - exists v. split; [done|]. split; [done|]. split.
    + by apply (round64_sign _ _ E).
    + eapply round64_mono; [exact Hle|exact E|]. apply round64_Z. lia.
  - pose proof (round64_overflow _ _ Hprod Hle E) as Hov.
    rewrite round64_Z in Hov by lia. done.
Qed.

Lemma round_float_not_OutOfFuel (x : float) : round_float x ≠ OutOfFuel.
Proof. by destruct x. Qed.

Lemma int_float_not_OutOfFuel (x : float) : int_float x ≠ OutOfFuel.
Proof. by destruct x. Qed.

Lemma int_times_not_OutOfFuel (n : Z) (x : float) :
  int_times n x ≠ OutOfFuel.
Proof.
  unfold int_times, float_of_int. by destruct (round64 _).
Qed.

Lemma int_of_nonneg (q : Q) : (0 <= q)%Q → 0 ≤ int_of q.
Proof.
  intros H. unfold int_of. apply Z.quot_pos; [|done].
  destruct q as [n d]. unfold Qle in H. simpl in *. lia.
Qed.

Lemma int_of_floor (q : Q) : (0 <= q)%Q → int_of q = Qfloor q.
Proof.
  intros H. destruct q as [n d]. unfold int_of, Qfloor. simpl.
  apply Z.quot_div_nonneg; [|done]. unfold Qle in H. simpl in H. lia.
Qed.

Lemma int_of_mono (a b : Q) : (0 <= a)%Q → (a <= b)%Q → int_of a ≤ int_of b.
Proof.
  intros Ha Hab. rewrite !int_of_floor; [|by eapply Qle_trans|done].
  by apply Qfloor_resp_le.
Qed.

Lemma int_of_inject_Z (z : Z) : int_of (inject_Z z) = z.
Proof. unfold int_of. simpl. apply Z.quot_1_r. Qed.

End Floats.

(** ** The loop that writes the trips *)

Section WriteLoop.

Variable body : Z → M trip.

Lemma write_loop_spec indices : ∀ written g w r,
  write_loop body indices written g = (w, r) →
  ∃ new, w = written ++ new
         ∧ Forall2 (produced body) (take (length new) indices) new
         ∧ (length new ≤ length indices)%nat
         ∧ (∀ g', r = Ret g' → length new = length indices).
Proof.
  induction indices as [|i rest IH]; intros written g w r H; simpl in H.
  - inversion H; subst. exists []. rewrite app_nil_r. by repeat split.
  - destruct (body i g) as [[t g1]| |] eqn:Hb.
    + apply IH in H as (new & -> & HF & Hlen & Hr).
      exists (t :: new). rewrite <- app_assoc. simpl. repeat split.
      * constructor; [by exists g, g1|done].
      * lia.
      * intros g' E. by rewrite (Hr g' E).
    + inversion H; subst. exists []. rewrite app_nil_r.
      repeat split; [constructor|simpl; lia|done].
    + inversion H; subst. exists []. rewrite app_nil_r.
      repeat split; [constructor|simpl; lia|done].
Qed.

(** Every trip in the file when the loop ends or stops was produced by
    the body. *)
Lemma write_loop_Forall (P : trip → Prop) indices g w r :
  (∀ i t, produced body i t → P t) →
  write_loop body indices [] g = (w, r) →
  Forall P w.
Proof.
  intros HP H. apply write_loop_spec in H as (new & -> & HF & _).
  simpl. clear -HP HF.
  induction HF; constructor; eauto.
Qed.

Lemma write_loop_length indices g w g' :
  write_loop body indices [] g = (w, Ret g') →
  length w = length indices.
Proof.
  intros H. apply write_loop_spec in H as (new & -> & _ & _ & Hr).
  simpl. eauto.
Qed.

(** A body that always returns makes the loop return. *)
Lemma write_loop_total indices :
  (∀ i g, i ∈ indices → ∃ t g', body i g = Ret (t, g')) →
  ∀ written g, ∃ w g', write_loop body indices written g = (w, Ret g').
Proof.
  induction indices as [|i rest IH]; intros Hb written g; simpl.
  - eauto.
  - destruct (Hb i g) as (t & g1 & E); [by left|]. rewrite E.
    apply IH. intros j g2 Hj. apply Hb. by right.
Qed.

End WriteLoop.

(** More fuel for the body does not change a loop that returned. *)
Lemma write_loop_mono (body body' : Z → M trip) indices :
  (∀ i g r, body i g = Ret r → body' i g = Ret r) →
  ∀ written g w g',
    write_loop body indices written g = (w, Ret g') →
    write_loop body' indices written g = (w, Ret g').
Proof.
  intros Hb. induction indices as [|i rest IH]; intros written g w g'; simpl.
  - done.
  - destruct (body i g) as [[t g1]| |] eqn:E; [|done..].
    rewrite (Hb _ _ _ E). apply IH.
Qed.

Lemma range2_lookup a b k i :
  Py.range2 a b !! k = Some i → i = a + Z.of_nat k.
Proof.
  unfold Py.range2. intros (k' & -> & Hk')%list_lookup_fmap_Some.
  by apply lookup_seq in Hk' as [-> _].
Qed.

Lemma range_lookup n k i : Py.range n !! k = Some i → i = Z.of_nat k.
Proof.
  unfold Py.range. intros (k' & -> & Hk')%list_lookup_fmap_Some.
  by apply lookup_seq in Hk' as [-> _].
Qed.

(** *** Writing through the file system *)

Section WriteFile.

Variable output_file : io.
Variable offset : nat.
Variable make : Z → M trip.

Lemma write_trip_Ret i g t g' :
  write_trip output_file offset make i g = Ret (t, g') →
  make i g = Ret (t, g') ∧ output_file (offset + Z.to_nat i)%nat = true.
Proof.
  unfold write_trip, f_write. intros H. bind_inv H.
  destruct (output_file _); [|done].
  unfold Py.ret in H. injection H as <- <-. done.
Qed.

Lemma write_trip_produced i t :
  produced (write_trip output_file offset make) i t → produced make i t.
Proof.
  intros (g & g' & H). apply write_trip_Ret in H as [H _]. by exists g, g'.
Qed.

(** What the body raises is what [make] raises, or the IOError of the
    write. *)
Lemma write_trip_Raise i g e :
  write_trip output_file offset make i g = Raise e →
  make i g = Raise e
  ∨ (e = IOError ∧ output_file (offset + Z.to_nat i)%nat = false
     ∧ ∃ t g', make i g = Ret (t, g')).
Proof.
  unfold write_trip, f_write, Py.bind.
  destruct (make i g) as [[t g1]| |]; [|by left; congruence|done].
  destruct (output_file _); [done|].
  unfold Py.raise. intros [= <-]. right. eauto.
Qed.

Lemma write_trip_OutOfFuel i g :
  write_trip output_file offset make i g = OutOfFuel →
  make i g = OutOfFuel.
Proof.
  unfold write_trip, f_write, Py.bind.
  destruct (make i g) as [[t g1]| |]; [|done..].
  by destruct (output_file _).
Qed.

(** The trips in the file, whatever ends the loop, were made by [make]. *)
Lemma write_file_Forall (P : trip → Prop) n indices g w r :
  (∀ i t, produced make i t → P t) →
  with_open output_file n
    (write_loop (write_trip output_file offset make) indices []) g = (w, r) →
  Forall P w.
Proof.
  intros HP. unfold with_open.
  destruct (negb _); [by intros [= <- _]|].
  destruct (write_loop _ _ _ _) as [w0 r0] eqn:E.
  assert (Forall P w0) as Hw.
  { eapply write_loop_Forall; [|exact E].
    intros i t Hp. apply (HP i). by apply write_trip_produced. }
  destruct r0 as [g'| |]; [destruct (_ && _)|..]; by intros [= <- _].
Qed.

Lemma write_file_Ret n indices g w g' :
  with_open output_file n
    (write_loop (write_trip output_file offset make) indices []) g
  = (w, Ret g') →
  write_loop (write_trip output_file offset make) indices [] g = (w, Ret g')
  ∧ output_file 0%nat = true ∧ output_file 1%nat = true
  ∧ output_file 2%nat = true
  ∧ output_file (n + 3)%nat = true ∧ output_file (n + 4)%nat = true.
Proof.
  unfold with_open.
  destruct (output_file 0%nat), (output_file 1%nat), (output_file 2%nat);
    simpl; try done.
  destruct (write_loop _ _ _ _) as [w0 [g0| |]]; [|done..].
  destruct (output_file (n + 3)%nat), (output_file (n + 4)%nat);
    simpl; done.
Qed.

Lemma with_open_inv n loop g w r :
  with_open output_file n loop g = (w, r) →
  (w = [] ∧ r = Raise IOError)
  ∨ ∃ r0, loop g = (w, r0)
          ∧ (r = r0 ∨ (r = Raise IOError ∧ ∃ g', r0 = Ret g')).
Proof.
  unfold with_open. destruct (negb _); [intros [= <- <-]; by left|].
  destruct (loop g) as [w0 r0]. intros H. right. exists r0.
  destruct r0 as [g'| |]; [destruct (_ && _)|..];
    injection H as <- <-; split; eauto.
Qed.

End WriteFile.

(** On a file system that refuses nothing the writes leave no trace. *)
Lemma write_trip_works output_file offset make i g :
  (∀ k, output_file k = true) →
  write_trip output_file offset make i g = make i g.
Proof.
  intros Hw. unfold write_trip, f_write, Py.bind, Py.ret. rewrite Hw.
  by destruct (make i g) as [[t g1]| |].
Qed.

Lemma write_loop_ext (body body' : Z → M trip) indices :
  (∀ i g, body i g = body' i g) →
  ∀ written g,
    write_loop body indices written g = write_loop body' indices written g.
Proof.
  intros Hb. induction indices as [|i rest IH]; intros written g; simpl.
  - done.
  - rewrite Hb. destruct (body' i g) as [[t g1]| |]; [apply IH|done..].
Qed.

Lemma with_open_works output_file n loop g :
  (∀ k, output_file k = true) → with_open output_file n loop g = loop g.
Proof.
  intros Hw. unfold with_open. rewrite !Hw. simpl.
  by destruct (loop g) as [w [g'| |]].
Qed.

Lemma write_file_works output_file offset make n indices g :
  (∀ k, output_file k = true) →
  with_open output_file n
    (write_loop (write_trip output_file offset make) indices []) g
  = write_loop make indices [] g.
Proof.
  intros Hw. rewrite with_open_works by done. apply write_loop_ext.
  intros i g1. by apply write_trip_works.
Qed.

Lemma write_loop_ext_in (body body' : Z → M trip) indices :
  (∀ i g, i ∈ indices → body i g = body' i g) →
  ∀ written g,
    write_loop body indices written g = write_loop body' indices written g.
Proof.
  induction indices as [|i rest IH]; intros Hb written g; simpl.
  - done.
  - rewrite Hb by by left.
    destruct (body' i g) as [[t g1]| |]; [|done..].
    apply IH. intros j g2 Hj. apply Hb. by right.
Qed.

(** The same when the file system accepts the operations of the run, the
    writes of the loop being the operations 3, 4, ... *)
Lemma write_file_accepts output_file offset make n indices g :
  length indices = n →
  (∀ k i, indices !! k = Some i → (offset + Z.to_nat i = 3 + k)%nat) →
  accepts output_file n →
  with_open output_file n
    (write_loop (write_trip output_file offset make) indices []) g
  = write_loop make indices [] g.
Proof.
  intros Hlen Hidx Hacc. unfold with_open.
  rewrite !Hacc by lia. simpl.
  rewrite (write_loop_ext_in (write_trip output_file offset make) make).
  - by destruct (write_loop make indices [] g) as [w [g'| |]].
  - intros i g1 Hi. apply list_elem_of_lookup in Hi as [k Hk].
    unfold write_trip, f_write, Py.bind, Py.ret.
    rewrite (Hidx _ _ Hk), Hacc by (apply lookup_lt_Some in Hk; lia).
    by destruct (make i g1) as [[t g2]| |].
Qed.

Lemma segmented_indices num_trips k i :
  Py.range num_trips !! k = Some i → (3 + Z.to_nat i = 3 + k)%nat.
Proof. intros ->%range_lookup. lia. Qed.

Lemma basic_indices num_trips k i :
  Py.range2 1 (num_trips + 1) !! k = Some i →
  (2 + Z.to_nat i = 3 + k)%nat.
Proof. intros ->%range2_lookup. lia. Qed.

Lemma length_range2 num_trips :
  length (Py.range2 1 (num_trips + 1)) = Z.to_nat num_trips.
Proof.
  unfold Py.range2. rewrite length_fmap, length_seq. f_equal. lia.
Qed.

Lemma length_range num_trips : length (Py.range num_trips) = Z.to_nat num_trips.
Proof. unfold Py.range. by rewrite length_fmap, length_seq. Qed.

(** The trips in the file are a prefix of what the loop writes on a file
    system that refuses nothing, made from the same state of the random
    source. *)
Lemma write_loop_through_io output_file offset make indices :
  ∀ written g w r,
    write_loop (write_trip output_file offset make) indices written g
    = (w, r) →
    ∃ k r0, write_loop make (take k indices) written g = (w, r0)
            ∧ (k ≤ length indices)%nat
            ∧ (∀ g', r = Ret g' → k = length indices ∧ r0 = Ret g').
Proof.
  induction indices as [|i rest IH]; intros written g w r H; simpl in H.
  - exists 0%nat, r. simpl. split; [done|]. split; [done|]. by intros g' ->.
  - destruct (write_trip output_file offset make i g) as [[t g1]| |] eqn:E.
    + apply write_trip_Ret in E as [E _].
      apply IH in H as (k & r0 & H & Hk & Hr).
      exists (S k), r0. simpl. rewrite E. split; [done|]. split; [lia|].
      intros g' Hg. destruct (Hr g' Hg) as [-> ->]. done.
    + injection H as <- <-. exists 0%nat, (Ret g). simpl.
      split; [done|]. split; [lia|]. done.
    + injection H as <- <-. exists 0%nat, (Ret g). simpl.
      split; [done|]. split; [lia|]. done.
Qed.

(** ** The loader *)

Section Loader.

Lemma on_item_node_ids st ev elem :
  ∃ new, node_ids (on_item st ev elem) = node_ids st ++ new
         ∧ new `sublist_of` node_elements [Item ev elem].
Proof.
  unfold on_item, node_elements; simpl.
  destruct ev.
  - destruct (String.eqb (tag elem) "nodes") eqn:Hn.
    { exists []. rewrite app_nil_r. split; [done|apply sublist_nil_l]. }
    destruct (String.eqb (tag elem) "links") eqn:Hl.
    { exists []. rewrite app_nil_r. split; [done|apply sublist_nil_l]. }
    destruct (context_is ctx_nodes (ctx st) && String.eqb (tag elem) "node") eqn:Hc.
    + apply andb_true_iff in Hc as [_ ->].
      destruct (get_truthy elem "id") as [id|]; simpl.
      * exists [id]. done.
      * exists []. rewrite app_nil_r. done.
    + exists []. rewrite app_nil_r. split; [|apply sublist_nil_l].
      destruct (context_is ctx_links (ctx st) && String.eqb (tag elem) "link");
        [|done].
      destruct (get_truthy elem "from"), (get_truthy elem "id"); done.
  - exists []. rewrite app_nil_r. split; [|apply sublist_nil_l].
    destruct (String.eqb (tag elem) "nodes"); [done|].
    destruct (String.eqb (tag elem) "links"); done.
Qed.

Lemma iterate_node_ids items : ∀ st st',
  iterate items st = Some st' →
  ∃ new, node_ids st' = node_ids st ++ new
         ∧ new `sublist_of` node_elements items.
Proof.
  induction items as [|it items IH]; intros st st' H; simpl in H.
  - inversion H; subst. exists []. rewrite app_nil_r. done.
  - destruct it as [ev elem|]; [|done].
    apply IH in H as (new2 & E2 & S2).
    destruct (on_item_node_ids st ev elem) as (new1 & E1 & S1).
    exists (new1 ++ new2). split.
    + rewrite E2, E1, app_assoc. done.
    + change (node_elements (Item ev elem :: items))
        with (node_elements ([Item ev elem] ++ items)).
      unfold node_elements in *. rewrite omap_app.
      by apply sublist_app.
Qed.

(** The node list of a loaded network is a subsequence of the ids of the
    document's [node] elements. *)
Lemma loaded_nodes_sublist items st :
  iterate items initial = Some st →
  node_ids st `sublist_of` node_elements items.
Proof.
  intros H. apply iterate_node_ids in H as (new & E & S).
  simpl in E. by rewrite E.
Qed.

Lemma parse_basic_Some file nodes links :
  Basic.parse_network_iterative file = Some (nodes, links) →
  ∃ items st, file = Some items ∧ iterate items initial = Some st
              ∧ nodes = node_ids st ∧ links = outgoing_links st.
Proof.
  unfold Basic.parse_network_iterative.
  destruct file as [items|]; [|done].
  destruct (iterate items initial) as [st|] eqn:E; [|done].
  case_match; [done|]. intros [= <- <-]. by exists items, st.
Qed.

Lemma parse_group_Some file nodes links :
  Group.parse_network_iterative file = Some (nodes, links) →
  ∃ items st, file = Some items ∧ iterate items initial = Some st
              ∧ nodes = node_ids st ∧ links = outgoing_links st.
Proof.
  unfold Group.parse_network_iterative.
  destruct file as [items|]; [|done].
  destruct (iterate items initial) as [st|] eqn:E; [|done].
  case_match; [done|]. intros [= <- <-]. by exists items, st.
Qed.

Lemma parse_segmented_Some file nodes links :
  Segmented.parse_network_iterative file = Some (nodes, links) →
  ∃ items st, file = Some items ∧ iterate items initial = Some st
              ∧ nodes = node_ids st ∧ links = outgoing_links st.
Proof.
  unfold Segmented.parse_network_iterative.
  destruct file as [items|]; [|done].
  destruct (iterate items initial) as [st|] eqn:E; [|done].
  intros [= <- <-]. by exists items, st.
Qed.

End Loader.

(** C8 (amended): when the document yields at least one node and at least
    one link with [from] and [id] but no node is a valid origin, the
    loaders of the basic and of the grouping script fail (they return
    [None, None]); the loader of the segmented script only reports the
    condition and returns the parsed nodes and links, and it is its
    generator that then fails, writing no trip. *)
Theorem C8_load_without_valid_origin (items : list parse_item) (st : reader) :
  iterate items initial = Some st →
  node_ids st ≠ [] →
  outgoing_links st ≠ ∅ →
  valid_origin_nodes (node_ids st) (outgoing_links st) = [] →
  Basic.parse_network_iterative (Some items) = None
  ∧ Group.parse_network_iterative (Some items) = None
  ∧ Segmented.parse_network_iterative (Some items)
    = Some (node_ids st, outgoing_links st)
  ∧ ∀ num_trips max_time output_file slots pct g,
      Segmented.generate_and_write_trips_iterative
        (node_ids st) (outgoing_links st) num_trips max_time output_file
        slots pct g
      = ([], Ret false).
Proof.
  intros Hit Hn Hl Hv.
  assert (Hcheck : Nat.eqb (length (valid_origin_nodes (node_ids st) (outgoing_links st))) 0
                   && nonempty_list (node_ids st)
                   && nonempty_dict (outgoing_links st) = true).
  { rewrite Hv. simpl. unfold nonempty_dict.
    rewrite bool_decide_eq_false_2 by done.
    destruct (node_ids st); done. }
  repeat split.
  - unfold Basic.parse_network_iterative. by rewrite Hit, Hcheck.
  - unfold Group.parse_network_iterative. by rewrite Hit, Hcheck.
  - unfold Segmented.parse_network_iterative. by rewrite Hit.
  - intros. unfold Segmented.generate_and_write_trips_iterative.
    rewrite Hv. simpl. by destruct (nonempty_list (node_ids st)).
Qed.

Lemma C8_load_without_valid_origin_witness :
  Basic.parse_network_iterative (Some Examples.doc_no_origin) = None
  ∧ Group.parse_network_iterative (Some Examples.doc_no_origin) = None.
Proof.
  destruct (iterate Examples.doc_no_origin initial) as [st|] eqn:E;
    [|vm_compute in E; discriminate].
  assert (Hst : node_ids st = ["a"] ∧ outgoing_links st !! "b" = Some ["l1"]
                ∧ valid_origin_nodes (node_ids st) (outgoing_links st) = []).
  { vm_compute in E. injection E as <-. by vm_compute. }
  destruct Hst as (Hn & Hl & Hv).
  destruct (C8_load_without_valid_origin Examples.doc_no_origin st E)
    as (Hb & Hg & _).
  - by rewrite Hn.
  - intros Hempty. by rewrite Hempty in Hl.
  - exact Hv.
  - exact (conj Hb Hg).
Defined.

(** C8 fails as stated: on a document with node [a] and a single link
    leaving the unknown node [b], the loader of the segmented script
    returns the parsed nodes and links. *)
Lemma C8_counterexample_segmented_loader_returns :
  ∃ nodes links,
    Segmented.parse_network_iterative (Some Examples.doc_no_origin)
    = Some (nodes, links)
    ∧ nodes = ["a"]
    ∧ links !! "b" = Some ["l1"]
    ∧ valid_origin_nodes nodes links = [].
Proof.
  destruct (Segmented.parse_network_iterative (Some Examples.doc_no_origin))
    as [[nodes links]|] eqn:E; [|vm_compute in E; discriminate].
  exists nodes, links. split; [done|].
  vm_compute in E. injection E as <- <-. by vm_compute.
Qed.

(** C9 (amended): none of the loaders removes repeated ids; when the [node]
    elements of the document carry pairwise distinct ids, the node list of
    a successfully loaded network has no duplicates. *)
Theorem C9_loaded_nodes_unique (items : list parse_item)
    (nodes : list string) (links : gmap string (list string)) :
  NoDup (node_elements items) →
  Basic.parse_network_iterative (Some items) = Some (nodes, links)
  ∨ Segmented.parse_network_iterative (Some items) = Some (nodes, links)
  ∨ Group.parse_network_iterative (Some items) = Some (nodes, links) →
  NoDup nodes.
Proof.
  intros Hnd H.
  assert (∃ st, iterate items initial = Some st ∧ nodes = node_ids st)
    as (st & Hit & ->).
  { destruct H as [H|[H|H]].
    - apply parse_basic_Some in H as (? & st & [= <-] & ? & ? & _); eauto.
    - apply parse_segmented_Some in H as (? & st & [= <-] & ? & ? & _); eauto.
    - apply parse_group_Some in H as (? & st & [= <-] & ? & ? & _); eauto. }
  eapply sublist_NoDup; [exact Hnd|]. by apply loaded_nodes_sublist.
Qed.

Lemma C9_loaded_nodes_unique_witness :
  ∃ nodes links,
    Basic.parse_network_iterative (Some Examples.doc_ab) = Some (nodes, links)
    ∧ NoDup nodes.
Proof.
  destruct (Basic.parse_network_iterative (Some Examples.doc_ab))
    as [[nodes links]|] eqn:E; [|vm_compute in E; discriminate].
  exists nodes, links. split; [done|].
  apply (C9_loaded_nodes_unique Examples.doc_ab nodes links).
  - apply (bool_decide_unpack _). vm_compute. exact I.
  - by left.
Defined.

(** C9 fails as stated: a document with two [node] elements of id [a]
    loads successfully in the three scripts, with [a] listed twice. *)
Lemma C9_counterexample_repeated_id :
  fst <$> Basic.parse_network_iterative (Some Examples.doc_twice)
  = Some ["a"; "a"]
  ∧ fst <$> Segmented.parse_network_iterative (Some Examples.doc_twice)
    = Some ["a"; "a"]
  ∧ fst <$> Group.parse_network_iterative (Some Examples.doc_twice)
    = Some ["a"; "a"]
  ∧ ¬ NoDup ["a"; "a"].
Proof.
  repeat split; try (vm_compute; reflexivity).
  intros H. apply NoDup_cons in H as [H _]. apply H. by left.
Qed.

(** ** The basic generator *)

Section BasicGenerator.

Variable node_ids : list string.
Variable outgoing_links : gmap string (list string).
Variable max_start_time : Z.

Lemma basic_redraw_Ret fuel : ∀ o d g d' g',
  Basic.redraw fuel node_ids o d g = Ret (d', g') →
  ((1 < length node_ids)%nat → d' ≠ o)
  ∧ oracle g' = oracle g ∧ (cursor g ≤ cursor g')%nat.
Proof.
  induction fuel as [|fuel IH]; intros o d g d' g'; simpl;
    destruct ((1 <? length node_ids)%nat && String.eqb d o) eqn:E;
    try done.
  - intros [= <- <-]. split; [|done]. intros Hlen.
    apply Nat.ltb_lt in Hlen. rewrite Hlen in E. simpl in E.
    by apply String.eqb_neq.
  - intros H. bind_inv H. apply choice_Ret in Hm as [_ ->].
    apply IH in H as (H1 & H2 & H3). simpl in *. repeat split; [done..|lia].
  - intros [= <- <-]. split; [|done]. intros Hlen.
    apply Nat.ltb_lt in Hlen. rewrite Hlen in E. simpl in E.
    by apply String.eqb_neq.
Qed.

Lemma basic_redraw_mono fuel : ∀ fuel' o d g r,
  (fuel ≤ fuel')%nat →
  Basic.redraw fuel node_ids o d g = Ret r →
  Basic.redraw fuel' node_ids o d g = Ret r.
Proof.
  induction fuel as [|fuel IH]; intros fuel' o d g r Hle; simpl;
    destruct ((1 <? length node_ids)%nat && String.eqb d o) eqn:E;
    try done.
  - destruct fuel'; simpl; by rewrite E.
  - destruct fuel' as [|fuel']; [lia|]. simpl. rewrite E.
    unfold Py.bind. destruct (choice node_ids g) as [[d1 g1]| |]; [|done..].
    apply IH. lia.
  - destruct fuel'; simpl; by rewrite E.
Qed.

Lemma basic_make_trip_Ret fuel valid i g t g' :
  Basic.make_trip fuel node_ids outgoing_links valid max_start_time i g
  = Ret (t, g') →
  origin t ∈ valid
  ∧ (∃ ls, outgoing_links !! origin t = Some ls ∧ link_origin t ∈ ls)
  ∧ 0 ≤ start t ≤ max_start_time
  ∧ ((1 < length node_ids)%nat → destination t ≠ origin t)
  ∧ count t = 1%nat
  ∧ name t = "trip_" +:+ pretty i.
Proof.
  unfold Basic.make_trip. intros H.
  bind_inv H. apply choice_Ret in Hm as [Ho ->].
  bind_inv H. apply dict_getitem_Ret in Hm as [Hl ->].
  bind_inv H. apply choice_Ret in Hm as [Hlk ->].
  bind_inv H. apply choice_Ret in Hm as [_ ->].
  bind_inv H. apply basic_redraw_Ret in Hm as (Hd & _ & _).
  bind_inv H. apply randint_Ret in Hm as [Hs ->].
  unfold Py.ret in H. injection H as <- <-. simpl.
  repeat split; eauto; lia.
Qed.

Lemma basic_make_trip_mono fuel fuel' valid i g r :
  (fuel ≤ fuel')%nat →
  Basic.make_trip fuel node_ids outgoing_links valid max_start_time i g = Ret r →
  Basic.make_trip fuel' node_ids outgoing_links valid max_start_time i g = Ret r.
Proof.
  intros Hle. unfold Basic.make_trip, Py.bind.
  destruct (choice valid g) as [[o g1]| |]; [|done..].
  destruct (dict_getitem outgoing_links o g1) as [[ls g2]| |]; [|done..].
  destruct (choice ls g2) as [[l g3]| |]; [|done..].
  destruct (choice node_ids g3) as [[d0 g4]| |]; [|done..].
  destruct (Basic.redraw fuel node_ids o d0 g4) as [[d g5]| |] eqn:E; [|done..].
  by rewrite (basic_redraw_mono fuel fuel' o d0 g4 _ Hle E).
Qed.

(** Every trip the loop body writes has a valid origin and one of its
    links. *)
Lemma basic_produced_ok fuel i t :
  produced (Basic.make_trip fuel node_ids outgoing_links
              (valid_origin_nodes node_ids outgoing_links) max_start_time) i t →
  origin_ok node_ids outgoing_links t
  ∧ 0 ≤ start t ≤ max_start_time
  ∧ ((1 < length node_ids)%nat → destination t ≠ origin t).
Proof.
  intros (g & g' & H). apply basic_make_trip_Ret in H as (?&?&?&?&_).
  unfold origin_ok. tauto.
Qed.

Section Fair.

Variable f : nat → nat.
Hypothesis fair : offers_other_nodes node_ids f.

Lemma basic_redraw_total o : ∀ k p d q,
  (q = p + k)%nat →
  (∃ d1 g1, choice node_ids (Rng f q) = Ret (d1, g1) ∧ d1 ≠ o) →
  ∃ fuel d' p', Basic.redraw fuel node_ids o d (Rng f p) = Ret (d', Rng f p').
Proof.
  induction k as [|k IH]; intros p d q Hq (d1 & g1 & Hc & Hne).
  - replace q with p in Hc by lia.
    destruct ((1 <? length node_ids)%nat && String.eqb d o) eqn:E.
    + exists 1%nat, d1, (S p). simpl. rewrite E.
      erewrite bind_Ret_intro by exact Hc.
      apply choice_Ret in Hc as [_ ->].
      destruct (String.eqb d1 o) eqn:E1; [by apply String.eqb_eq in E1|].
      by rewrite andb_false_r.
    + exists 0%nat, d, p. simpl. by rewrite E.
  - destruct ((1 <? length node_ids)%nat && String.eqb d o) eqn:E.
    + destruct (choice node_ids (Rng f p)) as [[d2 g2]| |] eqn:Hc2.
      * apply choice_Ret in Hc2 as Hg2. destruct Hg2 as [_ ->].
        destruct (IH (S p) d2 q) as (fuel & d' & p' & Hr); [lia|eauto|].
        exists (S fuel), d', p'. simpl. rewrite E.
        by erewrite bind_Ret_intro by exact Hc2.
      * apply choice_Ret in Hc as [Hin _].
        destruct node_ids; [by apply elem_of_nil in Hin|done].
      * by apply choice_not_OutOfFuel in Hc2.
    + exists 0%nat, d, p. simpl. by rewrite E.
Qed.

Lemma basic_make_trip_total i p :
  valid_origin_nodes node_ids outgoing_links ≠ [] →
  0 ≤ max_start_time →
  ∃ fuel t p',
    Basic.make_trip fuel node_ids outgoing_links
      (valid_origin_nodes node_ids outgoing_links) max_start_time i (Rng f p)
    = Ret (t, Rng f p').
Proof.
  intros Hv Hmax.
  destruct (choice_total _ (Rng f p) Hv) as (o & Ho & Hin).
  apply valid_origin_nodes_spec in Hin as [Hon Hvo].
  apply valid_origin_links in Hvo as (l & ls & Hl).
  destruct (choice_total (l :: ls) (advance (Rng f p))) as (lk & Hlk & _);
    [done|].
  assert (Hne : node_ids ≠ []) by (intros E; rewrite E in Hon; by apply elem_of_nil in Hon).
  destruct (choice_total node_ids (advance (advance (Rng f p))) Hne)
    as (d0 & Hd0 & _).
  destruct (fair (S (S (S p))) o) as (q & d1 & g1 & Hq & Hc & Hd1).
  destruct (basic_redraw_total o (q - S (S (S p))) (S (S (S p))) d0 q)
    as (fuel & d & p' & Hr); [lia|eauto|].
  destruct (randint_total 0 max_start_time (Rng f p') Hmax) as (s & Hs & _).
  exists fuel. eexists. exists (S p').
  unfold Basic.make_trip.
  erewrite bind_Ret_intro by exact Ho.
  erewrite bind_Ret_intro by (unfold dict_getitem; rewrite Hl; reflexivity).
  erewrite bind_Ret_intro by exact Hlk.
  erewrite bind_Ret_intro by exact Hd0.
  erewrite bind_Ret_intro by exact Hr.
  erewrite bind_Ret_intro by exact Hs.
  reflexivity.
Qed.

Lemma basic_write_loop_total indices :
  valid_origin_nodes node_ids outgoing_links ≠ [] →
  0 ≤ max_start_time →
  ∀ written p, ∃ fuel w p',
    write_loop (Basic.make_trip fuel node_ids outgoing_links
                  (valid_origin_nodes node_ids outgoing_links) max_start_time)
               indices written (Rng f p)
    = (w, Ret (Rng f p')).
Proof.
  intros Hv Hmax.
  induction indices as [|i rest IH]; intros written p.
  - exists 0%nat, written, p. done.
  - destruct (basic_make_trip_total i p Hv Hmax) as (fuel1 & t & p1 & H1).
    destruct (IH (written ++ [t]) p1) as (fuel2 & w & p' & H2).
    exists (fuel1 `max` fuel2)%nat, w, p'. simpl.
    rewrite (basic_make_trip_mono fuel1 _ _ i _ _ (Nat.le_max_l _ _) H1).
    eapply write_loop_mono; [|exact H2].
    intros j g r. apply basic_make_trip_mono, Nat.le_max_r.
Qed.

End Fair.

End BasicGenerator.

(** ** The start-time pool of the segmented generator *)

Section StartTimePool.

Variable num_trips : Z.
Variable max_time : Z.

(** [t] lies in the bounds of slot [s] once its end is clipped. *)
Local Abbreviation in_slot s t :=
  (Segmented.start_sec s ≤ t ≤ Z.min (Segmented.end_sec s) max_time).

Lemma draw_times_Ret n lo hi : ∀ acc g acc' g',
  Segmented.draw_times n lo hi acc g = Ret (acc', g') →
  ∃ xs, acc' = acc ++ xs ∧ length xs = n ∧ Forall (λ t, lo ≤ t ≤ hi) xs.
Proof.
  induction n as [|n IH]; intros acc g acc' g'; simpl.
  - intros [= <- <-]. exists []. by rewrite app_nil_r.
  - intros H. bind_inv H. apply randint_Ret in Hm as [Ht ->].
    apply IH in H as (xs & -> & Hlen & HF).
    exists (a :: xs). rewrite <- app_assoc. simpl.
    split; [done|]. split; [by rewrite Hlen|by constructor].
Qed.

Lemma draw_times_total n lo hi : ∀ acc g,
  n = 0%nat ∨ lo ≤ hi →
  ∃ acc' g', Segmented.draw_times n lo hi acc g = Ret (acc', g').
Proof.
  induction n as [|n IH]; intros acc g Hn; simpl.
  - by eexists _, _.
  - destruct Hn as [|Hle]; [done|].
    destruct (randint_total lo hi g Hle) as (t & Ht & _).
    erewrite bind_Ret_intro by exact Ht. apply IH. by right.
Qed.

Lemma draw_times_not_OutOfFuel n lo hi : ∀ acc g,
  Segmented.draw_times n lo hi acc g ≠ OutOfFuel.
Proof.
  induction n as [|n IH]; intros acc g; simpl; [done|].
  unfold Py.bind. destruct (randint lo hi g) as [[t g1]| |] eqn:E; [apply IH|done|].
  unfold randint in E. destruct (hi <? lo); done.
Qed.

(** A slot that is useless and is given a positive quota makes
    [random.randint] fail. *)
Lemma draw_times_empty n lo hi acc g :
  hi < lo → Segmented.draw_times (S n) lo hi acc g = Raise ValueError.
Proof.
  intros H. simpl. unfold Py.bind. by rewrite randint_empty.
Qed.

(** The number of start times of slot [i] of [n]: what is left for the
    last slot, the rounded share for the others. *)
Local Abbreviation quota n i s alloc :=
  (if Z.of_nat i =? Z.of_nat n - 1 then Ret (num_trips - alloc)
   else Segmented.rounded_share num_trips s).

Lemma quota_step n i s alloc g :
  (if Z.of_nat i =? Z.of_nat n - 1 then Py.ret (num_trips - alloc)
   else lift (Segmented.rounded_share num_trips s)) g
  = lift (quota n i s alloc) g.
Proof. by destruct (_ =? _). Qed.

Lemma rounded_share_not_OutOfFuel s :
  Segmented.rounded_share num_trips s ≠ OutOfFuel.
Proof.
  unfold Segmented.rounded_share.
  pose proof (int_times_not_OutOfFuel num_trips (Segmented.percentage s)).
  destruct (int_times _ _) as [x| |]; [|done..]. simpl.
  apply round_float_not_OutOfFuel.
Qed.

Lemma quota_not_OutOfFuel n i s alloc : quota n i s alloc ≠ OutOfFuel.
Proof.
  destruct (_ =? _); [done|]. apply rounded_share_not_OutOfFuel.
Qed.

Lemma allocate_slot_unfold n i s acc alloc g :
  Segmented.allocate_slot num_trips max_time n i s (acc, alloc) g
  = match quota n i s alloc with
    | Ret q =>
        match Segmented.draw_times (Z.to_nat q) (Segmented.start_sec s)
                (Z.min (Segmented.end_sec s) max_time) acc g with
        | Ret (acc', g') => Ret ((acc', alloc + q), g')
        | Raise e => Raise e
        | OutOfFuel => OutOfFuel
        end
    | Raise e => Raise e
    | OutOfFuel => OutOfFuel
    end.
Proof.
  unfold Segmented.allocate_slot, Py.bind. rewrite quota_step.
  destruct (quota n i s alloc) as [q| |]; simpl; [|done..].
  by destruct (Segmented.draw_times _ _ _ _ _) as [[acc' g']| |].
Qed.

Lemma allocate_slot_Ret n i s acc alloc g acc' alloc' g' :
  Segmented.allocate_slot num_trips max_time n i s (acc, alloc) g
  = Ret ((acc', alloc'), g') →
  ∃ chunk, acc' = acc ++ chunk
    ∧ Forall (λ t, in_slot s t) chunk
    ∧ Z.of_nat (length chunk) - (alloc' - alloc) >= 0
    ∧ ((S i = n)%nat → alloc' = num_trips).
Proof.
  rewrite allocate_slot_unfold.
  destruct (quota n i s alloc) as [q| |] eqn:Hq; [|done..].
  destruct (Segmented.draw_times _ _ _ _ _) as [[acc1 g1]| |] eqn:Hm;
    [|done..].
  intros [= <- <- <-].
  apply draw_times_Ret in Hm as (xs & -> & Hlen & HF).
  exists xs. split; [done|]. split; [done|]. split.
  - rewrite Hlen. lia.
  - intros <-. destruct (Z.of_nat i =? Z.of_nat (S i) - 1) eqn:E.
    + injection Hq as <-. lia.
    + apply Z.eqb_neq in E. lia.
Qed.

(** The defect behind C2: a useless slot whose quota is positive raises
    ValueError, whatever the random source. *)
Lemma allocate_slot_useless_raises n i s acc alloc g q :
  max_time < Segmented.start_sec s
  ∨ Z.min (Segmented.end_sec s) max_time < Segmented.start_sec s →
  quota n i s alloc = Ret q →
  0 < q →
  Segmented.allocate_slot num_trips max_time n i s (acc, alloc) g
  = Raise ValueError.
Proof.
  intros Hu Hq Hpos. rewrite allocate_slot_unfold, Hq.
  destruct (Z.to_nat q) as [|k] eqn:Ek; [lia|].
  rewrite draw_times_empty; [done|lia].
Qed.

Lemma allocate_slots_cons n i s rest st :
  Segmented.allocate_slots num_trips max_time n i (s :: rest) st
  = (let* st' := Segmented.allocate_slot num_trips max_time n i s st in
     Segmented.allocate_slots num_trips max_time n (S i) rest st').
Proof. reflexivity. Qed.

Lemma allocate_slots_Ret n slots : ∀ i acc alloc g acc' alloc' g',
  Segmented.allocate_slots num_trips max_time n i slots (acc, alloc) g
  = Ret ((acc', alloc'), g') →
  ∃ chunks, acc' = acc ++ concat chunks
    ∧ Forall2 (λ s chunk, Forall (λ t, in_slot s t) chunk) slots chunks
    ∧ Z.of_nat (length acc) - alloc ≤ Z.of_nat (length acc') - alloc'
    ∧ match slots with
      | [] => alloc' = alloc
      | _ => (i + length slots = n)%nat → alloc' = num_trips
      end.
Proof.
  induction slots as [|s rest IH]; intros i acc alloc g acc' alloc' g'; simpl.
  - intros [= <- <- <-]. exists []. simpl. rewrite app_nil_r.
    repeat split; [constructor|lia].
  - intros H. bind_inv H. destruct a as [acc1 alloc1].
    apply allocate_slot_Ret in Hm as (chunk & -> & HF1 & Hlen1 & Hlast1).
    apply IH in H as (chunks & -> & HF & Hlen & Hlast).
    exists (chunk :: chunks). simpl. rewrite <- app_assoc.
    split; [done|]. split; [by constructor|]. split.
    + rewrite !length_app in *. lia.
    + intros Hn. destruct rest as [|s' rest'].
      * subst alloc'. apply Hlast1. simpl in Hn. lia.
      * apply Hlast. simpl in *. lia.
Qed.

(** Slots that can all be drawn from, with shares whose rounded number
    of trips is an integer, are all given their start times. *)
Lemma allocate_slots_total n slots : ∀ i st g,
  Forall (λ s, Segmented.useless max_time s = false) slots →
  Forall (λ s, ∃ q, Segmented.rounded_share num_trips s = Ret q) slots →
  ∃ st' g', Segmented.allocate_slots num_trips max_time n i slots st g
            = Ret (st', g').
Proof.
  induction slots as [|s rest IH]; intros i [acc alloc] g HF HQ.
  - by eexists _, _.
  - inversion HF as [|? ? Hs Hrest]; subst.
    inversion HQ as [|? ? [q0 Hq0] HQrest]; subst.
    unfold Segmented.useless in Hs. apply orb_false_iff in Hs as [_ Hs].
    apply Z.ltb_ge in Hs.
    rewrite allocate_slots_cons.
    assert (∃ q, quota n i s alloc = Ret q) as [q Hq].
    { destruct (_ =? _); eauto. }
    destruct (draw_times_total (Z.to_nat q) (Segmented.start_sec s)
                (Z.min (Segmented.end_sec s) max_time) acc g)
      as (acc1 & g1 & E); [by right|].
    erewrite bind_Ret_intro.
    2:{ rewrite allocate_slot_unfold, Hq, E. reflexivity. }
    by apply IH.
Qed.

Lemma allocate_slot_not_OutOfFuel n i s st g :
  Segmented.allocate_slot num_trips max_time n i s st g ≠ OutOfFuel.
Proof.
  destruct st as [acc alloc]. rewrite allocate_slot_unfold.
  pose proof (quota_not_OutOfFuel n i s alloc).
  destruct (quota n i s alloc) as [q| |]; [|done..].
  pose proof (draw_times_not_OutOfFuel (Z.to_nat q) (Segmented.start_sec s)
                (Z.min (Segmented.end_sec s) max_time) acc g) as Hnt.
  by destruct (Segmented.draw_times _ _ _ _ _) as [[? ?]| |].
Qed.

Lemma allocate_slots_not_OutOfFuel n slots : ∀ i st g,
  Segmented.allocate_slots num_trips max_time n i slots st g ≠ OutOfFuel.
Proof.
  induction slots as [|s rest IH]; intros i st g; [done|].
  rewrite allocate_slots_cons. unfold Py.bind at 1.
  pose proof (allocate_slot_not_OutOfFuel n i s st g) as Hnt.
  destruct (Segmented.allocate_slot _ _ _ _ _ _ _) as [[st1 g1]| |];
    [apply IH|done|done].
Qed.

(** The slot the refill loop draws from is a slot of the list, and it is
    not useless. *)
Lemma target_slot_Some slots lo hi :
  Segmented.target_slot_for_remainder max_time slots = Some (lo, hi) →
  ∃ s, s ∈ slots ∧ lo = Segmented.start_sec s
       ∧ hi = Z.min (Segmented.end_sec s) max_time ∧ lo ≤ hi.
Proof.
  unfold Segmented.target_slot_for_remainder.
  destruct (find _ _) as [s|] eqn:E; [|done].
  apply find_some in E as [Hin Hs]. intros [= <- <-].
  exists s. apply andb_true_iff in Hs as [Hs _]. apply Z.leb_le in Hs.
  split; [|done]. apply list_elem_of_In. by apply in_rev.
Qed.

Lemma refill_Ret fuel slots : ∀ acc g acc' g',
  Segmented.refill fuel num_trips max_time slots acc g = Ret (acc', g') →
  ∃ xs, acc' = acc ++ xs
    ∧ Forall (λ t, (∃ s, s ∈ slots ∧ in_slot s t)
                   ∨ (Segmented.target_slot_for_remainder max_time slots = None
                      ∧ 0 ≤ t ≤ max_time)) xs
    ∧ Z.of_nat (length acc') = Z.max (Z.of_nat (length acc)) num_trips.
Proof.
  induction fuel as [|fuel IH]; intros acc g acc' g'; simpl;
    destruct (Z.of_nat (length acc) <? num_trips) eqn:E; try done.
  - intros [= <- <-]. exists []. rewrite app_nil_r. apply Z.ltb_ge in E.
    split; [done|]. split; [constructor|lia].
  - apply Z.ltb_lt in E.
    destruct (Segmented.target_slot_for_remainder max_time slots)
      as [[lo hi]|] eqn:Et.
    + intros H. bind_inv H. apply randint_Ret in Hm as [Ht ->].
      apply target_slot_Some in Et as (s & Hs & -> & -> & _).
      apply IH in H as (xs & -> & HF & Hlen).
      exists (a :: xs). rewrite <- app_assoc. split; [done|]. split.
      * constructor; [left; eauto|done].
      * rewrite !length_app in *. simpl in *. lia.
    + intros H. bind_inv H. apply randint_Ret in Hm as [Ht ->].
      destruct (num_trips <=? Z.of_nat (length (acc ++ [a]))) eqn:E2.
      * unfold Py.ret in H. injection H as <- <-.
        exists [a]. split; [done|]. split; [constructor; [by right|done]|].
        apply Z.leb_le in E2. rewrite !length_app in *. simpl in *. lia.
      * apply IH in H as (xs & -> & HF & Hlen).
        exists (a :: xs). rewrite <- app_assoc. split; [done|]. split.
        -- constructor; [by right|done].
        -- rewrite !length_app in *. simpl in *. lia.
  - intros [= <- <-]. exists []. rewrite app_nil_r. apply Z.ltb_ge in E.
    split; [done|]. split; [constructor|lia].
Qed.

(** The refill loop ends: it appends one start time per iteration. *)
Lemma refill_not_OutOfFuel fuel slots : ∀ acc g,
  num_trips - Z.of_nat (length acc) ≤ Z.of_nat fuel →
  Segmented.refill fuel num_trips max_time slots acc g ≠ OutOfFuel.
Proof.
  induction fuel as [|fuel IH]; intros acc g Hf; simpl;
    destruct (Z.of_nat (length acc) <? num_trips) eqn:E; try done.
  - apply Z.ltb_lt in E. lia.
  - apply Z.ltb_lt in E.
    assert (Hnext : ∀ t, num_trips - Z.of_nat (length (acc ++ [t])) ≤ Z.of_nat fuel)
      by (intros t; rewrite length_app; simpl; lia).
    destruct (Segmented.target_slot_for_remainder max_time slots)
      as [[lo hi]|]; unfold Py.bind.
    + destruct (randint lo hi g) as [[t g1]| |] eqn:Er; [by apply IH|done|].
      unfold randint in Er. by destruct (hi <? lo).
    + destruct (randint 0 max_time g) as [[t g1]| |] eqn:Er; [|done|].
      * destruct (num_trips <=? _); [done|by apply IH].
      * unfold randint in Er. by destruct (max_time <? 0).
Qed.

Lemma refill_full fuel slots acc g :
  num_trips ≤ Z.of_nat (length acc) →
  Segmented.refill fuel num_trips max_time slots acc g = Ret (acc, g).
Proof.
  intros H. apply Z.ltb_ge in H. destruct fuel; simpl; by rewrite H.
Qed.

Lemma slice_to_length {A} (l : list A) :
  0 ≤ num_trips → num_trips ≤ Z.of_nat (length l) →
  length (slice_to num_trips l) = Z.to_nat num_trips.
Proof.
  intros H0 H. unfold slice_to.
  destruct (0 <=? num_trips) eqn:E; [|apply Z.leb_gt in E; lia].
  rewrite length_take. lia.
Qed.

Lemma slice_to_Forall {A} (P : A → Prop) (l : list A) :
  Forall P l → Forall P (slice_to num_trips l).
Proof.
  intros H. unfold slice_to. destruct (0 <=? num_trips); by apply Forall_take.
Qed.

Lemma chunks_in_slots slots chunks :
  Forall2 (λ s chunk, Forall (λ t, in_slot s t) chunk) slots chunks →
  Forall (λ t, ∃ s, s ∈ slots ∧ in_slot s t) (concat chunks).
Proof.
  induction 1 as [|s c ss cs Hc _ IH]; simpl; [constructor|].
  apply Forall_app. split.
  - eapply Forall_impl; [exact Hc|]. intros t Ht. exists s.
    split; [by left|done].
  - eapply Forall_impl; [exact IH|]. intros t (s' & Hs' & Ht).
    exists s'. split; [by right|done].
Qed.

(** What the pool holds when step 1 returns: start times of the slots (or
    of [0, max_time] when no slot can be used), exactly [num_trips] of
    them when there is a slot. *)
Lemma start_time_pool_Ret slots g pool g' :
  Segmented.start_time_pool num_trips max_time slots g = Ret (pool, g') →
  Forall (λ t, (∃ s, s ∈ slots ∧ in_slot s t)
               ∨ (Segmented.target_slot_for_remainder max_time slots = None
                  ∧ 0 ≤ t ≤ max_time)) pool
  ∧ (0 ≤ num_trips → length pool = Z.to_nat num_trips).
Proof.
  unfold Segmented.start_time_pool. intros H.
  bind_inv H. destruct a as [acc alloc].
  apply allocate_slots_Ret in Hm as (chunks & -> & HF & Hlen & Hlast).
  bind_inv H. apply refill_Ret in Hm as (xs & -> & HFx & Hlen2).
  unfold Py.ret in H. injection H as <- <-. split.
  - apply slice_to_Forall, Forall_app. split; [|done]. simpl.
    eapply Forall_impl; [by apply chunks_in_slots|]. intros t Ht. by left.
  - intros HN. apply slice_to_length; [done|]. simpl in *. rewrite Hlen2. lia.
Qed.

Lemma start_time_pool_total slots g :
  slots ≠ [] →
  Forall (λ s, Segmented.useless max_time s = false) slots →
  Forall (λ s, ∃ q, Segmented.rounded_share num_trips s = Ret q) slots →
  ∃ pool g', Segmented.start_time_pool num_trips max_time slots g
             = Ret (pool, g').
Proof.
  intros Hne HF HQ. unfold Segmented.start_time_pool.
  destruct (allocate_slots_total (length slots) slots 0 ([], 0) g HF HQ)
    as ([acc alloc] & g1 & E).
  erewrite bind_Ret_intro by exact E.
  apply allocate_slots_Ret in E as (chunks & -> & _ & Hlen & Hlast).
  destruct slots as [|s rest]; [done|].
  specialize (Hlast eq_refl). simpl in Hlen.
  erewrite bind_Ret_intro by (apply refill_full; simpl; lia).
  by eexists _, _.
Qed.

(** The fuel given to the refill loop is enough: step 1 never stays in a
    loop. *)
Lemma start_time_pool_not_OutOfFuel slots g :
  Segmented.start_time_pool num_trips max_time slots g ≠ OutOfFuel.
Proof.
  unfold Segmented.start_time_pool, Py.bind.
  pose proof (allocate_slots_not_OutOfFuel (length slots) slots 0 ([], 0) g).
  destruct (Segmented.allocate_slots _ _ _ _ _ _ _) as [[[acc alloc] g1]| |];
    [|done..].
  pose proof (refill_not_OutOfFuel (Z.to_nat num_trips) slots acc g1) as Hr.
  destruct (Segmented.refill _ _ _ _ _ _) as [[acc' g2]| |]; [done..|].
  intros _. apply Hr; [lia|done].
Qed.

End StartTimePool.

(** ** Shuffling and the origin = destination flags *)

Section Flags.

Lemma swap_Permutation {A} (x : list A) i j : swap x i j ≡ₚ x.
Proof.
  unfold swap.
  destruct (x !! i) as [xi|] eqn:Ei; [|done].
  destruct (x !! j) as [xj|] eqn:Ej; [|done].
  pose proof (lookup_lt_Some _ _ _ Ei) as Hi.
  pose proof (lookup_lt_Some _ _ _ Ej) as Hj.
  apply Permutation_inj. split; [by rewrite !length_insert|].
  exists (λ n, if decide (n = i) then j else if decide (n = j) then i else n).
  split.
  - intros a b. repeat case_decide; congruence.
  - intros n. repeat case_decide; subst.
    + rewrite list_lookup_insert_eq by (by rewrite length_insert). done.
    + rewrite list_lookup_insert_ne by done.
      rewrite list_lookup_insert_eq by done. done.
    + by rewrite !list_lookup_insert_ne by done.
Qed.

Lemma shuffle_from_Ret {A} i : ∀ (x : list A) g,
  ∃ y g', shuffle_from i x g = Ret (y, g') ∧ y ≡ₚ x.
Proof.
  induction i as [|i IH]; intros x g.
  - by exists x, g.
  - cbn [shuffle_from]. unfold Py.bind, randbelow.
    destruct (IH (swap x (S i) (oracle g (cursor g) `mod` S (S i)))
                 (Rng (oracle g) (S (cursor g)))) as (y & g' & E & HP).
    exists y, g'. split; [exact E|].
    by rewrite HP, swap_Permutation.
Qed.

(** [random.shuffle] returns, with a permutation of its argument. *)
Lemma shuffle_Ret {A} (x : list A) g :
  ∃ y g', shuffle x g = Ret (y, g') ∧ y ≡ₚ x.
Proof. apply shuffle_from_Ret. Qed.

Lemma count_occ_flags n m :
  count_occ bool_dec (replicate n true ++ replicate m false) true = n.
Proof.
  rewrite count_occ_app.
  assert (H1 : ∀ k, count_occ bool_dec (replicate k true) true = k).
  { induction k as [|k IH]; simpl; [done|]. by rewrite IH. }
  assert (H2 : ∀ k, count_occ bool_dec (replicate k false) true = 0%nat).
  { induction k as [|k IH]; simpl; done. }
  rewrite H1, H2. lia.
Qed.

(** Step 2 returns as many flags as asked, [target] of them set. *)
Lemma od_equal_flags_Ret num_trips pct target g :
  Segmented.target_od_equal_trips num_trips pct = Ret target →
  ∃ flags g',
    Segmented.od_equal_flags num_trips pct g = Ret (flags, g')
    ∧ count_occ bool_dec flags true = Z.to_nat target
    ∧ length flags
      = (Z.to_nat target + Z.to_nat (num_trips - target))%nat.
Proof.
  intros Ht. unfold Segmented.od_equal_flags, Py.bind. rewrite Ht. simpl.
  destruct (shuffle_Ret
              (replicate (Z.to_nat target) true
               ++ replicate (Z.to_nat (num_trips - target)) false) g)
    as (y & g' & E & HP).
  exists y, g'. split; [exact E|]. split.
  - rewrite (proj1 (Permutation_count_occ bool_dec _ _) HP).
    apply count_occ_flags.
  - rewrite (Permutation_length HP), length_app, !length_replicate. done.
Qed.

(** Step 2 raises what the product or its conversion raises. *)
Lemma od_equal_flags_inv num_trips pct g flags g' :
  Segmented.od_equal_flags num_trips pct g = Ret (flags, g') →
  ∃ target,
    Segmented.target_od_equal_trips num_trips pct = Ret target
    ∧ count_occ bool_dec flags true = Z.to_nat target
    ∧ length flags
      = (Z.to_nat target + Z.to_nat (num_trips - target))%nat.
Proof.
  intros H.
  destruct (Segmented.target_od_equal_trips num_trips pct) as [target| |]
    eqn:Ht.
  - destruct (od_equal_flags_Ret num_trips pct target g Ht)
      as (flags1 & g1 & E & Hc & Hl).
    rewrite E in H. injection H as <- <-. eauto.
  - unfold Segmented.od_equal_flags, Py.bind in H. by rewrite Ht in H.
  - unfold Segmented.od_equal_flags, Py.bind in H. by rewrite Ht in H.
Qed.

Lemma target_not_OutOfFuel num_trips pct :
  Segmented.target_od_equal_trips num_trips pct ≠ OutOfFuel.
Proof.
  unfold Segmented.target_od_equal_trips.
  pose proof (int_times_not_OutOfFuel num_trips pct).
  destruct (int_times _ _) as [x| |]; [|done..]. simpl.
  apply int_float_not_OutOfFuel.
Qed.

Lemma od_equal_flags_not_OutOfFuel num_trips pct g :
  Segmented.od_equal_flags num_trips pct g ≠ OutOfFuel.
Proof.
  destruct (Segmented.target_od_equal_trips num_trips pct) as [target| |]
    eqn:Ht.
  - destruct (od_equal_flags_Ret num_trips pct target g Ht)
      as (flags1 & g1 & E & _). by rewrite E.
  - unfold Segmented.od_equal_flags, Py.bind. by rewrite Ht.
  - by apply target_not_OutOfFuel in Ht.
Qed.

(** [int(n * f)] for at most 2^53 trips and a float [f] between 0 and 1:
    the product is rounded to a float [v], and its integer part is the
    floor of the exact product, or one more when the rounding reaches the
    next integer. *)
Lemma target_Ret num_trips (pct : Q) :
  0 ≤ num_trips ≤ 2 ^ 53 → (0 <= pct <= 1)%Q →
  ∃ v, round64 (inject_Z num_trips * pct) = Some v
    ∧ Segmented.target_od_equal_trips num_trips (Finite pct) = Ret (int_of v)
    ∧ 0 ≤ int_of v ≤ num_trips
    ∧ Qfloor (inject_Z num_trips * pct) ≤ int_of v
      ≤ Qfloor (inject_Z num_trips * pct) + 1.
Proof.
  intros HN Hp.
  destruct (int_times_share num_trips pct HN Hp) as (v & Ht & Hv & Hv0 & Hv1).
  exists v. split; [done|]. split.
  { unfold Segmented.target_od_equal_trips. by rewrite Ht. }
  assert (Hup : int_of v ≤ num_trips).
  { rewrite <- (int_of_inject_Z num_trips). by apply int_of_mono. }
  split; [split; [by apply int_of_nonneg|done]|].
  set (x := (inject_Z num_trips * pct)%Q) in *.
  assert (Hx0 : (0 <= x)%Q).
  { apply Qmult_le_0_compat; [apply inject_Z_nonneg; lia|tauto]. }
  assert (Hk0 : 0 ≤ Qfloor x).
  { change 0 with (Qfloor 0). by apply Qfloor_resp_le. }
  assert (HkN : Qfloor x ≤ num_trips).
  { rewrite <- (Qfloor_Z num_trips). apply Qfloor_resp_le.
    unfold x. destruct Hp as [Hp0 Hp1].
    pose proof (Qmult_le_compat_r pct 1 (inject_Z num_trips) Hp1) as Hm.
    assert (0 <= inject_Z num_trips)%Q by (apply inject_Z_nonneg; lia).
    specialize (Hm ltac:(done)). lra. }
  split.
  - rewrite <- (int_of_inject_Z (Qfloor x)).
    apply int_of_mono; [by apply inject_Z_nonneg|].
    eapply round64_mono; [apply (Qfloor_le x)| |exact Hv].
    apply round64_Z. lia.
  - destruct (decide (Qfloor x + 1 ≤ 2 ^ 53)) as [Hsmall|Hbig]; [|lia].
    rewrite <- (int_of_inject_Z (Qfloor x + 1)).
    apply int_of_mono; [done|].
    eapply round64_mono; [|exact Hv|apply round64_Z; lia].
    apply Qlt_le_weak, Qlt_floor.
Qed.

(** The rounded share of at most 2^53 trips is a number of trips. *)
Lemma rounded_share_proper num_trips s :
  0 ≤ num_trips ≤ 2 ^ 53 → Segmented.proper_share s →
  ∃ k, Segmented.rounded_share num_trips s = Ret k ∧ 0 ≤ k ≤ num_trips.
Proof.
  intros HN (q & Hq & Hq0 & Hq1). unfold Segmented.rounded_share.
  rewrite Hq.
  destruct (int_times_share num_trips q HN (conj Hq0 Hq1))
    as (v & Ht & _ & Hv0 & Hv1).
  rewrite Ht. cbn [rbind round_float]. exists (round v).
  split; [done|]. split; [by apply round_nonneg|by apply round_le_Z].
Qed.

Lemma rounded_shares_proper num_trips (slots : list Segmented.slot) :
  0 ≤ num_trips ≤ 2 ^ 53 → Forall Segmented.proper_share slots →
  Forall (λ s, ∃ q, Segmented.rounded_share num_trips s = Ret q) slots.
Proof.
  intros HN HF. eapply Forall_impl; [exact HF|]. intros s Hs.
  destruct (rounded_share_proper num_trips s HN Hs) as (k & Hk & _). eauto.
Qed.

End Flags.

(** ** Destination selection and the trips of the segmented generator *)

Section SegmentedGenerator.

Variable node_ids : list string.
Variable outgoing_links : gmap string (list string).

Lemma retry_Ret k o : ∀ d g d' g',
  Segmented.retry k node_ids o d g = Ret (d', g') →
  oracle g' = oracle g
  ∧ (cursor g ≤ cursor g' ≤ cursor g + k)%nat
  ∧ (d' = d ∨ d' ∈ node_ids).
Proof.
  induction k as [|k IH]; intros d g d' g'; simpl;
    destruct (String.eqb d o); try (intros [= <- <-]; split_and!; by auto with lia).
  intros H. bind_inv H. apply choice_Ret in Hm as [Hin ->].
  apply IH in H as (Ho & Hc & Hd). simpl in *.
  split_and!; [done|lia|lia|]. destruct Hd as [->|?]; auto.
Qed.

Lemma retry_total k o : node_ids ≠ [] → ∀ d g,
  ∃ d' g', Segmented.retry k node_ids o d g = Ret (d', g').
Proof.
  intros Hne. induction k as [|k IH]; intros d g; simpl;
    destruct (String.eqb d o); try by eexists _, _.
  destruct (choice_total node_ids g Hne) as (d1 & Hd1 & _).
  erewrite bind_Ret_intro by exact Hd1. apply IH.
Qed.

Lemma other_nodes_spec o n :
  n ∈ List.filter (λ n, negb (String.eqb n o)) node_ids ↔ n ∈ node_ids ∧ n ≠ o.
Proof.
  rewrite !list_elem_of_In, filter_In, negb_true_iff, String.eqb_neq. done.
Qed.

(** The steps of the destination choice for a trip that is not forced to
    end at its origin. *)
Lemma select_destination_steps o g :
  node_ids ≠ [] →
  ∃ d0 g0 d1 g1 d g',
    choice node_ids g = Ret (d0, g0)
    ∧ Segmented.retry (length node_ids + 5) node_ids o d0 g0 = Ret (d1, g1)
    ∧ Segmented.select_destination node_ids o false false g = Ret (d, g')
    ∧ (d1 ≠ o → d = d1 ∧ g' = g1)
    ∧ (d1 = o →
       match List.filter (λ n, negb (String.eqb n o)) node_ids with
       | [] => d = o ∧ g' = g1
       | other_nodes => choice other_nodes g1 = Ret (d, g')
       end).
Proof.
  intros Hne.
  destruct (choice_total node_ids g Hne) as (d0 & Hd0 & _).
  destruct (retry_total (length node_ids + 5) o Hne d0 (advance g))
    as (d1 & g1 & Hr).
  unfold Segmented.select_destination. simpl.
  erewrite bind_Ret_intro by exact Hd0.
  erewrite bind_Ret_intro by exact Hr.
  destruct (String.eqb d1 o) eqn:E.
  - apply String.eqb_eq in E as ->.
    destruct (List.filter (λ n, negb (String.eqb n o)) node_ids)
      as [|n others] eqn:Ef; simpl.
    + exists d0, (advance g), o, g1, o, g1. by split_and!.
    + destruct (choice_total (n :: others) g1) as (d & Hd & _); [done|].
      exists d0, (advance g), o, g1, d, (advance g1). by split_and!.
  - apply String.eqb_neq in E.
    exists d0, (advance g), d1, g1, d1, g1. by split_and!.
Qed.

Lemma select_destination_Ret o flag single g d g' :
  Segmented.select_destination node_ids o flag single g = Ret (d, g') →
  oracle g' = oracle g
  ∧ (cursor g ≤ cursor g' ≤ cursor g + (length node_ids + 7))%nat
  ∧ (d = o ∨ d ∈ node_ids)
  ∧ (flag || single = true → d = o)
  ∧ (flag || single = false → (∃ n, n ∈ node_ids ∧ n ≠ o) → d ≠ o).
Proof.
  unfold Segmented.select_destination.
  destruct (flag || single).
  { intros [= <- <-]. split_and!; try done; auto with lia. }
  intros H. bind_inv H. apply choice_Ret in Hm as [Hin0 ->].
  bind_inv H. apply retry_Ret in Hm as (Ho & Hc & Hd1).
  simpl in Ho, Hc.
  destruct (String.eqb a0 o) eqn:E.
  - apply String.eqb_eq in E as ->.
    destruct (List.filter (λ n, negb (String.eqb n o)) node_ids)
      as [|n others] eqn:Ef; cbn [nonempty_list] in H.
    + injection H as <- <-. split_and!; try done; auto with lia.
      intros _ (n & Hn & Hne).
      assert (n ∈ List.filter (λ n, negb (String.eqb n o)) node_ids)
        by by apply other_nodes_spec.
      rewrite Ef in *. by apply elem_of_nil in H.
    + apply choice_Ret in H as [Hin ->].
      rewrite <- Ef in Hin. apply other_nodes_spec in Hin as [Hin Hne].
      simpl. split_and!; try done; auto with lia.
  - apply String.eqb_neq in E. injection H as <- <-.
    split_and!; try done; auto with lia.
    destruct Hd1 as [->|?]; auto.
Qed.

Lemma select_destination_total o flag single g :
  node_ids ≠ [] →
  ∃ d g', Segmented.select_destination node_ids o flag single g = Ret (d, g').
Proof.
  intros Hne. destruct (flag || single) eqn:E.
  - unfold Segmented.select_destination. rewrite E. by eexists _, _.
  - apply orb_false_iff in E as [-> ->].
    destruct (select_destination_steps o g Hne)
      as (?&?&?&?& d & g' & _ & _ & H & _). eauto.
Qed.

Variable single : bool.
Variable pool : list Z.
Variable flags : list bool.

Local Abbreviation valid := (valid_origin_nodes node_ids outgoing_links).
Local Abbreviation body :=
  (Segmented.make_trip node_ids outgoing_links valid single pool flags).

Lemma segmented_make_trip_Ret i g t g' :
  body i g = Ret (t, g') →
  origin_ok node_ids outgoing_links t
  ∧ pool !! Z.to_nat i = Some (start t)
  ∧ (∃ b, flags !! Z.to_nat i = Some b
          ∧ (b || single = true → destination t = origin t)
          ∧ (b || single = false → (∃ n, n ∈ node_ids ∧ n ≠ origin t) →
             destination t ≠ origin t))
  ∧ name t = "trip_" +:+ pretty (i + 1).
Proof.
  unfold Segmented.make_trip. intros H.
  bind_inv H. apply list_getitem_Ret in Hm as [Hs ->].
  bind_inv H. apply list_getitem_Ret in Hm as [Hf ->].
  bind_inv H. apply choice_Ret in Hm as [Ho ->].
  bind_inv H. apply dict_getitem_Ret in Hm as [Hl ->].
  bind_inv H. apply choice_Ret in Hm as [Hlk ->].
  bind_inv H. apply select_destination_Ret in Hm as (_ & _ & _ & Heq & Hne).
  unfold Py.ret in H. injection H as <- <-. simpl.
  unfold origin_ok. simpl. split_and!; eauto.
Qed.

Lemma segmented_make_trip_total i g :
  valid ≠ [] →
  (Z.to_nat i < length pool)%nat → (Z.to_nat i < length flags)%nat →
  ∃ t g', body i g = Ret (t, g').
Proof.
  intros Hv Hp Hf.
  apply lookup_lt_is_Some in Hp as [s Hs], Hf as [b Hb].
  destruct (choice_total _ g Hv) as (o & Ho & Hin).
  apply valid_origin_nodes_spec in Hin as [Hon Hvo].
  apply valid_origin_links in Hvo as (l & ls & Hl).
  destruct (choice_total (l :: ls) (advance g)) as (lk & Hlk & _); [done|].
  assert (Hne : node_ids ≠ [])
    by (intros E; rewrite E in Hon; by apply elem_of_nil in Hon).
  destruct (select_destination_total o b single (advance (advance g)) Hne)
    as (d & g' & Hd).
  unfold Segmented.make_trip.
  erewrite bind_Ret_intro by (unfold list_getitem; rewrite Hs; reflexivity).
  erewrite bind_Ret_intro by (unfold list_getitem; rewrite Hb; reflexivity).
  erewrite bind_Ret_intro by exact Ho.
  erewrite bind_Ret_intro by (unfold dict_getitem; rewrite Hl; reflexivity).
  erewrite bind_Ret_intro by exact Hlk.
  erewrite bind_Ret_intro by exact Hd.
  by eexists _, _.
Qed.

End SegmentedGenerator.

(** ** Runs of the segmented generator *)

Section SegmentedRuns.

Variable node_ids : list string.
Variable outgoing_links : gmap string (list string).
Variable num_trips max_time : Z.
Variable output_file : io.
Variable slots : list Segmented.slot.
Variable pct : float.

Local Abbreviation valid := (valid_origin_nodes node_ids outgoing_links).
Local Abbreviation single := (Nat.eqb (length node_ids) 1).
Local Abbreviation actual_pct := (if single then Finite 1 else pct).

Lemma nonempty_list_true {A} (l : list A) : l ≠ [] → nonempty_list l = true.
Proof. by destruct l. Qed.

Lemma valid_nonempty_nodes : valid ≠ [] → node_ids ≠ [].
Proof. intros H E. apply H. by rewrite E. Qed.

Lemma range_lt i : i ∈ Py.range num_trips → (Z.to_nat i < Z.to_nat num_trips)%nat.
Proof.
  unfold Py.range. intros (k & -> & Hk)%list_elem_of_fmap.
  apply elem_of_seq in Hk. lia.
Qed.

(** With a valid origin, slots that are all usable, numbers of trips that
    can be computed and a file system that refuses nothing the generator
    returns [True], having written one trip per index. *)
Lemma segmented_run_total target g :
  valid ≠ [] → slots ≠ [] →
  Forall (λ s, Segmented.useless max_time s = false) slots →
  Forall (λ s, ∃ q, Segmented.rounded_share num_trips s = Ret q) slots →
  Segmented.target_od_equal_trips num_trips actual_pct = Ret target →
  0 ≤ target ≤ num_trips →
  accepts output_file (Z.to_nat num_trips) →
  ∃ written pool flags g1 g2 g3,
    Segmented.start_time_pool num_trips max_time slots g = Ret (pool, g1)
    ∧ Segmented.od_equal_flags num_trips actual_pct g1 = Ret (flags, g2)
    ∧ count_occ bool_dec flags true = Z.to_nat target
    ∧ write_loop (Segmented.make_trip node_ids outgoing_links valid single
                    pool flags) (Py.range num_trips) [] g2 = (written, Ret g3)
    ∧ Segmented.generate_and_write_trips_iterative
        node_ids outgoing_links num_trips max_time output_file slots pct g
      = (written, Ret true).
Proof.
  intros Hv Hs Hu HQ Ht Htb Hio.
  assert (HN : 0 ≤ num_trips) by lia.
  destruct (start_time_pool_total num_trips max_time slots g Hs Hu HQ)
    as (pool & g1 & Ep).
  destruct (od_equal_flags_Ret num_trips actual_pct target g1 Ht)
    as (flags & g2 & Ef & Hcount & Hlen).
  apply start_time_pool_Ret in Ep as Hpool. destruct Hpool as [_ Hplen].
  specialize (Hplen HN).
  destruct (write_loop_total
              (Segmented.make_trip node_ids outgoing_links valid single pool flags)
              (Py.range num_trips)) with (written := @nil trip) (g := g2)
    as (w & g3 & Ew).
  { intros i g' Hi%range_lt.
    apply segmented_make_trip_total; [done|lia|lia]. }
  exists w, pool, flags, g1, g2, g3. split_and!; try done.
  unfold Segmented.generate_and_write_trips_iterative.
  rewrite (nonempty_list_true _ (valid_nonempty_nodes Hv)),
          (nonempty_list_true _ Hv). simpl.
  unfold Py.bind at 1. rewrite Ep. unfold Py.bind. rewrite Ef.
  unfold Py.ret.
  rewrite write_file_accepts
    by (done || apply length_range || apply segmented_indices).
  by rewrite Ew.
Qed.

(** Trip [k] of the output carries start time [k] of the pool and obeys
    flag [k], also when the loop stops early. *)
Lemma segmented_written_prefix (sg : bool) pool flags n g2 written lr k t :
  write_loop (Segmented.make_trip node_ids outgoing_links valid sg
                pool flags) (take n (Py.range num_trips)) [] g2
  = (written, lr) →
  written !! k = Some t →
  origin_ok node_ids outgoing_links t
  ∧ pool !! k = Some (start t)
  ∧ ∃ b, flags !! k = Some b
         ∧ (b || sg = true → destination t = origin t)
         ∧ (b || sg = false → (∃ n, n ∈ node_ids ∧ n ≠ origin t) →
            destination t ≠ origin t).
Proof.
  intros Hw Hk. apply write_loop_spec in Hw as (new & -> & HF & _).
  simpl in Hk.
  destruct (Forall2_lookup_r _ _ _ _ _ HF Hk) as (i & Hi & (g & g' & Hb)).
  apply lookup_take_Some in Hi as [Hi _].
  apply lookup_take_Some in Hi as [Hi _].
  unfold Py.range in Hi. apply list_lookup_fmap_Some in Hi as (k' & -> & Hk').
  apply lookup_seq in Hk' as [-> _]. simpl in Hb.
  apply segmented_make_trip_Ret in Hb as (Hok & Hp & Hf & _).
  rewrite Nat2Z.id in Hp, Hf. done.
Qed.

Lemma segmented_written_lookup (sg : bool) pool flags g2 written lr k t :
  write_loop (Segmented.make_trip node_ids outgoing_links valid sg
                pool flags) (Py.range num_trips) [] g2 = (written, lr) →
  written !! k = Some t →
  origin_ok node_ids outgoing_links t
  ∧ pool !! k = Some (start t)
  ∧ ∃ b, flags !! k = Some b
         ∧ (b || sg = true → destination t = origin t)
         ∧ (b || sg = false → (∃ n, n ∈ node_ids ∧ n ≠ origin t) →
            destination t ≠ origin t).
Proof.
  intros Hw. eapply (segmented_written_prefix _ _ _ (length (Py.range num_trips))).
  by rewrite firstn_all.
Qed.

(** The same for the trips in the file, whatever the file system does. *)
Lemma segmented_file_lookup (sg : bool) pool flags n g2 written lr k t :
  with_open output_file n
    (write_loop
       (write_trip output_file 3
          (Segmented.make_trip node_ids outgoing_links valid sg pool flags))
       (Py.range num_trips) []) g2
  = (written, lr) →
  written !! k = Some t →
  origin_ok node_ids outgoing_links t
  ∧ pool !! k = Some (start t)
  ∧ ∃ b, flags !! k = Some b
         ∧ (b || sg = true → destination t = origin t)
         ∧ (b || sg = false → (∃ n, n ∈ node_ids ∧ n ≠ origin t) →
            destination t ≠ origin t).
Proof.
  intros Hw Hk. apply with_open_inv in Hw as [[-> _]|(r0 & Hw & _)]; [done|].
  apply write_loop_through_io in Hw as (j & r1 & Hw & _).
  by eapply segmented_written_prefix.
Qed.

End SegmentedRuns.

(** ** Grouping, sorting and naming *)

Section Grouping.

Implicit Types (m : list (Group.trip_key * Group.group)).
Implicit Types (k : Group.trip_key) (raws : list Group.raw_trip).

Local Abbreviation occurrences raws k :=
  (count_occ (@decide_rel _ _ (=) _) (Group.key_of <$> raws) k).

Lemma record_trip_keys k l m :
  (Group.record_trip k l m).*1
  = if decide (k ∈ m.*1) then m.*1 else m.*1 ++ [k].
Proof.
  induction m as [|[k' v] m IH].
  - by rewrite decide_False by apply not_elem_of_nil.
  - cbn [Group.record_trip].
    destruct (decide (k = k')) as [->|Hne]; rewrite !fmap_cons; cbn [fst].
    + by rewrite decide_True by left.
    + rewrite IH. destruct (decide (k ∈ m.*1)) as [Hin|Hnin].
      * by rewrite decide_True by by right.
      * rewrite decide_False; [done|].
        intros [?|?]%elem_of_cons; done.
Qed.

Lemma record_trip_NoDup k l m :
  NoDup m.*1 → NoDup (Group.record_trip k l m).*1.
Proof.
  intros H. rewrite record_trip_keys. case_decide; [done|].
  apply NoDup_app. split_and!; [done| |apply NoDup_singleton].
  intros x Hx ->%list_elem_of_singleton. done.
Qed.

(** An entry of the map after a trip with key [k] was recorded: an older
    entry of another key, or the entry of [k] with its count raised by
    one, or a new entry of count 1. *)
Lemma record_trip_entry k l m k' v' :
  NoDup m.*1 →
  (k', v') ∈ Group.record_trip k l m →
  (k' ≠ k ∧ (k', v') ∈ m)
  ∨ (k' = k ∧ (∃ v, (k, v) ∈ m ∧ Group.grp_count v' = S (Group.grp_count v)
                    ∧ Group.grp_link_origin v' = Group.grp_link_origin v))
  ∨ (k' = k ∧ (k ∉ m.*1) ∧ v' = Group.Grp 1 l).
Proof.
  induction m as [|[k0 v0] m IH]; simpl; intros Hnd Hin.
  - apply list_elem_of_singleton in Hin as [= -> ->].
    right; right. split_and!; [done|apply not_elem_of_nil|done].
  - apply NoDup_cons in Hnd as [Hk0 Hnd].
    destruct (decide (k = k0)) as [->|Hne].
    + apply elem_of_cons in Hin as [[= -> ->]|Hin].
      * right; left. split; [done|]. exists v0. split_and!; [by left|done..].
      * left. split; [|by right]. intros ->. apply Hk0.
        apply list_elem_of_fmap. by exists (k0, v').
    + apply elem_of_cons in Hin as [[= -> ->]|Hin].
      * left. split; [done|by left].
      * destruct (IH Hnd Hin) as [[? ?]|[[-> (v & ? & ? & ?)]|[-> [? ->]]]].
        -- left. split; [done|by right].
        -- right; left. split; [done|]. exists v. split_and!; [by right|done..].
        -- right; right. split_and!; [done| |done].
           intros [?|?]%elem_of_cons; done.
Qed.

Lemma record_trip_sum k l m :
  sum_list_with (λ kv, Group.grp_count kv.2) (Group.record_trip k l m)
  = S (sum_list_with (λ kv, Group.grp_count kv.2) m).
Proof.
  induction m as [|[k' v] m IH]; simpl; [done|].
  destruct (decide (k = k')); simpl; [done|]. rewrite IH. lia.
Qed.

Lemma aggregate_snoc raws r :
  Group.aggregate (raws ++ [r])
  = Group.record_trip (Group.key_of r) (Group.raw_link_origin r)
                      (Group.aggregate raws).
Proof. unfold Group.aggregate. by rewrite foldl_snoc. Qed.

Lemma aggregate_NoDup raws : NoDup (Group.aggregate raws).*1.
Proof.
  induction raws as [|r raws IH] using rev_ind; [constructor|].
  rewrite aggregate_snoc. by apply record_trip_NoDup.
Qed.

Lemma aggregate_keys raws k :
  k ∈ (Group.aggregate raws).*1 ↔ k ∈ Group.key_of <$> raws.
Proof.
  induction raws as [|r raws IH] using rev_ind.
  - simpl. split; intros H; by apply elem_of_nil in H.
  - rewrite aggregate_snoc, record_trip_keys, fmap_app. simpl.
    case_decide; rewrite !elem_of_app, ?list_elem_of_singleton, IH.
    + split; [by left|]. intros [?| ->]; [done|]. by apply IH.
    + done.
Qed.

Lemma aggregate_count raws k v :
  (k, v) ∈ Group.aggregate raws →
  Group.grp_count v = occurrences raws k.
Proof.
  revert k v. induction raws as [|r raws IH] using rev_ind; intros k v Hin.
  - by apply elem_of_nil in Hin.
  - rewrite aggregate_snoc in Hin.
    rewrite fmap_app, count_occ_app. simpl.
    apply record_trip_entry in Hin
      as [[Hne Hin]|[[-> (v0 & Hin & Hc & _)]|[-> [Hnin ->]]]];
      [| | |apply aggregate_NoDup].
    + rewrite (IH _ _ Hin). destruct (decide_rel eq _ _); [done|lia].
    + rewrite Hc, (IH _ _ Hin). destruct (decide_rel eq _ _); [lia|done].
    + destruct (decide_rel eq _ _); [|done]. simpl.
      rewrite aggregate_keys in Hnin.
      rewrite (proj1 (count_occ_not_In _ _ _)); [done|].
      by rewrite <- list_elem_of_In.
Qed.

Lemma aggregate_sum raws :
  sum_list_with (λ kv, Group.grp_count kv.2) (Group.aggregate raws)
  = length raws.
Proof.
  induction raws as [|r raws IH] using rev_ind; [done|].
  rewrite aggregate_snoc, record_trip_sum, IH, length_app. simpl. lia.
Qed.

(** The grouped trip keeps the link of the first trip sampled with its
    key. *)
Lemma aggregate_first_link raws1 r raws2 v :
  Group.key_of r ∉ Group.key_of <$> raws1 →
  (Group.key_of r, v) ∈ Group.aggregate (raws1 ++ r :: raws2) →
  Group.grp_link_origin v = Group.raw_link_origin r.
Proof.
  intros Hfirst. revert v.
  induction raws2 as [|r2 raws2 IH] using rev_ind; intros v Hin.
  - rewrite aggregate_snoc in Hin.
    apply record_trip_entry in Hin
      as [[Hne _]|[[_ (v0 & Hin & _)]|[_ [_ ->]]]];
      [done| |done|apply aggregate_NoDup].
    exfalso. apply Hfirst, aggregate_keys, list_elem_of_fmap.
    by exists (Group.key_of r, v0).
  - rewrite app_comm_cons, app_assoc, aggregate_snoc in Hin.
    apply record_trip_entry in Hin
      as [[_ Hin]|[[Heq (v0 & Hin & _ & Hl)]|[Heq [Hnin _]]]];
      [by apply IH| | |apply aggregate_NoDup].
    + rewrite Hl. apply IH. by rewrite Heq.
    + exfalso. apply Hnin, aggregate_keys.
      rewrite <- Heq, fmap_app, elem_of_app. right. by left.
Qed.

(** *** Sorting *)

Local Abbreviation by_start :=
  (λ a b : Group.processed, Group.p_start a ≤ Group.p_start b).

Lemma insert_by_start_Permutation t l :
  Group.insert_by_start t l ≡ₚ t :: l.
Proof.
  induction l as [|x l IH]; simpl; [done|].
  destruct (Group.p_start t <=? Group.p_start x); [done|].
  by rewrite IH, Permutation_swap.
Qed.

Lemma sort_by_start_Permutation l : Group.sort_by_start l ≡ₚ l.
Proof.
  induction l as [|x l IH]; simpl; [done|].
  by rewrite insert_by_start_Permutation, IH.
Qed.

Lemma insert_by_start_sorted t l :
  StronglySorted by_start l → StronglySorted by_start (Group.insert_by_start t l).
Proof.
  induction 1 as [|x l Hl IH Hx]; simpl.
  - repeat constructor.
  - destruct (Group.p_start t <=? Group.p_start x) eqn:E.
    + apply Z.leb_le in E. constructor; [by constructor|].
      constructor; [done|]. eapply Forall_impl; [exact Hx|].
      simpl. intros; lia.
    + apply Z.leb_gt in E. constructor; [done|].
      rewrite insert_by_start_Permutation. constructor; [lia|done].
Qed.

Lemma sort_by_start_sorted l : StronglySorted by_start (Group.sort_by_start l).
Proof.
  induction l as [|x l IH]; simpl; [constructor|].
  by apply insert_by_start_sorted.
Qed.

Lemma StronglySorted_lookup_le {A} (R : A → A → Prop) (l : list A) i j x y :
  (∀ a, R a a) →
  StronglySorted R l → (i ≤ j)%nat →
  l !! i = Some x → l !! j = Some y → R x y.
Proof.
  intros Hrefl Hs. revert i j.
  induction Hs as [|a l Hl IH Ha]; intros i j Hij Hi Hj.
  - done.
  - destruct i as [|i], j as [|j]; simpl in *; try lia.
    + by simplify_eq.
    + simplify_eq. eapply Forall_forall in Ha; [exact Ha|].
      by eapply list_elem_of_lookup_2.
    + eapply IH; [|done..]. lia.
Qed.

(** *** The final list *)

Lemma final_trips_keys l :
  Group.trip_key_of <$> Group.final_trips_for_xml l
  = (λ p, (Group.p_origin p, Group.p_destination p, Group.p_start p)) <$> l.
Proof.
  unfold Group.final_trips_for_xml. rewrite fmap_imap.
  by rewrite <- imap_const.
Qed.

Lemma processed_keys m :
  (λ p, (Group.p_origin p, Group.p_destination p, Group.p_start p))
    <$> Group.processed_trips_list m = m.*1.
Proof.
  unfold Group.processed_trips_list. rewrite <- list_fmap_compose.
  apply list_fmap_ext. by intros i [[[o d] s] v] _.
Qed.

Lemma finish_keys m : Group.trip_key_of <$> Group.finish m ≡ₚ m.*1.
Proof.
  unfold Group.finish.
  by rewrite final_trips_keys, sort_by_start_Permutation, processed_keys.
Qed.

(** Every output record comes from one entry of the map. *)
Lemma finish_entry m t :
  t ∈ Group.finish m →
  ∃ v, (Group.trip_key_of t, v) ∈ m
       ∧ count t = Group.grp_count v
       ∧ link_origin t = Group.grp_link_origin v.
Proof.
  unfold Group.finish, Group.final_trips_for_xml.
  intros (i & p & -> & Hp)%elem_of_lookup_imap.
  apply list_elem_of_lookup_2 in Hp.
  rewrite sort_by_start_Permutation in Hp.
  unfold Group.processed_trips_list in Hp.
  apply list_elem_of_fmap in Hp as ([[[o d] s] v] & -> & Hin).
  exists v. by split_and!.
Qed.

Lemma sum_count_imap {A} (f : nat → A → trip) (h : A → nat) (l : list A) :
  (∀ i x, count (f i x) = h x) →
  sum_list_with count (imap f l) = sum_list_with h l.
Proof.
  revert f. induction l as [|x l IH]; intros f Hf; simpl; [done|].
  rewrite Hf. f_equal. apply IH. intros i y. apply Hf.
Qed.

Lemma finish_sum m :
  sum_list_with count (Group.finish m)
  = sum_list_with (λ kv, Group.grp_count kv.2) m.
Proof.
  unfold Group.finish, Group.final_trips_for_xml.
  rewrite (sum_count_imap _ Group.p_count) by done.
  rewrite sort_by_start_Permutation.
  induction m as [|[[[o d] s] v] m IH]; simpl; [done|].
  f_equal. exact IH.
Qed.

Lemma finish_sorted m i j ti tj :
  (i ≤ j)%nat →
  Group.finish m !! i = Some ti → Group.finish m !! j = Some tj →
  start ti ≤ start tj.
Proof.
  unfold Group.finish, Group.final_trips_for_xml. intros Hij.
  rewrite !list_lookup_imap.
  destruct (Group.sort_by_start _ !! i) as [pi|] eqn:Ei; [|done].
  destruct (Group.sort_by_start _ !! j) as [pj|] eqn:Ej; [|done].
  simpl. intros [= <-] [= <-]. simpl.
  eapply (StronglySorted_lookup_le by_start); [|apply sort_by_start_sorted|..];
    [intros a; lia|done..].
Qed.

Lemma finish_name m i t :
  Group.finish m !! i = Some t →
  name t = "trip_" +:+ pretty (Z.of_nat i + 1).
Proof.
  unfold Group.finish, Group.final_trips_for_xml.
  rewrite list_lookup_imap.
  destruct (Group.sort_by_start _ !! i); [|done]. by intros [= <-].
Qed.

End Grouping.

(** ** Runs of the grouping generator *)

Section GroupRuns.

Variable node_ids : list string.
Variable outgoing_links : gmap string (list string).
Variable max_start_time : Z.

Lemma group_redraw_Ret fuel : ∀ o d g d' g',
  Group.redraw fuel node_ids o d g = Ret (d', g') →
  (1 < length node_ids)%nat → d' ≠ o.
Proof.
  induction fuel as [|fuel IH]; intros o d g d' g'; simpl;
    destruct ((1 <? length node_ids)%nat && String.eqb d o) eqn:E;
    try done.
  - intros [= <- <-] Hlen.
    apply Nat.ltb_lt in Hlen. rewrite Hlen in E. simpl in E.
    by apply String.eqb_neq.
  - intros H. bind_inv H. exact (IH _ _ _ _ _ H).
  - intros [= <- <-] Hlen.
    apply Nat.ltb_lt in Hlen. rewrite Hlen in E. simpl in E.
    by apply String.eqb_neq.
Qed.

Lemma group_sample_trip_Ret fuel valid g r g' :
  Group.sample_trip fuel node_ids outgoing_links valid max_start_time g
  = Ret (r, g') →
  Group.raw_origin r ∈ valid
  ∧ (∃ ls, outgoing_links !! Group.raw_origin r = Some ls
           ∧ Group.raw_link_origin r ∈ ls)
  ∧ 0 ≤ Group.raw_start r ≤ max_start_time
  ∧ ((1 < length node_ids)%nat → Group.raw_destination r ≠ Group.raw_origin r).
Proof.
  unfold Group.sample_trip. intros H.
  bind_inv H. apply choice_Ret in Hm as [Ho ->].
  bind_inv H. apply dict_getitem_Ret in Hm as [Hl ->].
  bind_inv H. apply choice_Ret in Hm as [Hlk ->].
  bind_inv H. apply choice_Ret in Hm as [_ ->].
  bind_inv H. pose proof (group_redraw_Ret _ _ _ _ _ _ Hm) as Hd.
  bind_inv H. apply randint_Ret in Hm0 as [Hs ->].
  unfold Py.ret in H. injection H as <- <-. simpl.
  split; [done|]. split; [by exists a0|]. split; [lia|done].
Qed.

Lemma aggregate_loop_Ret n sample : ∀ m g m' g',
  Group.aggregate_loop n sample m g = Ret (m', g') →
  ∃ raws, length raws = n
    ∧ Forall (Group.sampled sample) raws
    ∧ m' = foldl (λ m r, Group.record_trip (Group.key_of r)
                           (Group.raw_link_origin r) m) m raws.
Proof.
  induction n as [|n IH]; intros m g m' g'; simpl.
  - intros [= <- <-]. by exists [].
  - intros H. bind_inv H. apply IH in H as (raws & Hlen & HF & ->).
    exists (a :: raws). simpl. split_and!; [by rewrite Hlen| |done].
    constructor; [by exists g, g0|done].
Qed.

(** The loop aggregates the trips it samples, in the order it samples
    them. *)
Lemma aggregate_loop_sample n sample : ∀ m g,
  Group.aggregate_loop n sample m g
  = match Group.sample_loop n sample g with
    | Ret (raws, g') =>
        Ret (foldl (λ m r, Group.record_trip (Group.key_of r)
                             (Group.raw_link_origin r) m) m raws, g')
    | Raise e => Raise e
    | OutOfFuel => OutOfFuel
    end.
Proof.
  induction n as [|n IH]; intros m g; simpl; [done|].
  unfold Py.bind at 1 2. destruct (sample g) as [[r g1]| |]; [|done..].
  rewrite IH. unfold Py.bind, Py.ret.
  by destruct (Group.sample_loop n sample g1) as [[raws g2]| |].
Qed.

Lemma sample_loop_Ret n sample : ∀ g raws g',
  Group.sample_loop n sample g = Ret (raws, g') →
  length raws = n ∧ Forall (Group.sampled sample) raws.
Proof.
  induction n as [|n IH]; intros g raws g'; simpl.
  - by intros [= <- <-].
  - intros H. bind_inv H. bind_inv H. apply IH in Hm0 as [Hlen HF].
    unfold Py.ret in H. injection H as <- <-. simpl. split; [by rewrite Hlen|].
    constructor; [by exists g, g0|done].
Qed.

(** What a run that returns has returned: the grouped, sorted and named
    form of the trips it sampled. *)
Lemma group_run fuel num_trips g out :
  Group.generate_aggregated_and_sorted_trips
    fuel node_ids outgoing_links num_trips max_start_time g = Ret out →
  ∃ raws,
    out = Group.finish (Group.aggregate raws)
    ∧ Forall (Group.sampled
                (Group.sample_trip fuel node_ids outgoing_links
                   (valid_origin_nodes node_ids outgoing_links)
                   max_start_time)) raws
    ∧ (valid_origin_nodes node_ids outgoing_links ≠ [] →
       length raws = Z.to_nat num_trips)
    ∧ ((valid_origin_nodes node_ids outgoing_links = [] ∧ raws = [])
       ∨ ∃ g', Group.sample_loop (Z.to_nat num_trips)
                 (Group.sample_trip fuel node_ids outgoing_links
                    (valid_origin_nodes node_ids outgoing_links)
                    max_start_time) g
               = Ret (raws, g')).
Proof.
  unfold Group.generate_aggregated_and_sorted_trips.
  destruct (negb (nonempty_list node_ids)) eqn:En.
  { intros [= <-]. exists []. split_and!; [done|constructor| |].
    - intros Hv. destruct node_ids; [by destruct Hv|done].
    - left. by destruct node_ids. }
  destruct (negb (nonempty_list (valid_origin_nodes node_ids outgoing_links)))
    eqn:Ev.
  { intros [= <-]. exists []. split_and!; [done|constructor| |].
    - intros Hv. by destruct (valid_origin_nodes _ _).
    - left. by destruct (valid_origin_nodes _ _). }
  rewrite aggregate_loop_sample.
  destruct (Group.sample_loop _ _ _) as [[raws g']| |] eqn:E; [|done..].
  intros [= <-]. exists raws.
  destruct (sample_loop_Ret _ _ _ _ _ E) as [Hlen HF].
  split_and!; [done|done|done|]. right. by exists g'.
Qed.

End GroupRuns.

(** *** Runs that return *)

Section GroupTotal.

Variable node_ids : list string.
Variable outgoing_links : gmap string (list string).
Variable max_start_time : Z.

(** The loop of the grouping script is the loop of the basic script. *)
Lemma group_redraw_basic fuel : ∀ o d g,
  Group.redraw fuel node_ids o d g = Basic.redraw fuel node_ids o d g.
Proof.
  induction fuel as [|fuel IH]; intros o d g; simpl; [done|].
  destruct (_ && _); [|done].
  unfold Py.bind. destruct (choice node_ids g) as [[d1 g1]| |]; [|done..].
  apply IH.
Qed.

Lemma group_sample_trip_mono fuel fuel' valid g r :
  (fuel ≤ fuel')%nat →
  Group.sample_trip fuel node_ids outgoing_links valid max_start_time g = Ret r →
  Group.sample_trip fuel' node_ids outgoing_links valid max_start_time g = Ret r.
Proof.
  intros Hle. unfold Group.sample_trip, Py.bind.
  destruct (choice valid g) as [[o g1]| |]; [|done..].
  destruct (dict_getitem outgoing_links o g1) as [[ls g2]| |]; [|done..].
  destruct (choice ls g2) as [[l g3]| |]; [|done..].
  destruct (choice node_ids g3) as [[d0 g4]| |]; [|done..].
  rewrite (group_redraw_basic fuel), (group_redraw_basic fuel').
  destruct (Basic.redraw fuel node_ids o d0 g4) as [[d g5]| |] eqn:E; [|done..].
  by rewrite (basic_redraw_mono node_ids fuel fuel' o d0 g4 _ Hle E).
Qed.

Lemma aggregate_loop_mono (sample sample' : M Group.raw_trip) n :
  (∀ g r, sample g = Ret r → sample' g = Ret r) →
  ∀ m g x,
    Group.aggregate_loop n sample m g = Ret x →
    Group.aggregate_loop n sample' m g = Ret x.
Proof.
  intros Hs. induction n as [|n IH]; intros m g x; simpl; [done|].
  unfold Py.bind. destruct (sample g) as [[r g1]| |] eqn:E; [|done..].
  rewrite (Hs _ _ E). apply IH.
Qed.

Variable f : nat → nat.
Hypothesis fair : offers_other_nodes node_ids f.

Lemma group_sample_trip_total p :
  valid_origin_nodes node_ids outgoing_links ≠ [] →
  0 ≤ max_start_time →
  ∃ fuel r p',
    Group.sample_trip fuel node_ids outgoing_links
      (valid_origin_nodes node_ids outgoing_links) max_start_time (Rng f p)
    = Ret (r, Rng f p').
Proof.
  intros Hv Hmax.
  destruct (choice_total _ (Rng f p) Hv) as (o & Ho & Hin).
  apply valid_origin_nodes_spec in Hin as [Hon Hvo].
  apply valid_origin_links in Hvo as (l & ls & Hl).
  destruct (choice_total (l :: ls) (advance (Rng f p))) as (lk & Hlk & _);
    [done|].
  assert (Hne : node_ids ≠ [])
    by (intros E; rewrite E in Hon; by apply elem_of_nil in Hon).
  destruct (choice_total node_ids (advance (advance (Rng f p))) Hne)
    as (d0 & Hd0 & _).
  destruct (fair (S (S (S p))) o) as (q & d1 & g1 & Hq & Hc & Hd1).
  destruct (basic_redraw_total node_ids f fair o (q - S (S (S p)))
              (S (S (S p))) d0 q)
    as (fuel & d & p' & Hr); [lia|eauto|].
  rewrite <- group_redraw_basic in Hr.
  destruct (randint_total 0 max_start_time (Rng f p') Hmax) as (s & Hs & _).
  exists fuel. eexists. exists (S p').
  unfold Group.sample_trip.
  erewrite bind_Ret_intro by exact Ho.
  erewrite bind_Ret_intro by (unfold dict_getitem; rewrite Hl; reflexivity).
  erewrite bind_Ret_intro by exact Hlk.
  erewrite bind_Ret_intro by exact Hd0.
  erewrite bind_Ret_intro by exact Hr.
  erewrite bind_Ret_intro by exact Hs.
  reflexivity.
Qed.

Lemma aggregate_loop_total n :
  valid_origin_nodes node_ids outgoing_links ≠ [] →
  0 ≤ max_start_time →
  ∀ m p, ∃ fuel m' p',
    Group.aggregate_loop n
      (Group.sample_trip fuel node_ids outgoing_links
         (valid_origin_nodes node_ids outgoing_links) max_start_time)
      m (Rng f p)
    = Ret (m', Rng f p').
Proof.
  intros Hv Hmax. induction n as [|n IH]; intros m p.
  - by exists 0%nat, m, p.
  - destruct (group_sample_trip_total p Hv Hmax) as (fuel1 & r & p1 & H1).
    destruct (IH (Group.record_trip (Group.key_of r) (Group.raw_link_origin r) m) p1)
      as (fuel2 & m' & p' & H2).
    exists (fuel1 `max` fuel2)%nat, m', p'. simpl.
    erewrite bind_Ret_intro
      by exact (group_sample_trip_mono fuel1 _ _ _ _ (Nat.le_max_l _ _) H1).
    eapply aggregate_loop_mono; [|exact H2].
    intros g x. apply group_sample_trip_mono, Nat.le_max_r.
Qed.

(** With a random source that does not withhold the other nodes, a valid
    origin and [max_start_time >= 0], the grouping generator returns. *)
Lemma group_run_total num_trips p :
  valid_origin_nodes node_ids outgoing_links ≠ [] →
  0 ≤ max_start_time →
  ∃ fuel out,
    Group.generate_aggregated_and_sorted_trips
      fuel node_ids outgoing_links num_trips max_start_time (Rng f p)
    = Ret out.
Proof.
  intros Hv Hmax.
  destruct (aggregate_loop_total (Z.to_nat num_trips) Hv Hmax [] p)
    as (fuel & m & p' & E).
  exists fuel, (Group.finish m).
  unfold Group.generate_aggregated_and_sorted_trips.
  rewrite (nonempty_list_true _ (valid_nonempty_nodes _ _ Hv)),
          (nonempty_list_true _ Hv). simpl.
  by rewrite E.
Qed.

End GroupTotal.

(** The number of raw trips with the origin, destination and start of a
    key is the number of occurrences of the key. *)
Lemma occurrences_key (raws : list Group.raw_trip) (o d : string) (s : Z) :
  Group.occurrences o d s raws
  = count_occ (@decide_rel _ _ (=) _) (Group.key_of <$> raws) (o, d, s).
Proof.
  unfold Group.occurrences.
  induction raws as [|r raws IH]; [done|].
  rewrite fmap_cons. cbn [List.filter].
  destruct (decide (Group.key_of r = (o, d, s))) as [E|E].
  - rewrite (count_occ_cons_eq _ _ E).
    unfold Group.key_of in E. injection E as E1 E2 E3.
    rewrite E1, E2, E3, !String.eqb_refl, Z.eqb_refl. simpl.
    f_equal. exact IH.
  - rewrite (count_occ_cons_neq _ _ E).
    destruct (String.eqb (Group.raw_origin r) o
              && String.eqb (Group.raw_destination r) d
              && (Group.raw_start r =? s)) eqn:Eb; [|exact IH].
    exfalso. apply E.
    apply andb_true_iff in Eb as [Eb E3].
    apply andb_true_iff in Eb as [E1 E2].
    apply String.eqb_eq in E1, E2. apply Z.eqb_eq in E3.
    unfold Group.key_of. congruence.
Qed.

(** The records of the output are the entries of the map, in another
    order. *)
Lemma finish_fields m :
  Group.fields_of <$> Group.finish m ≡ₚ Group.entry_fields <$> m.
Proof.
  unfold Group.finish, Group.final_trips_for_xml.
  rewrite fmap_imap.
  transitivity ((λ p, (Group.p_origin p, Group.p_destination p,
                       Group.p_start p, Group.p_count p,
                       Group.p_link_origin p))
                  <$> Group.sort_by_start (Group.processed_trips_list m)).
  { by rewrite <- imap_const. }
  rewrite sort_by_start_Permutation.
  unfold Group.processed_trips_list. rewrite <- list_fmap_compose.
  match goal with |- ?a ≡ₚ ?b => assert (a = b) as ->; [|done] end.
  apply list_fmap_ext. by intros i [[[o d] s] v] _.
Qed.

(** C5: in aggregation mode a run that returns has sampled a sequence of
    raw trips, one per requested trip when the network has a valid origin
    and none otherwise, and its output is their grouped form: no two
    records share origin, destination and start; every raw trip has a
    record with its origin, destination and start; the count of a record
    is the number of raw trips with its origin, destination and start,
    which is at least one; and the counts add up to the number of raw
    trips. *)
Theorem C5_aggregation_counts (fuel : nat) (node_ids : list string)
    (outgoing_links : gmap string (list string))
    (num_trips max_start_time : Z) (g : rng) (out : list trip) :
  Group.generate_aggregated_and_sorted_trips
    fuel node_ids outgoing_links num_trips max_start_time g = Ret out →
  ∃ raws : list Group.raw_trip,
    ((valid_origin_nodes node_ids outgoing_links = [] ∧ raws = [])
     ∨ (length raws = Z.to_nat num_trips
        ∧ ∃ g', Group.sample_loop (Z.to_nat num_trips)
                  (Group.sample_trip fuel node_ids outgoing_links
                     (valid_origin_nodes node_ids outgoing_links)
                     max_start_time) g
                = Ret (raws, g')))
    ∧ NoDup ((λ t, (origin t, destination t, start t)) <$> out)
    ∧ (∀ r, r ∈ raws →
         ∃ t, t ∈ out ∧ origin t = Group.raw_origin r
              ∧ destination t = Group.raw_destination r
              ∧ start t = Group.raw_start r)
    ∧ (∀ t, t ∈ out →
         (0 < count t)%nat
         ∧ count t = Group.occurrences (origin t) (destination t) (start t)
                                       raws)
    ∧ sum_list_with count out = length raws.
Proof.
  intros H. apply group_run in H as (raws & -> & HF & Hlen & Htie).
  exists raws. split_and!.
  - destruct Htie as [?|[g' Hg]]; [by left|]. right.
    split; [|by exists g'].
    by destruct (sample_loop_Ret _ _ _ _ _ Hg).
  - change (NoDup (Group.trip_key_of <$> Group.finish (Group.aggregate raws))).
    rewrite finish_keys. apply aggregate_NoDup.
  - intros r Hr.
    assert (Hk : Group.key_of r
                 ∈ Group.trip_key_of <$> Group.finish (Group.aggregate raws)).
    { rewrite finish_keys. apply aggregate_keys, list_elem_of_fmap. eauto. }
    apply list_elem_of_fmap in Hk as (t & Hk & Ht).
    exists t. split; [done|].
    unfold Group.key_of, Group.trip_key_of in Hk. by injection Hk as -> -> ->.
  - intros t Ht. pose proof Ht as (v & Hin & Hc & _)%finish_entry.
    assert (count t = Group.occurrences (origin t) (destination t) (start t)
                                        raws) as Hocc.
    { rewrite Hc, (aggregate_count raws _ v Hin). symmetry.
      apply occurrences_key. }
    split; [|done]. rewrite Hocc, occurrences_key.
    apply count_occ_In, list_elem_of_In, aggregate_keys, list_elem_of_fmap.
    by exists (Group.trip_key_of t, v).
  - by rewrite finish_sum, aggregate_sum.
Qed.

(** C6: in aggregation mode the output of a run that returns holds the
    aggregated records of the raw trips the run sampled, each once (its
    origin, destination, start, count and link are those of one entry of
    the map, and every entry has its record), in non-decreasing order of
    [start], and the record at position [i] of that order (counted from
    1) is named [trip_i]. *)
Theorem C6_sorted_and_named (fuel : nat) (node_ids : list string)
    (outgoing_links : gmap string (list string))
    (num_trips max_start_time : Z) (g : rng) (out : list trip) :
  Group.generate_aggregated_and_sorted_trips
    fuel node_ids outgoing_links num_trips max_start_time g = Ret out →
  (∃ raws : list Group.raw_trip,
     ((valid_origin_nodes node_ids outgoing_links = [] ∧ raws = [])
      ∨ ∃ g', Group.sample_loop (Z.to_nat num_trips)
                (Group.sample_trip fuel node_ids outgoing_links
                   (valid_origin_nodes node_ids outgoing_links)
                   max_start_time) g
              = Ret (raws, g'))
     ∧ Group.fields_of <$> out
       ≡ₚ Group.entry_fields <$> Group.aggregate raws)
  ∧ (∀ i j ti tj, (i ≤ j)%nat → out !! i = Some ti → out !! j = Some tj →
       start ti ≤ start tj)
  ∧ (∀ i t, out !! i = Some t → name t = "trip_" +:+ pretty (Z.of_nat i + 1)).
Proof.
  intros H. apply group_run in H as (raws & -> & _ & _ & Htie). split_and!.
  - exists raws. split; [done|]. apply finish_fields.
  - intros i j ti tj. apply finish_sorted.
  - intros i t. apply finish_name.
Qed.

(** C10: with two or more entries in [node_ids], no trip written by the
    basic generator and no record returned by the grouping generator has
    its destination equal to its origin. *)
Theorem C10_destination_differs (node_ids : list string)
    (outgoing_links : gmap string (list string)) :
  (2 ≤ length node_ids)%nat →
  (∀ fuel num_trips max_start_time output_file g written r,
     Basic.generate_and_write_trips_iterative
       fuel node_ids outgoing_links num_trips max_start_time output_file g
     = (written, r) →
     Forall (λ t, destination t ≠ origin t) written)
  ∧ (∀ fuel num_trips max_start_time g out,
       Group.generate_aggregated_and_sorted_trips
         fuel node_ids outgoing_links num_trips max_start_time g = Ret out →
       Forall (λ t, destination t ≠ origin t) out).
Proof.
  intros Hlen. split.
  - intros fuel num_trips max_start_time output_file g written r.
    unfold Basic.generate_and_write_trips_iterative.
    destruct (negb (nonempty_list node_ids)); [by intros [= <- _]|].
    destruct (negb (nonempty_list (valid_origin_nodes node_ids outgoing_links)));
      [by intros [= <- _]|].
    destruct (with_open _ _ _ _) as [w lr] eqn:Ew. intros H.
    assert (written = w) as -> by (destruct lr; simpl in H; congruence).
    eapply write_file_Forall; [|exact Ew].
    intros i t Ht. apply basic_produced_ok in Ht as (_ & _ & Hd).
    apply Hd. lia.
  - intros fuel num_trips max_start_time g out H.
    apply group_run in H as (raws & -> & HF & _).
    apply Forall_forall. intros t (v & Hin & _)%finish_entry.
    assert (Hk : Group.trip_key_of t ∈ Group.key_of <$> raws).
    { apply aggregate_keys, list_elem_of_fmap. by exists (Group.trip_key_of t, v). }
    apply list_elem_of_fmap in Hk as (r & Hk & Hr).
    eapply Forall_forall in HF; [|exact Hr].
    destruct HF as (g1 & g2 & Hs).
    apply group_sample_trip_Ret in Hs as (_ & _ & _ & Hd).
    unfold Group.trip_key_of, Group.key_of in Hk. injection Hk as -> -> _.
    apply Hd. lia.
Qed.

(** ** The time slots read from the command line *)

Section TimeSlotParsing.

Variable default_name : nat → float → float → string.
Variable max_time : Z.

Local Abbreviation before a b := (Segmented.end_sec a < Segmented.start_sec b).
Local Abbreviation well_formed s :=
  (0 ≤ Segmented.start_sec s ≤ max_time
   ∧ Segmented.start_sec s - 1 ≤ Segmented.end_sec s
   ∧ ∃ q : Q, Segmented.percentage s = Finite q ∧ (0 < q)%Q ∧ (q <= 1)%Q).
Local Abbreviation add_share t s := (fadd t (Segmented.percentage s)).

Lemma float_of_not_NaN n x : Segmented.float_of n = Ret x → x ≠ NaN.
Proof.
  destruct n as [z|q]; simpl.
  - by intros (v & -> & _)%float_of_int_Ret.
  - unfold to_float. destruct (round64 q); by intros [= <-].
Qed.

Lemma float_of_not_OutOfFuel n : Segmented.float_of n ≠ OutOfFuel.
Proof. destruct n; [apply float_of_int_not_OutOfFuel|done]. Qed.

Lemma int_float_seconds (a : Q) (z : Z) :
  int_float (fmul (Finite a) 3600) = Ret z →
  ∃ v, round64 (a * 3600) = Some v ∧ z = int_of v.
Proof.
  cbn [fmul]. unfold to_float.
  destruct (round64 (a * 3600)) as [v|]; [|done].
  cbn [int_float]. intros [= <-]. eauto.
Qed.

Lemma StronglySorted_snoc {A} (R : A → A → Prop) l x :
  StronglySorted R l → Forall (λ y, R y x) l → StronglySorted R (l ++ [x]).
Proof.
  induction 1 as [|y l Hl IH Hy]; intros HF; simpl.
  - repeat constructor.
  - apply Forall_cons in HF as [Hyx HF]. constructor; [by apply IH|].
    apply Forall_app. split; [done|]. by repeat constructor.
Qed.

(** One turn of the reading loop that does not leave the function: the
    three numbers of the object are finite floats that pass the checks,
    the hours are converted to seconds, the slot starts after the end of
    the one before, and it is appended unless it starts after
    [max_time]. *)
Lemma read_slots_cons i d defs processed total last res :
  Segmented.read_slots default_name max_time i (d :: defs)
    (processed, total, last)
  = Ret (Some res) →
  ∃ (sh eh p : Segmented.number) (a e q vs ve : Q),
    Segmented.sd_start_hour d = Some sh
    ∧ Segmented.sd_end_hour d = Some eh
    ∧ Segmented.sd_percentage d = Some p
    ∧ Segmented.float_of sh = Ret (Finite a)
    ∧ Segmented.float_of eh = Ret (Finite e)
    ∧ Segmented.float_of p = Ret (Finite q)
    ∧ (0 <= a)%Q ∧ (a < e)%Q ∧ (0 < q)%Q ∧ (q <= 1)%Q
    ∧ round64 (a * 3600) = Some vs ∧ round64 (e * 3600) = Some ve
    ∧ last < int_of vs
    ∧ (if max_time <? int_of vs
       then Segmented.read_slots default_name max_time (S i) defs
              (processed, total, last)
       else Segmented.read_slots default_name max_time (S i) defs
              (processed
               ++ [Segmented.Slot
                     (default (default_name i (Finite a) (Finite e))
                              (Segmented.sd_name d))
                     (int_of vs) (int_of ve - 1) (Finite q)],
               fadd total (Finite q), int_of ve - 1))
      = Ret (Some res).
Proof.
  cbn [Segmented.read_slots].
  destruct (Segmented.sd_start_hour d) as [sh|]; [|done].
  destruct (Segmented.sd_end_hour d) as [eh|]; [|done].
  destruct (Segmented.sd_percentage d) as [p|]; [|done].
  destruct (Segmented.float_of sh) as [x| |] eqn:Ex; [|done..].
  destruct (Segmented.float_of eh) as [y| |] eqn:Ey; [|done..].
  destruct (Segmented.float_of p) as [z| |] eqn:Ez; [|done..].
  cbn [rbind].
  pose proof (float_of_not_NaN _ _ Ex) as Hx.
  pose proof (float_of_not_NaN _ _ Ey) as Hy.
  pose proof (float_of_not_NaN _ _ Ez) as Hz.
  destruct (flt x 0 || fle y x || fle z 0 || flt 1 z) eqn:Ebad; [done|].
  apply orb_false_iff in Ebad as [Ebad E3].
  apply orb_false_iff in Ebad as [Ebad E2].
  apply orb_false_iff in Ebad as [E0 E1].
  destruct x as [a|sx|]; [| |done].
  2:{ exfalso. cbn [flt] in E0. subst sx. by destruct y as [?|[]|]. }
  destruct z as [q|sz|]; [| |done].
  2:{ exfalso. cbn [flt fle] in E2, E3. by destruct sz. }
  destruct (int_float (fmul (Finite a) 3600)) as [start_sec| |] eqn:Es;
    [|done..].
  cbn [rbind].
  destruct y as [e|sy|]; [| |done].
  2:{ cbn [fle] in E1. subst sy. done. }
  destruct (int_float (fmul (Finite e) 3600)) as [end_sec| |] eqn:Ee;
    [|done..].
  cbn [rbind].
  destruct (start_sec <=? last) eqn:El; [done|]. apply Z.leb_gt in El.
  apply int_float_seconds in Es as (vs & Hvs & ->).
  apply int_float_seconds in Ee as (ve & Hve & ->).
  cbn [flt fle] in E0, E1, E2, E3.
  apply Qlt_bool_false in E0, E3. apply Qle_bool_false in E1, E2.
  intros H. exists sh, eh, p, a, e, q, vs, ve. by split_and!.
Qed.

(** The reading loop keeps the slots in order, disjoint and well formed,
    and adds up the shares of the slots it appends. *)
Lemma read_slots_inv defs : ∀ i processed total last slots total',
  Segmented.read_slots default_name max_time i defs (processed, total, last)
  = Ret (Some (slots, total')) →
  StronglySorted (λ a b, before a b) processed →
  Forall (λ s, Segmented.end_sec s ≤ last) processed →
  Forall (λ s, well_formed s) processed →
  StronglySorted (λ a b, before a b) slots
  ∧ Forall (λ s, well_formed s) slots
  ∧ ∃ new, slots = processed ++ new
           ∧ total' = foldl (λ t s, add_share t s) total new.
Proof.
  induction defs as [|d defs IH]; intros i processed total last slots total'.
  - cbn [Segmented.read_slots]. intros [= <- <-] HS HL HW.
    split; [done|]. split; [done|]. exists []. by rewrite app_nil_r.
  - intros H HS HL HW.
    apply read_slots_cons in H
      as (sh & eh & p & a & e & q & vs & ve & _ & _ & _ & _ & _ & _
          & Ha & Hae & Hq0 & Hq1 & Hvs & Hve & Hlast & H).
    destruct (max_time <? int_of vs) eqn:Emax.
    + by apply IH in H.
    + apply Z.ltb_ge in Emax.
      assert (H3600 : (0 <= 3600)%Q) by by unfold Qle.
      assert (Hvs0 : (0 <= vs)%Q).
      { apply (round64_sign _ _ Hvs). by apply Qmult_le_0_compat. }
      assert (Hvv : (vs <= ve)%Q).
      { eapply round64_mono; [|exact Hvs|exact Hve].
        apply Qmult_le_compat_r; [by apply Qlt_le_weak|done]. }
      pose proof (int_of_nonneg vs Hvs0) as Hs0.
      pose proof (int_of_mono vs ve Hvs0 Hvv) as Hse.
      apply IH in H as (HS' & HW' & new & -> & ->).
      * split; [done|]. split; [done|]. eexists (_ :: new).
        by rewrite <- app_assoc.
      * apply StronglySorted_snoc; [done|].
        eapply Forall_impl; [exact HL|]. simpl. intros s Hs. lia.
      * apply Forall_app. split.
        -- eapply Forall_impl; [exact HL|]. simpl. intros s Hs. lia.
        -- constructor; [simpl; lia|constructor].
      * apply Forall_app. split; [done|].
        constructor; [|constructor]. simpl. split; [lia|].
        split; [lia|]. by exists q.
Qed.

Lemma read_slots_not_OutOfFuel defs : ∀ i st,
  Segmented.read_slots default_name max_time i defs st ≠ OutOfFuel.
Proof.
  induction defs as [|d defs IH]; intros i [[processed total] last];
    cbn [Segmented.read_slots]; [done|].
  destruct (Segmented.sd_start_hour d) as [sh|]; [|done].
  destruct (Segmented.sd_end_hour d) as [eh|]; [|done].
  destruct (Segmented.sd_percentage d) as [p|]; [|done].
  pose proof (float_of_not_OutOfFuel sh).
  destruct (Segmented.float_of sh) as [x| |]; [|done..].
  pose proof (float_of_not_OutOfFuel eh).
  destruct (Segmented.float_of eh) as [y| |]; [|done..].
  pose proof (float_of_not_OutOfFuel p).
  destruct (Segmented.float_of p) as [z| |]; [|done..].
  cbn [rbind]. destruct (_ || _); [done|].
  pose proof (int_float_not_OutOfFuel (fmul x 3600)).
  destruct (int_float (fmul x 3600)) as [start_sec| |]; [|done..].
  pose proof (int_float_not_OutOfFuel (fmul y 3600)).
  destruct (int_float (fmul y 3600)) as [end_sec| |]; [|done..].
  cbn [rbind]. destruct (_ <=? _); [done|].
  destruct (_ <? _); apply IH.
Qed.

(** The division of the shares by a positive total raises nothing. *)
Lemma normalise_all total (l : list Segmented.slot) :
  flt 0 total = true →
  map_result (Segmented.normalise total) l
  = Ret ((λ s, Segmented.Slot (Segmented.slot_name s) (Segmented.start_sec s)
                 (Segmented.end_sec s)
                 (quotient (Segmented.percentage s) total)) <$> l).
Proof.
  intros Hpos.
  assert (Hz : is_zero total = false).
  { destruct total as [t|s|]; [|done..]. cbn [flt] in Hpos.
    apply Qlt_bool_true in Hpos. unfold is_zero.
    destruct (Qeq_bool t 0) eqn:E; [|done].
    apply Qeq_bool_iff in E. rewrite E in Hpos. by apply Qlt_irrefl in Hpos. }
  induction l as [|s l IH]; [done|].
  cbn [map_result]. unfold Segmented.normalise at 1, fdiv. rewrite Hz.
  cbn [rbind]. by rewrite IH.
Qed.

(** A share divided by a positive total is a float that is not negative:
    a finite one, or the infinity that an overflow leaves. *)
Lemma quotient_share (q : Q) total :
  (0 < q)%Q → flt 0 total = true →
  (∃ v : Q, quotient (Finite q) total = Finite v ∧ (0 <= v)%Q)
  ∨ quotient (Finite q) total = Infinity false.
Proof.
  intros Hq Hpos. destruct total as [t|[]|]; try done.
  - cbn [flt] in Hpos. apply Qlt_bool_true in Hpos.
    cbn [quotient]. unfold to_float.
    assert (Hqt : (0 < q / t)%Q).
    { apply Qlt_shift_div_l; [done|]. by rewrite Qmult_0_l. }
    destruct (round64 (q / t)) as [v|] eqn:E.
    + left. exists v. split; [done|].
      apply (round64_sign _ _ E). by apply Qlt_le_weak.
    + right. f_equal. unfold Qlt_bool. apply negb_false_iff.
      apply Qle_bool_iff. by apply Qlt_le_weak.
  - left. by exists 0%Q.
Qed.

(** The slots that [parse_time_slots_json] returns: at least one, none
    starting before 0 or after [max_time], in order and disjoint, every
    one ending no earlier than the second before its start, with a share
    that is not negative. *)
Lemma parse_time_slots_json_Some defs slots :
  Segmented.parse_time_slots_json default_name defs max_time
  = Ret (Some slots) →
  slots ≠ []
  ∧ Forall (λ s, 0 ≤ Segmented.start_sec s ≤ max_time) slots
  ∧ StronglySorted (λ a b, before a b) slots
  ∧ Forall (λ s, Segmented.start_sec s - 1 ≤ Segmented.end_sec s) slots
  ∧ Forall (λ s, (∃ v : Q, Segmented.percentage s = Finite v ∧ (0 <= v)%Q)
                 ∨ Segmented.percentage s = Infinity false) slots.
Proof.
  unfold Segmented.parse_time_slots_json.
  destruct (Segmented.sort_slots defs) as [sorted| |]; [|done..].
  cbn [rbind].
  destruct (Segmented.read_slots _ _ _ _ _) as [[[processed total]|]| |] eqn:E;
    [|done..].
  cbn [rbind].
  destruct (read_slots_inv _ _ _ _ _ _ _ E) as (HS & HW & _);
    [constructor..|].
  destruct (negb _).
  - destruct (flt 0 total) eqn:Epos; [|done].
    rewrite normalise_all by done. cbn [rbind].
    destruct (_ <$> processed) as [|s' l'] eqn:Ef; [done|].
    intros [= <-]. split; [done|]. rewrite <- Ef. split_and!.
    + apply Forall_fmap. eapply Forall_impl; [exact HW|]. simpl. tauto.
    + clear -HS. induction HS as [|a l Hl IH Ha]; [constructor|].
      rewrite fmap_cons. constructor; [done|]. apply Forall_fmap.
      eapply Forall_impl; [exact Ha|]. done.
    + apply Forall_fmap. eapply Forall_impl; [exact HW|]. simpl. tauto.
    + apply Forall_fmap. eapply Forall_impl; [exact HW|]. simpl.
      intros s0 (_ & _ & q & -> & Hq & _). by apply quotient_share.
  - cbn [rbind]. destruct processed as [|s processed]; [done|].
    intros [= <-]. split; [done|]. split_and!; [|done| |].
    + eapply Forall_impl; [exact HW|]. simpl. tauto.
    + eapply Forall_impl; [exact HW|]. simpl. tauto.
    + eapply Forall_impl; [exact HW|]. simpl.
      intros s0 (_ & _ & q & -> & Hq & _). left. exists q.
      split; [done|]. by apply Qlt_le_weak.
Qed.

End TimeSlotParsing.

(** ** Runs of the unaggregated generators *)

Section UnaggregatedRuns.

Variable node_ids : list string.
Variable outgoing_links : gmap string (list string).
Variable num_trips max_time : Z.

Local Abbreviation valid := (valid_origin_nodes node_ids outgoing_links).

Variable output_file : io.

(** Whatever ends a run of the basic generator, the trips it has written
    were produced by the loop body, and a run that returns [True] has
    written one trip per index. *)
Lemma basic_run fuel g written r :
  Basic.generate_and_write_trips_iterative
    fuel node_ids outgoing_links num_trips max_time output_file g
  = (written, r) →
  Forall (λ t, ∃ i, produced (Basic.make_trip fuel node_ids outgoing_links
                                valid max_time) i t) written
  ∧ (r = Ret true → length written = Z.to_nat num_trips).
Proof.
  unfold Basic.generate_and_write_trips_iterative.
  destruct (negb (nonempty_list node_ids)); [by intros [= <- <-]|].
  destruct (negb (nonempty_list valid)); [by intros [= <- <-]|].
  destruct (with_open _ _ _ _) as [w lr] eqn:Ew. intros H.
  assert (written = w) as -> by (destruct lr; simpl in H; congruence).
  split.
  - eapply write_file_Forall; [|exact Ew]. intros i t Ht. by exists i.
  - intros ->. destruct lr as [g'| |]; simpl in H; try congruence.
    apply write_file_Ret in Ew as [Ew _].
    apply write_loop_length in Ew. by rewrite Ew, length_range2.
Qed.

Lemma basic_run_total (f : nat → nat) p :
  offers_other_nodes node_ids f →
  valid ≠ [] → 0 ≤ max_time →
  accepts output_file (Z.to_nat num_trips) →
  ∃ fuel written,
    Basic.generate_and_write_trips_iterative
      fuel node_ids outgoing_links num_trips max_time output_file (Rng f p)
    = (written, Ret true).
Proof.
  intros Hfair Hv Hmax Hio.
  destruct (basic_write_loop_total node_ids outgoing_links max_time f Hfair
              (Py.range2 1 (num_trips + 1)) Hv Hmax [] p)
    as (fuel & w & p' & Ew).
  exists fuel, w. unfold Basic.generate_and_write_trips_iterative.
  rewrite (nonempty_list_true _ (valid_nonempty_nodes _ _ Hv)),
          (nonempty_list_true _ Hv). simpl.
  rewrite write_file_accepts
    by (done || apply length_range2 || apply basic_indices).
  by rewrite Ew.
Qed.

Variable slots : list Segmented.slot.
Variable pct : float.

Local Abbreviation in_slot s t :=
  (Segmented.start_sec s ≤ t ≤ Z.min (Segmented.end_sec s) max_time).

(** With at least one slot the refill loop has nothing to add: every
    start time of the pool was drawn for a slot, within its clipped
    bounds. *)
Lemma start_time_pool_slots g pool g' :
  slots ≠ [] →
  Segmented.start_time_pool num_trips max_time slots g = Ret (pool, g') →
  Forall (λ t, ∃ s, s ∈ slots ∧ in_slot s t) pool.
Proof.
  intros Hne. unfold Segmented.start_time_pool. intros H.
  bind_inv H. destruct a as [acc alloc].
  apply allocate_slots_Ret in Hm as (chunks & -> & HF & Hlen & Hlast).
  destruct slots as [|s rest] eqn:Es; [done|]. rewrite <- Es in *.
  assert (alloc = num_trips) as -> by (apply Hlast; by rewrite Es).
  bind_inv H. rewrite refill_full in Hm by (simpl in *; lia).
  injection Hm as <- <-. unfold Py.ret in H. injection H as <- <-.
  apply slice_to_Forall. simpl. by apply chunks_in_slots.
Qed.

(** The pool, slot by slot: the start times drawn for a slot lie within
    its clipped bounds, and the pool is the concatenation of these draws,
    cut to [num_trips] elements. *)
Lemma start_time_pool_chunks g pool g' :
  slots ≠ [] →
  Segmented.start_time_pool num_trips max_time slots g = Ret (pool, g') →
  ∃ chunks,
    Forall2 (λ s chunk, Forall (λ t, in_slot s t) chunk) slots chunks
    ∧ pool = slice_to num_trips (concat chunks).
Proof.
  intros Hne. unfold Segmented.start_time_pool. intros H.
  bind_inv H. destruct a as [acc alloc].
  apply allocate_slots_Ret in Hm as (chunks & -> & HF & Hlen & Hlast).
  destruct slots as [|s rest] eqn:Es; [done|]. rewrite <- Es in *.
  assert (alloc = num_trips) as -> by (apply Hlast; by rewrite Es).
  bind_inv H. rewrite refill_full in Hm by (simpl in *; lia).
  injection Hm as <- <-. unfold Py.ret in H. injection H as <- <-.
  by exists chunks.
Qed.

(** The trips written by the segmented generator, whatever ends the run. *)
Lemma segmented_run_written g written r :
  Segmented.generate_and_write_trips_iterative
    node_ids outgoing_links num_trips max_time output_file slots pct g
  = (written, r) →
  Forall (origin_ok node_ids outgoing_links) written
  ∧ (slots ≠ [] →
     Forall (λ t, ∃ s, s ∈ slots ∧ in_slot s (start t)) written)
  ∧ (r = Ret true → 0 ≤ num_trips → length written = Z.to_nat num_trips).
Proof.
  unfold Segmented.generate_and_write_trips_iterative.
  destruct (negb (nonempty_list node_ids));
    [intros [= <- <-]; by split_and!|].
  destruct (negb (nonempty_list valid));
    [intros [= <- <-]; by split_and!|].
  unfold Py.bind at 1.
  destruct (Segmented.start_time_pool num_trips max_time slots g)
    as [[pool g1]| |] eqn:Ep; [|intros [= <- <-]; by split_and!..].
  unfold Py.bind.
  destruct (Segmented.od_equal_flags _ _ g1)
    as [[flags g2]| |] eqn:Ef; [|intros [= <- <-]; by split_and!..].
  unfold Py.ret.
  destruct (with_open _ _ _ g2) as [w lr] eqn:Ew.
  intros H.
  assert (written = w) as -> by (destruct lr; simpl in H; congruence).
  split_and!.
  - apply Forall_lookup. intros k t Hk.
    by destruct (segmented_file_lookup _ _ _ _ _ _ _ _ _ _ _ _ _ Ew Hk)
      as [? _].
  - intros Hne. apply Forall_lookup. intros k t Hk.
    destruct (segmented_file_lookup _ _ _ _ _ _ _ _ _ _ _ _ _ Ew Hk)
      as (_ & Hp & _).
    pose proof (start_time_pool_slots _ _ _ Hne Ep) as HF.
    eapply Forall_lookup in HF; [|exact Hp]. done.
  - intros -> _. destruct lr as [g'| |]; simpl in H; try congruence.
    apply write_file_Ret in Ew as [Ew _].
    apply write_loop_length in Ew. by rewrite Ew, length_range.
Qed.

End UnaggregatedRuns.

(** C1: the claim fails for the segmented generator on the time slots of
    C2.  The network has the nodes [a] and [b], both valid origins, and 2
    trips are asked for with a horizon of 3600 s; the time slots
    0 h - 0.0001 h and 0.0001 h - 1 h are read as the slots [0, -1] and
    [0, 3599].  The generator raises ValueError while it builds the pool
    of start times, before it opens the output file: no trip record is
    written where the claim asks for 2, whatever the random source and
    the file system, and the script ends with the exception. *)
Theorem C1_no_trip_on_useless_slot
    (default_name : nat → float → float → string) (output_file : io)
    (g : rng) :
  valid_origin_nodes ["a"; "b"] Examples.links_ab = ["a"; "b"]
  ∧ Segmented.parse_network_iterative (Some Examples.doc_ab)
    = Some (["a"; "b"], Examples.links_ab)
  ∧ Segmented.parse_time_slots_json default_name Examples.sliver_json 3600
    = Ret (Some [Examples.sliver; Examples.morning])
  ∧ (∃ written,
       Segmented.generate_and_write_trips_iterative
         ["a"; "b"] Examples.links_ab 2 3600 output_file
         [Examples.sliver; Examples.morning] 0 g
       = (written, Raise ValueError)
       ∧ length written = 0%nat)
  ∧ (∃ written,
       Segmented.main default_name (Some Examples.doc_ab) 2 output_file 3600
         Examples.sliver_json 0 g
       = (written, Some (Segmented.Uncaught ValueError))
       ∧ length written = 0%nat).
Proof.
  split_and!; [vm_compute; reflexivity..| |].
  - exists []. split; [vm_compute; reflexivity|done].
  - exists []. split; [vm_compute; reflexivity|done].
Qed.

(** C3: every start value written by the basic generator or returned by
    the grouping generator lies in [0, max_time].  In the segmented
    generator the start times drawn for a slot lie within the bounds of
    that slot, its end clipped to [max_time], and every start value
    written is one of them; it lies in [0, max_time] when no slot starts
    before 0, which holds for the slots read from the command line. *)
Theorem C3_start_times_in_range (node_ids : list string)
    (outgoing_links : gmap string (list string)) (num_trips max_time : Z)
    (output_file : io) (slots : list Segmented.slot) (pct : float) :
  (∀ fuel g written r,
     Basic.generate_and_write_trips_iterative
       fuel node_ids outgoing_links num_trips max_time output_file g
     = (written, r) →
     Forall (λ t, 0 ≤ start t ≤ max_time) written)
  ∧ (∀ fuel g out,
       Group.generate_aggregated_and_sorted_trips
         fuel node_ids outgoing_links num_trips max_time g = Ret out →
       Forall (λ t, 0 ≤ start t ≤ max_time) out)
  ∧ (slots ≠ [] →
     Forall (λ s, 0 ≤ Segmented.start_sec s) slots →
     ∀ g written r,
       Segmented.generate_and_write_trips_iterative
         node_ids outgoing_links num_trips max_time output_file slots pct g
       = (written, r) →
       Forall (λ t, 0 ≤ start t ≤ max_time
                    ∧ ∃ s, s ∈ slots
                           ∧ Segmented.start_sec s ≤ start t
                             ≤ Z.min (Segmented.end_sec s) max_time)
              written)
  ∧ (∀ default_name time_slots,
       Segmented.parse_time_slots_json default_name time_slots max_time
       = Ret (Some slots) →
       ∀ g written r,
         Segmented.generate_and_write_trips_iterative
           node_ids outgoing_links num_trips max_time output_file slots pct g
         = (written, r) →
         Forall (λ t, 0 ≤ start t ≤ max_time) written)
  ∧ (slots ≠ [] →
     ∀ g pool g',
       Segmented.start_time_pool num_trips max_time slots g = Ret (pool, g') →
       ∃ chunks,
         Forall2 (λ s chunk,
                    Forall (λ t, Segmented.start_sec s ≤ t
                                 ≤ Z.min (Segmented.end_sec s) max_time) chunk)
                 slots chunks
         ∧ pool = slice_to num_trips (concat chunks)).
Proof.
  assert (Hseg : slots ≠ [] →
     Forall (λ s, 0 ≤ Segmented.start_sec s) slots →
     ∀ g written r,
       Segmented.generate_and_write_trips_iterative
         node_ids outgoing_links num_trips max_time output_file slots pct g
       = (written, r) →
       Forall (λ t, 0 ≤ start t ≤ max_time
                    ∧ ∃ s, s ∈ slots
                           ∧ Segmented.start_sec s ≤ start t
                             ≤ Z.min (Segmented.end_sec s) max_time)
              written).
  { intros Hne Hpos g written r H.
    apply segmented_run_written in H as (_ & HF & _).
    eapply Forall_impl; [exact (HF Hne)|]. intros t (s & Hs & Ht).
    split; [|by exists s].
    eapply Forall_forall in Hpos; [|exact Hs]. simpl in Hpos. lia. }
  split_and!.
  - intros fuel g written r H. apply basic_run in H as [HF _].
    eapply Forall_impl; [exact HF|]. intros t [i Ht].
    by apply basic_produced_ok in Ht as (_ & ? & _).
  - intros fuel g out H. apply group_run in H as (raws & -> & HF & _).
    apply Forall_forall. intros t (v & Hin & _)%finish_entry.
    assert (Hk : Group.trip_key_of t ∈ Group.key_of <$> raws).
    { apply aggregate_keys, list_elem_of_fmap.
      by exists (Group.trip_key_of t, v). }
    apply list_elem_of_fmap in Hk as (r & Hk & Hr).
    eapply Forall_forall in HF; [|exact Hr].
    destruct HF as (g1 & g2 & Hs).
    apply group_sample_trip_Ret in Hs as (_ & _ & Hs & _).
    unfold Group.trip_key_of, Group.key_of in Hk. injection Hk as _ _ ->.
    done.
  - exact Hseg.
  - intros default_name time_slots Hparse g written r H.
    apply parse_time_slots_json_Some in Hparse as (Hne & Hpos & _).
    eapply Forall_impl; [eapply (Hseg Hne); [|exact H]|].
    + eapply Forall_impl; [exact Hpos|]. simpl. intros; lia.
    + by intros t [? _].
  - intros Hne g pool g'. by apply start_time_pool_chunks.
Qed.

(** A node list without repetition and with two entries or more holds two
    distinct ids. *)
Lemma two_nodes_distinct (node_ids : list string) :
  NoDup node_ids → (2 ≤ length node_ids)%nat →
  ∃ a b, a ∈ node_ids ∧ b ∈ node_ids ∧ a ≠ b.
Proof.
  intros Hnd Hlen. destruct node_ids as [|a [|b l]]; simpl in Hlen; try lia.
  exists a, b. split; [by left|]. split; [by right; left|].
  apply NoDup_cons in Hnd as [Ha _]. intros ->. apply Ha. by left.
Qed.

Lemma count_od_equal_flags (written : list trip) : ∀ flags : list bool,
  length written = length flags →
  (∀ k t, written !! k = Some t → ∃ b, flags !! k = Some b ∧ od_equal t = b) →
  count_od_equal written = count_occ bool_dec flags true.
Proof.
  unfold count_od_equal.
  induction written as [|t written IH]; intros [|b flags] Hlen H;
    try done.
  destruct (H 0%nat t eq_refl) as (b' & [= <-] & Hod).
  assert (IH' : length (List.filter od_equal written)
                = count_occ bool_dec flags true).
  { apply IH; [simpl in Hlen; lia|]. intros k t' Hk. exact (H (S k) t' Hk). }
  cbn [List.filter count_occ]. rewrite Hod.
  destruct b; destruct (bool_dec _ _); simpl; try done. by rewrite IH'.
Qed.

(** C4 (amended): in the segmented variant, with a valid origin, slots
    that can all be drawn from and whose shares are floats between 0 and
    1, a file system that refuses nothing, [N] trips asked with
    0 < N <= 2^53 and a fraction [f] that is a float of [0, 1], the run
    writes [N] trips.  When the node list holds two distinct ids, the
    number of trips with origin = destination is [int(N * f)], the integer
    part of the product rounded to a float: that is floor(N * f), or
    floor(N * f) + 1 when the rounding reaches the next integer.  When the
    node list has a single entry all [N] trips have origin =
    destination. *)
Theorem C4_od_equal_quota (node_ids : list string)
    (outgoing_links : gmap string (list string)) (num_trips max_time : Z)
    (output_file : io) (slots : list Segmented.slot) (pct : Q) (g : rng) :
  valid_origin_nodes node_ids outgoing_links ≠ [] →
  slots ≠ [] →
  Forall (λ s, Segmented.useless max_time s = false) slots →
  Forall Segmented.proper_share slots →
  accepts output_file (Z.to_nat num_trips) →
  0 < num_trips ≤ 2 ^ 53 → (0 <= pct)%Q → (pct <= 1)%Q →
  ∃ (written : list trip) (product : Q),
    Segmented.generate_and_write_trips_iterative
      node_ids outgoing_links num_trips max_time output_file slots
      (Finite pct) g
    = (written, Ret true)
    ∧ length written = Z.to_nat num_trips
    ∧ round64 (inject_Z num_trips * pct) = Some product
    ∧ Segmented.target_od_equal_trips num_trips (Finite pct)
      = Ret (int_of product)
    ∧ Qfloor (inject_Z num_trips * pct) ≤ int_of product
      ≤ Qfloor (inject_Z num_trips * pct) + 1
    ∧ ((∃ a b, a ∈ node_ids ∧ b ∈ node_ids ∧ a ≠ b) →
       Z.of_nat (count_od_equal written) = int_of product)
    ∧ (length node_ids = 1%nat →
       count_od_equal written = Z.to_nat num_trips).
Proof.
  intros Hv Hs Hu Hshares Hio HN Hp0 Hp1.
  destruct (target_Ret num_trips pct ltac:(lia) (conj Hp0 Hp1))
    as (product & Hprod & Htarget & Hb & Hfloor).
  destruct (target_Ret num_trips 1 ltac:(lia)) as (one & _ & Hone & Hbone & _).
  { by split. }
  assert (∃ target,
    Segmented.target_od_equal_trips num_trips
      (if Nat.eqb (length node_ids) 1 then Finite 1 else Finite pct)
    = Ret target
    ∧ 0 ≤ target ≤ num_trips
    ∧ (Nat.eqb (length node_ids) 1 = false → target = int_of product))
    as (target & Ht & Htb & Htp).
  { destruct (Nat.eqb (length node_ids) 1).
    - exists (int_of one). split_and!; [done|lia|lia|done].
    - exists (int_of product). split_and!; [done|lia|lia|done]. }
  destruct (segmented_run_total node_ids outgoing_links num_trips max_time
              output_file slots (Finite pct) target g Hv Hs Hu
              (rounded_shares_proper num_trips slots ltac:(lia) Hshares)
              Ht Htb Hio)
    as (written & pool & flags & g1 & g2 & g3 & Ep & Ef & Hcount & Ew & E).
  exists written, product. split; [done|].
  pose proof (write_loop_length _ _ _ _ _ Ew) as Hlen.
  rewrite length_range in Hlen. split; [done|].
  split; [done|]. split; [done|]. split; [done|].
  destruct (od_equal_flags_inv _ _ _ _ _ Ef) as (target' & Ht' & _ & Hflen).
  rewrite Ht in Ht'. injection Ht' as <-.
  split.
  - intros (a & b & Ha & Hb' & Hab).
    assert (Hsingle : Nat.eqb (length node_ids) 1 = false).
    { apply Nat.eqb_neq. intros Hl.
      destruct node_ids as [|x [|y l]]; simpl in Hl; try lia.
      apply list_elem_of_singleton in Ha, Hb'. congruence. }
    rewrite Hsingle in *. rewrite <- (Htp eq_refl).
    rewrite (count_od_equal_flags written flags).
    + rewrite Hcount. lia.
    + lia.
    + intros k t Hk.
      destruct (segmented_written_lookup _ _ _ _ _ _ _ _ _ _ _ Ew Hk)
        as (_ & _ & b0 & Hb0 & Heq & Hne).
      exists b0. split; [done|]. rewrite orb_false_r in Heq, Hne.
      unfold od_equal. destruct b0.
      * rewrite Heq by done. apply String.eqb_refl.
      * apply String.eqb_neq. intros Hodd.
        apply Hne; [done| |done].
        destruct (decide (a = origin t)) as [<-|Hao]; [by exists b|by exists a].
  - intros Hl. unfold count_od_equal.
    rewrite <- Hlen. f_equal.
    apply Nat.eqb_eq in Hl.
    assert (HF : Forall (λ t, od_equal t = true) written).
    { apply Forall_lookup. intros k t Hk.
      destruct (segmented_written_lookup _ _ _ _ _ _ _ _ _ _ _ Ew Hk)
        as (_ & _ & b0 & _ & Heq & _).
      rewrite Hl, orb_true_r in Heq. unfold od_equal.
      rewrite Heq by done. apply String.eqb_refl. }
    clear -HF. induction HF as [|t l Ht _ IH]; simpl; [done|].
    rewrite Ht. by f_equal.
Qed.

(** C7 (amended): the attempt bound belongs to the segmented generator.
    There, for a trip that is not forced to end at its origin, the
    destination is drawn once from all nodes, drawn again at most
    [len(node_ids) + 5] times while it equals the origin, and, if it still
    equals the origin, drawn once from the nodes other than the origin when
    there are any; the choice always returns, after at most
    [len(node_ids) + 7] draws.  The basic and the grouping generator have
    no attempt bound and no such last draw: with two or more nodes their
    loop is left only with a destination that differs from the origin. *)
Theorem C7_segmented_destination_bounded (node_ids : list string)
    (origin_node : string) (g : rng) :
  node_ids ≠ [] →
  (∃ d0 g0 d1 g1 d g',
     choice node_ids g = Ret (d0, g0)
     ∧ Segmented.retry (length node_ids + 5) node_ids origin_node d0 g0
       = Ret (d1, g1)
     ∧ (cursor g1 - cursor g0 ≤ length node_ids + 5)%nat
     ∧ Segmented.select_destination node_ids origin_node false false g
       = Ret (d, g')
     ∧ (d1 ≠ origin_node → d = d1 ∧ g' = g1)
     ∧ (d1 = origin_node →
        match List.filter (λ n, negb (String.eqb n origin_node)) node_ids with
        | [] => d = origin_node ∧ g' = g1
        | other_nodes => choice other_nodes g1 = Ret (d, g')
        end)
     ∧ (cursor g' - cursor g ≤ length node_ids + 7)%nat
     ∧ ((∃ n, n ∈ node_ids ∧ n ≠ origin_node) → d ≠ origin_node))
  ∧ (∀ fuel d0 g0 d g',
       Basic.redraw fuel node_ids origin_node d0 g0 = Ret (d, g') →
       (1 < length node_ids)%nat → d ≠ origin_node)
  ∧ (∀ fuel d0 g0 d g',
       Group.redraw fuel node_ids origin_node d0 g0 = Ret (d, g') →
       (1 < length node_ids)%nat → d ≠ origin_node).
Proof.
  intros Hne. split_and!.
  - destruct (select_destination_steps node_ids origin_node g Hne)
      as (d0 & g0 & d1 & g1 & d & g' & H0 & H1 & H & Hd1 & Ho).
    exists d0, g0, d1, g1, d, g'.
    pose proof (retry_Ret _ _ _ _ _ _ _ H1) as (_ & Hc1 & _).
    pose proof (select_destination_Ret _ _ _ _ _ _ _ H)
      as (_ & Hc & _ & _ & Hne').
    split_and!; try done; try lia.
    intros Hex. by apply Hne'.
  - intros fuel d0 g0 d g' H Hlen.
    apply basic_redraw_Ret in H as [H _]. by apply H.
  - intros fuel d0 g0 d g' H. exact (group_redraw_Ret _ _ _ _ _ _ _ H).
Qed.

(** C2: the start-time pool is not built when a slot that cannot be drawn
    from receives a positive quota.  The time slots 0 h - 0.0001 h and
    0.0001 h - 1 h (share 1/2 each) are read as the slots [0, -1] and
    [0, 3599]; with 2 trips and a horizon of 3600 s the first slot is
    given round(2 * 0.5) = 1 trip and [random.randint(0, -1)] raises
    ValueError, which leaves the generator and ends the script. *)
Theorem C2_pool_fails_on_useless_slot
    (default_name : nat → float → float → string) (output_file : io)
    (g : rng) :
  Segmented.parse_time_slots_json default_name Examples.sliver_json 3600
  = Ret (Some [Examples.sliver; Examples.morning])
  ∧ Segmented.start_time_pool 2 3600 [Examples.sliver; Examples.morning] g
    = Raise ValueError
  ∧ Segmented.generate_and_write_trips_iterative
      ["a"; "b"] Examples.links_ab 2 3600 output_file
      [Examples.sliver; Examples.morning] 0 g
    = ([], Raise ValueError)
  ∧ Segmented.main default_name (Some Examples.doc_ab) 2 output_file 3600
      Examples.sliver_json 0 g
    = ([], Some (Segmented.Uncaught ValueError)).
Proof. split_and!; vm_compute; reflexivity. Qed.

(** ** The sample inputs *)

(** A random source that returns 0, 1, 2, ... offers every node again and
    again: it does not withhold the other nodes, whatever the list with
    two distinct ids. *)
Lemma counting_offers_other (node_ids : list string) :
  (∃ a b, a ∈ node_ids ∧ b ∈ node_ids ∧ a ≠ b) →
  offers_other_nodes node_ids (λ i, i).
Proof.
  intros (a & b & Ha & Hb & Hab) p o.
  assert (∃ n, n ∈ node_ids ∧ n ≠ o) as (n & Hn & Hno).
  { destruct (decide (a = o)) as [<-|Hao]; [by exists b|by exists a]. }
  apply list_elem_of_lookup in Hn as [j Hj].
  pose proof (lookup_lt_Some _ _ _ Hj) as Hlt.
  exists (j + p * length node_ids)%nat, n,
         (advance (Rng (λ i, i) (j + p * length node_ids))).
  split; [nia|]. split; [|done].
  apply (choice_index _ _ j); [done|]. cbn [oracle cursor].
  by rewrite Nat.Div0.mod_add, Nat.mod_small.
Qed.

Lemma basic_redraw_zeros fuel : ∀ p,
  Basic.redraw fuel ["a"; "b"] "a" "a" (Rng (λ _, 0%nat) p) = OutOfFuel.
Proof.
  induction fuel as [|fuel IH]; intros p; [reflexivity|].
  exact (IH (S p)).
Qed.

Lemma group_redraw_zeros fuel : ∀ p,
  Group.redraw fuel ["a"; "b"] "a" "a" (Rng (λ _, 0%nat) p) = OutOfFuel.
Proof.
  induction fuel as [|fuel IH]; intros p; [reflexivity|].
  exact (IH (S p)).
Qed.

Lemma basic_redraw_zeros_then_one k : ∀ n p,
  (p + n = k)%nat →
  Basic.redraw (S n) ["a"; "b"] "a" "a"
    (Rng (λ i, if (i <? k)%nat then 0%nat else 1%nat) p)
  = Ret ("b", Rng (λ i, if (i <? k)%nat then 0%nat else 1%nat) (S k)).
Proof.
  induction n as [|n IH]; intros p Hp.
  - assert (p = k) as -> by lia.
    cbn [Basic.redraw]. change ((1 <? length ["a"; "b"])%nat && String.eqb "a" "a")
      with true. cbv iota.
    unfold choice, randbelow, Py.ret, Py.bind.
    cbn [oracle cursor length].
    rewrite Nat.ltb_irrefl. reflexivity.
  - cbn [Basic.redraw]. change ((1 <? length ["a"; "b"])%nat && String.eqb "a" "a")
      with true. cbv iota.
    unfold Py.bind at 1. unfold choice, randbelow, Py.ret, Py.bind.
    cbn [oracle cursor length].
    replace (p <? k)%nat with true by (symmetry; apply Nat.ltb_lt; lia).
    change (nth (0 `mod` 2) ["a"; "b"] "a") with "a".
    apply IH. lia.
Qed.

(** C7 fails as stated for the basic and the grouping generator: on the
    nodes [a], [b] with origin [a] their loop never ends when the random
    source keeps returning index 0, and for every [k] there is a random
    source with which it ends after exactly [k + 1] redraws. *)
Lemma C7_counterexample_unbounded_redraws :
  (∀ fuel, Basic.redraw fuel ["a"; "b"] "a" "a" Examples.zeros = OutOfFuel)
  ∧ (∀ fuel, Group.redraw fuel ["a"; "b"] "a" "a" Examples.zeros = OutOfFuel)
  ∧ (∀ k, ∃ g',
       Basic.redraw (S k) ["a"; "b"] "a" "a" (Examples.zeros_then_one k)
       = Ret ("b", g')
       ∧ (cursor g' - cursor (Examples.zeros_then_one k) = S k)%nat).
Proof.
  split_and!.
  - intros fuel. apply basic_redraw_zeros.
  - intros fuel. apply group_redraw_zeros.
  - intros k. eexists. split.
    + apply (basic_redraw_zeros_then_one k k 0%nat). lia.
    + simpl. lia.
Qed.

(** What the uniqueness of the node ids is needed for: with the id [a]
    listed twice (the node list of [Examples.doc_twice]) the loop of the
    basic script cannot end, whatever the random source, and the segmented
    script leaves every destination equal to its origin. *)
Lemma basic_redraw_repeated_id fuel : ∀ g,
  Basic.redraw fuel ["a"; "a"] "a" "a" g = OutOfFuel.
Proof.
  induction fuel as [|fuel IH]; intros g; [reflexivity|].
  cbn [Basic.redraw].
  change ((1 <? length ["a"; "a"])%nat && String.eqb "a" "a") with true.
  cbv iota. unfold Py.bind at 1.
  destruct (choice ["a"; "a"] g) as [[d g1]| |] eqn:E.
  - apply choice_Ret in E as [Hd _].
    assert (d = "a") as ->.
    { apply elem_of_cons in Hd as [->|Hd]; [done|].
      by apply list_elem_of_singleton in Hd. }
    apply IH.
  - unfold choice, Py.bind, randbelow, Py.ret in E. discriminate.
  - by apply choice_not_OutOfFuel in E.
Qed.

Lemma segmented_repeated_id_all_equal :
  ∃ written,
    Segmented.generate_and_write_trips_iterative
      ["a"; "a"] {["a" := ["l1"]]} 4 7200 reliable
      [Examples.morning; Examples.evening] (Finite (1 # 2)) Examples.counting
    = (written, Ret true)
    ∧ count_od_equal written = 4%nat.
Proof. eexists. split; vm_compute; reflexivity. Qed.

(** ** The theorems on the sample inputs *)

Lemma C3_start_times_in_range_witness :
  Forall (λ t, 0 ≤ start t ≤ 7200)
    (Basic.generate_and_write_trips_iterative
       5 ["a"; "b"] Examples.links_ab 3 7200 reliable Examples.counting).1
  ∧ Forall (λ t, 0 ≤ start t ≤ 7200
                 ∧ ∃ s, s ∈ [Examples.morning; Examples.evening]
                        ∧ Segmented.start_sec s ≤ start t
                          ≤ Z.min (Segmented.end_sec s) 7200)
      (Segmented.generate_and_write_trips_iterative
         ["a"; "b"] Examples.links_ab 3 7200 reliable
         [Examples.morning; Examples.evening] 0 Examples.counting).1.
Proof.
  destruct (C3_start_times_in_range ["a"; "b"] Examples.links_ab 3 7200
              reliable [Examples.morning; Examples.evening] 0)
    as (Hb & _ & Hs).
  split.
  - eapply Hb. apply surjective_pairing.
  - eapply Hs.
    + discriminate.
    + repeat constructor; simpl; lia.
    + apply surjective_pairing.
Defined.

Lemma proper_share_half (name : string) (a b : Z) :
  Segmented.proper_share (Segmented.Slot name a b (Finite (1 # 2))).
Proof. exists (1 # 2)%Q. by split_and!. Qed.

Lemma C4_od_equal_quota_witness :
  ∃ written,
    Segmented.generate_and_write_trips_iterative
      ["a"; "b"] Examples.links_ab 4 7200 reliable
      [Examples.morning; Examples.evening] (Finite (1 # 2)) Examples.counting
    = (written, Ret true)
    ∧ length written = 4%nat
    ∧ Z.of_nat (count_od_equal written) = 2.
Proof.
  destruct (C4_od_equal_quota ["a"; "b"] Examples.links_ab 4 7200 reliable
              [Examples.morning; Examples.evening] (1 # 2) Examples.counting)
    as (written & product & E & Hl & Hp & _ & _ & Hc & _).
  - intros H. vm_compute in H. discriminate.
  - discriminate.
  - repeat constructor.
  - repeat constructor; apply proper_share_half.
  - by intros k _.
  - split; [lia|]. vm_compute. discriminate.
  - unfold Qle. simpl. lia.
  - unfold Qle. simpl. lia.
  - exists written. split; [exact E|]. split; [exact Hl|].
    rewrite Hc.
    + vm_compute in Hp. injection Hp as <-. reflexivity.
    + apply two_nodes_distinct; [|simpl; lia].
      apply (bool_decide_unpack _). vm_compute. exact I.
Defined.

(** C4 fails as stated.  With 10 trips and the fraction 0.7 the script
    writes 7 trips with origin = destination, although the float that
    [0.7] denotes is below 7/10 and 10 times it has floor 6: the product
    is rounded up to the float 7.0.  With 50 trips and the fraction 0.58
    it writes 28 of them, although floor(50 * 0.58) = 29 for the decimal
    fraction: the float that [0.58] denotes is below 58/100 and the
    product is rounded to a float below 29.  And on a network file with
    two [node] elements of the same id, which loads with two entries in
    the node list, 4 trips asked with the fraction 0.5 all have origin =
    destination, where floor(4 * 0.5) = 2: no other node can be drawn. *)
Lemma C4_counterexample_float_product :
  (∃ written (f : Q),
     to_float (7 # 10) = Finite f
     ∧ Segmented.main MoreExamples.label (Some Examples.doc_ab) 10 reliable
         7200 Examples.two_hours_json (Finite f) Examples.counting
       = (written, Some (Segmented.Exit 0))
     ∧ length written = 10%nat
     ∧ count_od_equal written = 7%nat
     ∧ Qfloor (inject_Z 10 * f) = 6)
  ∧ (∃ written (f : Q),
       to_float (58 # 100) = Finite f
       ∧ Segmented.main MoreExamples.label (Some Examples.doc_ab) 50 reliable
           7200 Examples.two_hours_json (Finite f) Examples.counting
         = (written, Some (Segmented.Exit 0))
       ∧ length written = 50%nat
       ∧ count_od_equal written = 28%nat
       ∧ Qfloor (inject_Z 50 * (58 # 100)) = 29)
  ∧ (∃ written node_ids outgoing_links,
       Segmented.parse_network_iterative (Some Examples.doc_twice)
       = Some (node_ids, outgoing_links)
       ∧ length node_ids = 2%nat
       ∧ Segmented.main MoreExamples.label (Some Examples.doc_twice) 4
           reliable 7200 Examples.two_hours_json (Finite (1 # 2))
           Examples.counting
         = (written, Some (Segmented.Exit 0))
       ∧ length written = 4%nat
       ∧ count_od_equal written = 4%nat
       ∧ Qfloor (inject_Z 4 * (1 # 2)) = 2).
Proof.
  split_and!.
  - eexists _, _. split; [vm_compute; reflexivity|].
    split; [vm_compute; reflexivity|]. split_and!; vm_compute; reflexivity.
  - eexists _, _. split; [vm_compute; reflexivity|].
    split; [vm_compute; reflexivity|]. split_and!; vm_compute; reflexivity.
  - eexists _, _, _. split; [vm_compute; reflexivity|].
    split; [reflexivity|].
    split; [vm_compute; reflexivity|]. split_and!; vm_compute; reflexivity.
Qed.

Lemma C5_aggregation_counts_witness :
  ∃ (out : list trip) (raws : list Group.raw_trip),
    Group.generate_aggregated_and_sorted_trips
      10 ["a"; "b"] Examples.links_ab 6 1 Examples.counting = Ret out
    ∧ length raws = 6%nat
    ∧ NoDup ((λ t, (origin t, destination t, start t)) <$> out)
    ∧ sum_list_with count out = length raws.
Proof.
  destruct (Group.generate_aggregated_and_sorted_trips
              10 ["a"; "b"] Examples.links_ab 6 1 Examples.counting)
    as [out| |] eqn:E; [|vm_compute in E; discriminate..].
  destruct (C5_aggregation_counts _ _ _ _ _ _ _ E)
    as (raws & Htie & Hnd & _ & _ & Hsum).
  exists out, raws. split; [reflexivity|]. split; [|split; [exact Hnd|exact Hsum]].
  destruct Htie as [[Hv _]|[Hlen _]]; [|exact Hlen].
  vm_compute in Hv. discriminate.
Defined.

Lemma C6_sorted_and_named_witness :
  ∃ out,
    Group.generate_aggregated_and_sorted_trips
      10 ["a"; "b"] Examples.links_ab 6 1 Examples.counting = Ret out
    ∧ (∀ i j ti tj, (i ≤ j)%nat → out !! i = Some ti → out !! j = Some tj →
         start ti ≤ start tj)
    ∧ (∀ i t, out !! i = Some t → name t = "trip_" +:+ pretty (Z.of_nat i + 1)).
Proof.
  destruct (Group.generate_aggregated_and_sorted_trips
              10 ["a"; "b"] Examples.links_ab 6 1 Examples.counting)
    as [out| |] eqn:E; [|vm_compute in E; discriminate..].
  exists out. split; [reflexivity|].
  exact (proj2 (C6_sorted_and_named _ _ _ _ _ _ _ E)).
Defined.

Lemma C7_segmented_destination_bounded_witness :
  ∃ d g',
    Segmented.select_destination ["a"; "b"] "a" false false Examples.zeros
    = Ret (d, g')
    ∧ d ≠ "a"
    ∧ (cursor g' - cursor Examples.zeros ≤ 9)%nat.
Proof.
  destruct (C7_segmented_destination_bounded ["a"; "b"] "a" Examples.zeros)
    as ((d0 & g0 & d1 & g1 & d & g' & _ & _ & _ & H & _ & _ & Hc & Hne) & _).
  - discriminate.
  - exists d, g'. split; [exact H|]. split; [|exact Hc].
    apply Hne. exists "b". split; [by right; left|discriminate].
Defined.

Lemma C10_destination_differs_witness :
  Forall (λ t, destination t ≠ origin t)
    (Basic.generate_and_write_trips_iterative
       5 ["a"; "b"] Examples.links_ab 3 7200 reliable Examples.counting).1
  ∧ ∃ out,
      Group.generate_aggregated_and_sorted_trips
        10 ["a"; "b"] Examples.links_ab 6 1 Examples.counting = Ret out
      ∧ Forall (λ t, destination t ≠ origin t) out.
Proof.
  destruct (C10_destination_differs ["a"; "b"] Examples.links_ab)
    as (Hb & Hg); [simpl; lia|].
  split.
  - eapply Hb. apply surjective_pairing.
  - destruct (Group.generate_aggregated_and_sorted_trips
                10 ["a"; "b"] Examples.links_ab 6 1 Examples.counting)
      as [out| |] eqn:E; [|vm_compute in E; discriminate..].
    exists out. split; [reflexivity|]. exact (Hg _ _ _ _ _ E).
Defined.

(** * Further lemmas *)

(** ** The loaders *)

Section LoaderMore.

(** [outgoing_links.get(k, [])] *)
Local Abbreviation links_of m k := (default [] (m !! k) : list string).

Local Abbreviation links_from items k :=
  ((List.filter (λ p : string * string, bool_decide (p.1 = k))
                (link_elements items)).*2).

Lemma iterate_app items1 : ∀ items2 st,
  iterate (items1 ++ items2) st
  = match iterate items1 st with
    | Some st' => iterate items2 st'
    | None => None
    end.
Proof.
  induction items1 as [|[ev elem|] items1 IH]; intros items2 st; simpl; [done| |done].
  apply IH.
Qed.

Lemma iterate_parse_error items : ∀ st,
  XmlParseError ∈ items → iterate items st = None.
Proof.
  induction items as [|[ev elem|] items IH]; intros st Hin; simpl.
  - by apply elem_of_nil in Hin.
  - apply IH. apply elem_of_cons in Hin as [?|?]; [done|done].
  - done.
Qed.

Lemma iterate_Some_no_error items : ∀ st st',
  iterate items st = Some st' → XmlParseError ∉ items.
Proof.
  intros st st' H Hin. by rewrite (iterate_parse_error _ _ Hin) in H.
Qed.

Lemma add_link_nonempty f i m k ls :
  (∀ k ls, m !! k = Some ls → ls ≠ []) →
  add_link f i m !! k = Some ls → ls ≠ [].
Proof.
  intros Hm. unfold add_link. destruct (decide (f = k)) as [->|Hne].
  - rewrite lookup_insert_eq. intros [= <-]. by destruct (default [] (m !! k)).
  - rewrite lookup_insert_ne by done. apply Hm.
Qed.

Lemma on_item_links_nonempty st ev elem :
  (∀ k ls, outgoing_links st !! k = Some ls → ls ≠ []) →
  ∀ k ls, outgoing_links (on_item st ev elem) !! k = Some ls → ls ≠ [].
Proof.
  intros Hm k ls. unfold on_item.
  destruct ev; repeat case_match; simpl; try apply Hm.
  by apply add_link_nonempty.
Qed.

Lemma iterate_links_nonempty items : ∀ st st',
  iterate items st = Some st' →
  (∀ k ls, outgoing_links st !! k = Some ls → ls ≠ []) →
  ∀ k ls, outgoing_links st' !! k = Some ls → ls ≠ [].
Proof.
  induction items as [|[ev elem|] items IH]; intros st st' H Hm; simpl in H.
  - by injection H as <-.
  - eapply IH; [done|]. by apply on_item_links_nonempty.
  - done.
Qed.

Lemma loaded_links_nonempty_aux items st :
  iterate items initial = Some st →
  ∀ k, valid_origin (outgoing_links st) k = true ↔ is_Some (outgoing_links st !! k).
Proof.
  intros H k. unfold valid_origin.
  destruct (outgoing_links st !! k) as [[|l ls]|] eqn:E.
  - exfalso. eapply (iterate_links_nonempty _ _ _ H); [|done|done].
    intros k' ls'. simpl. by rewrite lookup_empty.
  - split; [by eauto|done].
  - split; [done|]. by intros [? [=]].
Qed.

Lemma links_of_add_link f i m k :
  links_of (add_link f i m) k
  = links_of m k ++ (if decide (k = f) then [i] else []).
Proof.
  unfold add_link. destruct (decide (k = f)) as [->|Hne].
  - by rewrite lookup_insert_eq.
  - rewrite lookup_insert_ne by done. by rewrite app_nil_r.
Qed.

Lemma on_item_links st ev elem k :
  ∃ new, links_of (outgoing_links (on_item st ev elem)) k
         = links_of (outgoing_links st) k ++ new
         ∧ new `sublist_of` links_from [Item ev elem] k.
Proof.
  unfold on_item, link_elements.
  destruct ev; simpl.
  2:{ exists []. rewrite app_nil_r. split; [by repeat case_match|done]. }
  destruct (String.eqb (tag elem) "nodes") eqn:E1.
  { exists []. rewrite app_nil_r. split; [done|apply sublist_nil_l]. }
  destruct (String.eqb (tag elem) "links") eqn:E2.
  { exists []. rewrite app_nil_r. split; [done|apply sublist_nil_l]. }
  destruct (context_is ctx_nodes (ctx st) && String.eqb (tag elem) "node") eqn:E3.
  { exists []. rewrite app_nil_r. split; [by case_match|apply sublist_nil_l]. }
  destruct (context_is ctx_links (ctx st) && String.eqb (tag elem) "link") eqn:E4.
  2:{ exists []. rewrite app_nil_r. split; [done|apply sublist_nil_l]. }
  apply andb_prop in E4 as [_ ->].
  destruct (get_truthy elem "from") as [f|]; simpl.
  2:{ exists []. rewrite app_nil_r. split; [done|apply sublist_nil_l]. }
  destruct (get_truthy elem "id") as [i|]; simpl.
  2:{ exists []. rewrite app_nil_r. split; [done|apply sublist_nil_l]. }
  rewrite links_of_add_link.
  exists (if decide (k = f) then [i] else []). split; [done|].
  destruct (decide (k = f)) as [->|Hne]; simpl.
  - by rewrite bool_decide_eq_true_2.
  - apply sublist_nil_l.
Qed.

Lemma link_elements_cons it items :
  link_elements (it :: items) = link_elements [it] ++ link_elements items.
Proof. unfold link_elements. simpl. by case_match. Qed.

Lemma links_from_cons it items k :
  links_from (it :: items) k = links_from [it] k ++ links_from items k.
Proof.
  rewrite link_elements_cons. by rewrite List.filter_app, fmap_app.
Qed.

Lemma iterate_links items : ∀ st st' k,
  iterate items st = Some st' →
  ∃ new, links_of (outgoing_links st') k = links_of (outgoing_links st) k ++ new
         ∧ new `sublist_of` links_from items k.
Proof.
  induction items as [|[ev elem|] items IH]; intros st st' k H; simpl in H.
  - injection H as <-. exists []. by rewrite app_nil_r.
  - destruct (IH _ _ k H) as (new2 & E2 & S2).
    destruct (on_item_links st ev elem k) as (new1 & E1 & S1).
    exists (new1 ++ new2). split.
    + by rewrite E2, E1, (assoc_L (++)).
    + rewrite links_from_cons. by apply sublist_app.
  - done.
Qed.

Lemma loaded_links_sublist items st k ls :
  iterate items initial = Some st →
  outgoing_links st !! k = Some ls →
  ls `sublist_of` links_from items k.
Proof.
  intros H Hk. destruct (iterate_links _ _ _ k H) as (new & E & S).
  simpl in E. rewrite lookup_empty in E. simpl in E. rewrite Hk in E.
  simpl in E. by subst.
Qed.

(** Outside a [nodes] region no node is read, outside a [links] region no
    link. *)
Lemma on_item_no_region st ev elem :
  tag elem ≠ "nodes" → tag elem ≠ "links" → ctx st = None →
  on_item st ev elem = st.
Proof.
  intros H1 H2 Hc. apply String.eqb_neq in H1, H2.
  unfold on_item. rewrite H1, H2, Hc. simpl. by destruct ev.
Qed.

Lemma iterate_no_region items : ∀ st st',
  (∀ ev elem, Item ev elem ∈ items → tag elem ≠ "nodes" ∧ tag elem ≠ "links") →
  ctx st = None →
  iterate items st = Some st' → st' = st.
Proof.
  induction items as [|[ev elem|] items IH]; intros st st' Hall Hc H;
    cbn [iterate] in H.
  - by injection H.
  - destruct (Hall ev elem (list_elem_of_here _ _)) as [H1 H2].
    rewrite (on_item_no_region st ev elem) in H by done.
    apply IH; [|done|done]. intros ev' elem' Hin. apply (Hall ev').
    by apply list_elem_of_further.
  - done.
Qed.

Lemma iterate_total items : ∀ st,
  XmlParseError ∉ items → ∃ st', iterate items st = Some st'.
Proof.
  induction items as [|[ev elem|] items IH]; intros st Hn; simpl.
  - by eexists.
  - apply IH. intros Hin. apply Hn. by right.
  - exfalso. apply Hn. by left.
Qed.

Lemma parse_Some file nodes links :
  Basic.parse_network_iterative file = Some (nodes, links)
  ∨ Segmented.parse_network_iterative file = Some (nodes, links)
  ∨ Group.parse_network_iterative file = Some (nodes, links) →
  ∃ items st, file = Some items ∧ iterate items initial = Some st
              ∧ nodes = node_ids st ∧ links = outgoing_links st.
Proof.
  intros [H|[H|H]].
  - by apply parse_basic_Some.
  - by apply parse_segmented_Some.
  - by apply parse_group_Some.
Qed.

End LoaderMore.

(** ** The time slots of the command line *)

Section TimeSlotsMore.

Variable default_name : nat → float → float → string.
Variable max_time : Z.

(** An object that passes the checks of the reading loop: the three keys
    are there, their values are finite floats, and
    [start_hour >= 0], [end_hour > start_hour], [0 < percentage <= 1]. *)
Local Abbreviation accepted d :=
  (∃ (sh eh p : Segmented.number) (a e q : Q),
     Segmented.sd_start_hour d = Some sh
     ∧ Segmented.sd_end_hour d = Some eh
     ∧ Segmented.sd_percentage d = Some p
     ∧ Segmented.float_of sh = Ret (Finite a)
     ∧ Segmented.float_of eh = Ret (Finite e)
     ∧ Segmented.float_of p = Ret (Finite q)
     ∧ (0 <= a)%Q ∧ (a < e)%Q ∧ (0 < q)%Q ∧ (q <= 1)%Q).

(** A slot whose start is the start hour of an object of [defs], in
    seconds. *)
Local Abbreviation starts_from defs s :=
  (∃ (d : Segmented.slot_def) sh (a v : Q),
     d ∈ defs ∧ Segmented.sd_start_hour d = Some sh
     ∧ Segmented.float_of sh = Ret (Finite a)
     ∧ round64 (a * 3600) = Some v
     ∧ Segmented.start_sec s = int_of v).

Lemma map_result_Ret {A B} (f : A → result B) (l : list A) : ∀ l',
  map_result f l = Ret l' → Forall2 (λ x y, f x = Ret y) l l'.
Proof.
  induction l as [|x l IH]; intros l'; cbn [map_result].
  - intros [= <-]. constructor.
  - destruct (f x) as [y| |] eqn:E; [|done..]. cbn [rbind].
    destruct (map_result f l) as [ys| |]; [|done..]. cbn [rbind].
    intros [= <-]. constructor; [done|]. by apply IH.
Qed.

Lemma map_result_Raise {A B} (f : A → result B) (l : list A) e :
  map_result f l = Raise e → ∃ x, x ∈ l ∧ f x = Raise e.
Proof.
  induction l as [|x l IH]; cbn [map_result]; [done|].
  destruct (f x) as [y| |] eqn:E; [|intros [= <-]; exists x; by split;
                                      [left|]|done].
  cbn [rbind]. destruct (map_result f l) as [ys| |]; [done| |done].
  cbn [rbind]. intros [= <-]. destruct IH as (x' & Hin & Hx); [done|].
  exists x'. split; [by right|done].
Qed.

Lemma map_result_not_OutOfFuel {A B} (f : A → result B) (l : list A) :
  (∀ x, f x ≠ OutOfFuel) → map_result f l ≠ OutOfFuel.
Proof.
  intros Hf. induction l as [|x l IH]; cbn [map_result]; [done|].
  specialize (Hf x). destruct (f x) as [y| |]; [|done..]. cbn [rbind].
  by destruct (map_result f l) as [ys| |].
Qed.

Lemma float_of_Raise n e : Segmented.float_of n = Raise e → e = OverflowError.
Proof.
  destruct n as [z|q]; [|done]. cbn [Segmented.float_of].
  unfold float_of_int. destruct (round64 _); [done|]. by intros [= <-].
Qed.

Lemma sort_key_Raise d e : Segmented.sort_key d = Raise e → e = OverflowError.
Proof.
  unfold Segmented.sort_key. destruct (Segmented.sd_start_hour d); [|done].
  apply float_of_Raise.
Qed.

Lemma sort_key_not_OutOfFuel d : Segmented.sort_key d ≠ OutOfFuel.
Proof.
  unfold Segmented.sort_key. destruct (Segmented.sd_start_hour d); [|done].
  apply float_of_not_OutOfFuel.
Qed.

Lemma insert_by_key_Permutation x l : Segmented.insert_by_key x l ≡ₚ x :: l.
Proof.
  induction l as [|y l IH]; [done|]. cbn [Segmented.insert_by_key].
  destruct (flt _ _); [|done]. rewrite IH. apply perm_swap.
Qed.

(** Sorting keeps the objects. *)
Lemma sort_slots_Ret l l' : Segmented.sort_slots l = Ret l' → l' ≡ₚ l.
Proof.
  unfold Segmented.sort_slots.
  destruct (map_result _ l) as [keyed| |] eqn:E; [|done..]. cbn [rbind].
  intros [= <-]. apply map_result_Ret in E.
  assert (keyed.*2 = l) as Hk.
  { induction E as [|x [k y] l keyed Hx _ IH]; [done|].
    rewrite fmap_cons, IH. f_equal.
    destruct (Segmented.sort_key x); [|done..]. by injection Hx as _ <-. }
  rewrite <- Hk. apply fmap_Permutation. clear.
  induction keyed as [|x keyed IH]; [done|].
  cbn [foldr]. by rewrite insert_by_key_Permutation, IH.
Qed.

Lemma sort_slots_Raise l e :
  Segmented.sort_slots l = Raise e → e = OverflowError.
Proof.
  unfold Segmented.sort_slots.
  destruct (map_result _ l) as [keyed| |] eqn:E; [done| |done]. cbn [rbind].
  intros [= <-]. apply map_result_Raise in E as (x & _ & Hx).
  pose proof (sort_key_Raise x) as Hk.
  destruct (Segmented.sort_key x); [done| |done]. injection Hx as <-.
  by apply Hk.
Qed.

Lemma sort_slots_not_OutOfFuel l : Segmented.sort_slots l ≠ OutOfFuel.
Proof.
  unfold Segmented.sort_slots.
  pose proof (map_result_not_OutOfFuel
                (λ x, let+ k := Segmented.sort_key x in Ret (k, x)) l) as H.
  destruct (map_result _ l) as [keyed| |]; [done..|].
  exfalso. apply H; [|done]. intros x.
  pose proof (sort_key_not_OutOfFuel x).
  by destruct (Segmented.sort_key x).
Qed.

Lemma int_float_seconds_Raise x e :
  x ≠ NaN → int_float (fmul x 3600) = Raise e → e = OverflowError.
Proof.
  intros Hx. destruct x as [a|s|]; [| |done].
  - cbn [fmul]. unfold to_float. destruct (round64 _); [done|].
    cbn [int_float]. by intros [= <-].
  - destruct s; vm_compute; by intros [= <-].
Qed.

(** The reading loop raises nothing but OverflowError. *)
Lemma read_slots_Raise defs : ∀ i st e,
  Segmented.read_slots default_name max_time i defs st = Raise e →
  e = OverflowError.
Proof.
  induction defs as [|d defs IH]; intros i [[processed total] last] e;
    cbn [Segmented.read_slots]; [done|].
  destruct (Segmented.sd_start_hour d) as [sh|]; [|done].
  destruct (Segmented.sd_end_hour d) as [eh|]; [|done].
  destruct (Segmented.sd_percentage d) as [p|]; [|done].
  destruct (Segmented.float_of sh) as [x| |] eqn:Ex;
    [|intros [= <-]; by apply float_of_Raise in Ex|done].
  destruct (Segmented.float_of eh) as [y| |] eqn:Ey;
    [|intros [= <-]; by apply float_of_Raise in Ey|done].
  destruct (Segmented.float_of p) as [z| |] eqn:Ez;
    [|intros [= <-]; by apply float_of_Raise in Ez|done].
  cbn [rbind]. destruct (_ || _); [done|].
  pose proof (float_of_not_NaN _ _ Ex) as Hx.
  pose proof (float_of_not_NaN _ _ Ey) as Hy.
  destruct (int_float (fmul x 3600)) as [start_sec| |] eqn:Es;
    [|intros [= <-]; by apply int_float_seconds_Raise in Es|done].
  destruct (int_float (fmul y 3600)) as [end_sec| |] eqn:Ee;
    [|intros [= <-]; by apply int_float_seconds_Raise in Ee|done].
  cbn [rbind]. destruct (_ <=? _); [done|].
  destruct (_ <? _); apply IH.
Qed.

(** What the reading loop returns comes from objects that pass the
    checks. *)
Lemma read_slots_objects defs : ∀ i processed total last slots total',
  Segmented.read_slots default_name max_time i defs (processed, total, last)
  = Ret (Some (slots, total')) →
  Forall (λ d, accepted d) defs
  ∧ Forall (λ s, s ∈ processed ∨ starts_from defs s) slots.
Proof.
  induction defs as [|d defs IH]; intros i processed total last slots total'.
  - cbn [Segmented.read_slots]. intros [= <- <-]. split; [constructor|].
    apply Forall_forall. by left.
  - intros H.
    apply read_slots_cons in H
      as (sh & eh & p & a & e & q & vs & ve & Hsh & Heh & Hp & Ha & He & Hq
          & Ha0 & Hae & Hq0 & Hq1 & Hvs & Hve & Hlast & H).
    assert (Hacc : accepted d)
      by (exists sh, eh, p, a, e, q; by split_and!).
    destruct (max_time <? int_of vs).
    + apply IH in H as [HA HS]. split; [by constructor|].
      eapply Forall_impl; [exact HS|]. simpl.
      intros s [Hs|(d' & sh' & a' & v' & Hd' & Hrest)]; [by left|].
      right. exists d', sh', a', v'. split; [by right|done].
    + apply IH in H as [HA HS]. split; [by constructor|].
      eapply Forall_impl; [exact HS|]. simpl.
      intros s [Hs|(d' & sh' & a' & v' & Hd' & Hrest)].
      * apply elem_of_app in Hs as [Hs|Hs]; [by left|]. right.
        apply list_elem_of_singleton in Hs. subst s.
        exists d, sh, a, vs. split; [by left|]. by split_and!.
      * right. exists d', sh', a', v'. split; [by right|done].
Qed.

(** [parse_time_slots_json] returns or raises OverflowError. *)
Lemma parse_time_slots_json_Raise defs e :
  Segmented.parse_time_slots_json default_name defs max_time = Raise e →
  e = OverflowError.
Proof.
  unfold Segmented.parse_time_slots_json.
  destruct (Segmented.sort_slots defs) as [sorted| |] eqn:Esort;
    [|intros [= <-]; by apply sort_slots_Raise in Esort|done].
  cbn [rbind].
  destruct (Segmented.read_slots _ _ _ _ _) as [[[processed total]|]| |] eqn:E;
    [|done|intros [= <-]; by apply read_slots_Raise in E|done].
  cbn [rbind]. destruct (negb _).
  - destruct (flt 0 total) eqn:Epos; [|done].
    rewrite normalise_all by done. cbn [rbind]. by destruct (_ <$> _).
  - cbn [rbind]. by destruct processed.
Qed.

Lemma parse_time_slots_json_not_OutOfFuel defs :
  Segmented.parse_time_slots_json default_name defs max_time ≠ OutOfFuel.
Proof.
  unfold Segmented.parse_time_slots_json.
  pose proof (sort_slots_not_OutOfFuel defs).
  destruct (Segmented.sort_slots defs) as [sorted| |]; [|done..].
  cbn [rbind].
  pose proof (read_slots_not_OutOfFuel default_name max_time sorted 0
                ([], Finite 0, -1)).
  destruct (Segmented.read_slots _ _ _ _ _) as [[[processed total]|]| |];
    [|done..].
  cbn [rbind]. destruct (negb _).
  - destruct (flt 0 total) eqn:Epos; [|done].
    rewrite normalise_all by done. cbn [rbind]. by destruct (_ <$> _).
  - cbn [rbind]. by destruct processed.
Qed.

(** The objects behind the slots that [parse_time_slots_json] returns. *)
Lemma parse_time_slots_json_objects defs slots :
  Segmented.parse_time_slots_json default_name defs max_time
  = Ret (Some slots) →
  Forall (λ d, accepted d) defs
  ∧ Forall (λ s, starts_from defs s) slots.
Proof.
  unfold Segmented.parse_time_slots_json.
  destruct (Segmented.sort_slots defs) as [sorted| |] eqn:Esort; [|done..].
  apply sort_slots_Ret in Esort. cbn [rbind].
  destruct (Segmented.read_slots _ _ _ _ _) as [[[processed total]|]| |] eqn:E;
    [|done..].
  cbn [rbind]. apply read_slots_objects in E as [HA HS].
  assert (HS' : Forall (λ s, starts_from defs s) processed).
  { eapply Forall_impl; [exact HS|]. simpl.
    intros s [Hs|(d & sh & a & v & Hd & Hrest)]; [by apply elem_of_nil in Hs|].
    exists d, sh, a, v. split; [by rewrite <- Esort|done]. }
  rewrite Esort in HA. intros H. split; [done|]. revert H.
  destruct (negb _).
  - destruct (flt 0 total) eqn:Epos; [|done].
    rewrite normalise_all by done. cbn [rbind].
    destruct (_ <$> processed) as [|s' l'] eqn:Ef; [done|].
    intros [= <-]. rewrite <- Ef. apply Forall_fmap.
    eapply Forall_impl; [exact HS'|]. done.
  - cbn [rbind]. destruct processed as [|s processed]; [done|].
    by intros [= <-].
Qed.

Lemma StronglySorted_lookup_lt {A} (R : A → A → Prop) (l : list A) i j x y :
  StronglySorted R l → (i < j)%nat →
  l !! i = Some x → l !! j = Some y → R x y.
Proof.
  intros HS. revert i j. induction HS as [|a l HS IH Ha]; intros i j Hij Hi Hj.
  - done.
  - destruct j as [|j]; [lia|]. destruct i as [|i]; simpl in *.
    + injection Hi as <-. eapply Forall_forall in Ha; [exact Ha|].
      by eapply list_elem_of_lookup_2.
    + eapply IH; [|exact Hi|exact Hj]. lia.
Qed.

End TimeSlotsMore.

(** ** How the writing loop ends *)

Section WriteLoopMore.

Variable body : Z → M trip.

Lemma write_loop_failure indices : ∀ written g w r,
  write_loop body indices written g = (w, r) →
  (∃ g', r = Ret g')
  ∨ (∃ i g0, i ∈ indices
       ∧ ((∃ e, r = Raise e ∧ body i g0 = Raise e)
          ∨ (r = OutOfFuel ∧ body i g0 = OutOfFuel))).
Proof.
  induction indices as [|i rest IH]; intros written g w r; simpl.
  - intros [= <- <-]. left. by eexists.
  - destruct (body i g) as [[t g1]|e|] eqn:E.
    + intros H. apply IH in H as [?|(j & g0 & Hj & H)]; [by left|].
      right. exists j, g0. split; [by right|done].
    + intros [= <- <-]. right. exists i, g. split; [by left|].
      left. by exists e.
    + intros [= <- <-]. right. exists i, g. split; [by left|]. by right.
Qed.

Lemma write_loop_lookup indices g w r k t :
  write_loop body indices [] g = (w, r) →
  w !! k = Some t →
  ∃ i, indices !! k = Some i ∧ produced body i t.
Proof.
  intros Hw Hk. apply write_loop_spec in Hw as (new & -> & HF & _).
  simpl in Hk.
  destruct (Forall2_lookup_r _ _ _ _ _ HF Hk) as (i & Hi & Hp).
  apply lookup_take_Some in Hi as [Hi _]. by exists i.
Qed.

End WriteLoopMore.

(** How the loop ends when it writes through the file system: with
    every write accepted, with a write refused, or the way the making of
    a trip ends. *)
Lemma write_loop_io output_file offset make indices : ∀ written g w r,
  write_loop (write_trip output_file offset make) indices written g = (w, r) →
  (∃ g', r = Ret g' ∧ write_loop make indices written g = (w, Ret g')
         ∧ ∀ i, i ∈ indices → output_file (offset + Z.to_nat i)%nat = true)
  ∨ (r = Raise IOError
     ∧ ∃ i, i ∈ indices ∧ output_file (offset + Z.to_nat i)%nat = false)
  ∨ (∃ i g0, i ∈ indices
       ∧ ((∃ e, r = Raise e ∧ make i g0 = Raise e)
          ∨ (r = OutOfFuel ∧ make i g0 = OutOfFuel))).
Proof.
  induction indices as [|i rest IH]; intros written g w r; simpl.
  - intros [= <- <-]. left. exists g. split; [done|]. split; [done|].
    intros i Hi. by apply elem_of_nil in Hi.
  - destruct (write_trip output_file offset make i g) as [[t g1]|e|] eqn:E.
    + apply write_trip_Ret in E as [Em Hf]. rewrite Em. intros H.
      apply IH in H
        as [(g' & -> & Hm & Hall)|[(-> & j & Hj & Hfj)|(j & g0 & Hj & H)]].
      * left. exists g'. split; [done|]. split; [done|].
        intros j [->|Hj]%elem_of_cons; [done|by apply Hall].
      * right. left. split; [done|]. exists j. split; [by right|done].
      * right. right. exists j, g0. split; [by right|done].
    + intros [= <- <-].
      apply write_trip_Raise in E as [Em|(-> & Hf & _)].
      * right. right. exists i, g. split; [by left|]. left. by exists e.
      * right. left. split; [done|]. exists i. split; [by left|done].
    + intros [= <- <-]. apply write_trip_OutOfFuel in E.
      right. right. exists i, g. split; [by left|]. by right.
Qed.

(** Trip [k] of the file was made for index [k] of the loop. *)
Lemma file_lookup output_file offset make n indices g w r k t :
  with_open output_file n
    (write_loop (write_trip output_file offset make) indices []) g
  = (w, r) →
  w !! k = Some t →
  ∃ i, indices !! k = Some i ∧ produced make i t.
Proof.
  intros Hw Hk. apply with_open_inv in Hw as [[-> _]|(r0 & Hw & _)]; [done|].
  apply write_loop_through_io in Hw as (j & r1 & Hw & _).
  destruct (write_loop_lookup _ _ _ _ _ _ _ Hw Hk) as (i & Hi & Hp).
  exists i. split; [|done]. by apply lookup_take_Some in Hi as [? _].
Qed.

(** How a generator ends once it has reached its [try] block. *)
Lemma file_outcomes output_file offset make indices n g w r :
  length indices = n →
  (∀ k i, indices !! k = Some i → (offset + Z.to_nat i = 3 + k)%nat) →
  try_except
    (with_open output_file n
       (write_loop (write_trip output_file offset make) indices []) g)
  = (w, r) →
  (r = Ret true ∧ accepts output_file n
   ∧ ∃ g', write_loop make indices [] g = (w, Ret g'))
  ∨ (r = Ret false ∧ refuses output_file n)
  ∨ (r = Ret false ∧ ∃ i g0 e, i ∈ indices ∧ make i g0 = Raise e)
  ∨ (r = OutOfFuel ∧ ∃ i g0, i ∈ indices ∧ make i g0 = OutOfFuel).
Proof.
  intros Hlen Hidx. unfold with_open.
  destruct (output_file 0%nat) eqn:E0.
  2:{ simpl. intros [= <- <-]. right. left. split; [done|].
      exists 0%nat. split; [lia|done]. }
  destruct (output_file 1%nat) eqn:E1.
  2:{ simpl. intros [= <- <-]. right. left. split; [done|].
      exists 1%nat. split; [lia|done]. }
  destruct (output_file 2%nat) eqn:E2.
  2:{ simpl. intros [= <- <-]. right. left. split; [done|].
      exists 2%nat. split; [lia|done]. }
  cbn [andb negb].
  destruct (write_loop _ indices [] g) as [w0 r0] eqn:Ew.
  apply write_loop_io in Ew
    as [(g' & -> & Hm & Hall)|[(-> & i & Hi & Hf)|(i & g0 & Hi & H)]].
  - destruct (output_file (n + 3)%nat) eqn:E3.
    2:{ simpl. intros [= <- <-]. right. left. split; [done|].
        exists (n + 3)%nat. split; [lia|done]. }
    destruct (output_file (n + 4)%nat) eqn:E4.
    2:{ simpl. intros [= <- <-]. right. left. split; [done|].
        exists (n + 4)%nat. split; [lia|done]. }
    simpl. intros [= <- <-]. left. split; [done|]. split; [|by exists g'].
    intros k Hk.
    destruct (decide (k < 3)%nat) as [Hsmall|Hbig].
    { destruct k as [|[|[|k]]]; [done..|lia]. }
    destruct (decide (k = n + 3)%nat) as [->|H3]; [done|].
    destruct (decide (k = n + 4)%nat) as [->|H4]; [done|].
    destruct (lookup_lt_is_Some_2 indices (k - 3)) as [i Hi]; [lia|].
    rewrite <- (Hall i (list_elem_of_lookup_2 _ _ _ Hi)).
    f_equal. rewrite (Hidx _ _ Hi). lia.
  - simpl. intros [= <- <-]. right. left. split; [done|].
    apply list_elem_of_lookup in Hi as [k Hk].
    exists (offset + Z.to_nat i)%nat. split; [|done].
    rewrite (Hidx _ _ Hk). apply lookup_lt_Some in Hk. lia.
  - destruct H as [(e & -> & Hm)|[-> Hm]]; simpl; intros [= <- <-].
    + right. right. left. split; [done|]. by exists i, g0, e.
    + right. right. right. split; [done|]. by exists i, g0.
Qed.

Lemma trip_names_NoDup (written : list trip) :
  (∀ k t, written !! k = Some t → name t = "trip_" +:+ pretty (Z.of_nat k + 1)) →
  NoDup (name <$> written).
Proof.
  intros Hn. apply NoDup_alt. intros i j x Hi Hj.
  apply list_lookup_fmap_Some in Hi as (ti & -> & Hi).
  apply list_lookup_fmap_Some in Hj as (tj & Hx & Hj).
  rewrite (Hn _ _ Hi), (Hn _ _ Hj) in Hx.
  apply String.app_inj in Hx. apply pretty_Z_inj in Hx. lia.
Qed.

Lemma nonempty_list_false {A} (l : list A) : nonempty_list l = false → l = [].
Proof. by destruct l. Qed.

Lemma accepts_or_refuses output_file n :
  accepts output_file n ∨ refuses output_file n.
Proof.
  unfold accepts, refuses.
  induction (n + 4)%nat as [|m IH].
  - destruct (output_file 0%nat) eqn:E.
    + left. intros k Hk. by assert (k = 0%nat) as -> by lia.
    + right. exists 0%nat. by split.
  - destruct IH as [IH|(k & Hk & Hf)].
    + destruct (output_file (S m)) eqn:E.
      * left. intros k Hk.
        destruct (decide (k = S m)) as [->|Hne]; [done|]. apply IH. lia.
      * right. exists (S m). by split.
    + right. exists k. split; [lia|done].
Qed.

Lemma accepts_not_refuses output_file n :
  accepts output_file n → ¬ refuses output_file n.
Proof. intros Ha (k & Hk & Hf). by rewrite (Ha k Hk) in Hf. Qed.

Lemma works_accepts output_file n :
  (∀ k, output_file k = true) → accepts output_file n.
Proof. intros H k _. apply H. Qed.

(** ** Quotas and failures of the segmented generator *)

Section SegmentedMore.

Variable num_trips : Z.
Variable max_time : Z.

Local Abbreviation in_slot s t :=
  (Segmented.start_sec s ≤ t ≤ Z.min (Segmented.end_sec s) max_time).
Local Abbreviation share s q := (Segmented.rounded_share num_trips s = Ret q).

Lemma useless_spec s :
  Segmented.useless max_time s = true
  ↔ Z.min (Segmented.end_sec s) max_time < Segmented.start_sec s.
Proof.
  unfold Segmented.useless. rewrite orb_true_iff, !Z.ltb_lt. lia.
Qed.

Lemma sum_Z_cons x l : sum_Z (x :: l) = x + sum_Z l.
Proof. reflexivity. Qed.

Lemma allocate_slot_quota n i s acc alloc g acc' alloc' g' :
  Segmented.allocate_slot num_trips max_time n i s (acc, alloc) g
  = Ret ((acc', alloc'), g') →
  ∃ chunk, acc' = acc ++ chunk
    ∧ Forall (λ t, in_slot s t) chunk
    ∧ (S i ≠ n → ∃ q, share s q ∧ length chunk = Z.to_nat q
                      ∧ alloc' = alloc + q)
    ∧ (S i = n → length chunk = Z.to_nat (num_trips - alloc)
                 ∧ alloc' = num_trips).
Proof.
  rewrite allocate_slot_unfold.
  destruct (Z.of_nat i =? Z.of_nat n - 1) eqn:E.
  - destruct (Segmented.draw_times _ _ _ _ _) as [[acc1 g1]| |] eqn:Hm;
      [|done..].
    intros [= <- <- <-].
    apply draw_times_Ret in Hm as (xs & -> & Hlen & HF).
    apply Z.eqb_eq in E.
    exists xs. split; [done|]. split; [done|]. split; [lia|].
    intros _. split; [done|lia].
  - destruct (Segmented.rounded_share num_trips s) as [q| |] eqn:Hq;
      [|done..].
    destruct (Segmented.draw_times _ _ _ _ _) as [[acc1 g1]| |] eqn:Hm;
      [|done..].
    intros [= <- <- <-].
    apply draw_times_Ret in Hm as (xs & -> & Hlen & HF).
    apply Z.eqb_neq in E.
    exists xs. split; [done|]. split; [done|]. split; [|lia].
    intros _. by exists q.
Qed.

Lemma allocate_slots_quota n slots last : ∀ i acc alloc g acc' alloc' g',
  (i + length slots + 1 = n)%nat →
  Segmented.allocate_slots num_trips max_time n i (slots ++ [last])
    (acc, alloc) g = Ret ((acc', alloc'), g') →
  ∃ quotas chunks last_chunk,
    acc' = acc ++ concat chunks ++ last_chunk
    ∧ Forall2 (λ s q, share s q) slots quotas
    ∧ Forall2 (λ q chunk, length chunk = Z.to_nat q) quotas chunks
    ∧ Forall2 (λ s chunk, Forall (λ t, in_slot s t) chunk) slots chunks
    ∧ length last_chunk = Z.to_nat (num_trips - alloc - sum_Z quotas)
    ∧ Forall (λ t, in_slot last t) last_chunk.
Proof.
  induction slots as [|s rest IH]; intros i acc alloc g acc' alloc' g' Hn.
  - simpl. intros H. bind_inv H. destruct a as [acc1 alloc1].
    unfold Py.ret in H. injection H as <- <- <-.
    apply allocate_slot_quota in Hm as (chunk & -> & HF & _ & Hlast).
    destruct Hlast as [Hlen _]; [simpl in Hn; lia|].
    exists [], [], chunk. split; [done|]. split_and!; [constructor..| |done].
    rewrite Hlen. f_equal. change (sum_Z _) with 0. lia.
  - rewrite <- app_comm_cons, allocate_slots_cons. intros H. bind_inv H.
    destruct a as [acc1 alloc1].
    apply allocate_slot_quota in Hm as (chunk & -> & HF & Hq & _).
    destruct Hq as (q & Hq & Hlen & ->); [simpl in Hn; lia|].
    apply IH in H
      as (quotas & chunks & last_chunk & -> & HQ & HL & HF2 & Hl & HFl);
      [|simpl in Hn; lia].
    exists (q :: quotas), (chunk :: chunks), last_chunk. cbn [concat].
    split; [by rewrite <- !app_assoc|].
    split_and!; [by constructor..| |done].
    rewrite Hl, sum_Z_cons. f_equal. lia.
Qed.

Lemma sum_lengths_quota (quotas : list Z) (chunks : list (list Z)) :
  Forall (λ q, 0 ≤ q) quotas →
  Forall2 (λ q chunk, length chunk = Z.to_nat q) quotas chunks →
  Z.of_nat (length (concat chunks)) = sum_Z quotas.
Proof.
  intros Hq HF. induction HF as [|q c quotas chunks Hlen _ IH]; [done|].
  apply Forall_cons in Hq as [Hs Hq]. cbn [concat].
  rewrite length_app, Nat2Z.inj_add, IH by done.
  rewrite Hlen, sum_Z_cons. lia.
Qed.

Lemma slice_to_all {A} (l : list A) :
  Z.of_nat (length l) = num_trips → slice_to num_trips l = l.
Proof.
  intros H. unfold slice_to. destruct (0 <=? num_trips) eqn:E.
  - apply take_ge. lia.
  - apply Z.leb_gt in E. lia.
Qed.

(** What the pool can raise. *)
Lemma draw_times_Raise n lo hi : ∀ acc g e,
  Segmented.draw_times n lo hi acc g = Raise e → e = ValueError ∧ hi < lo.
Proof.
  induction n as [|n IH]; intros acc g e; simpl; [done|].
  unfold Py.bind. destruct (randint lo hi g) as [[t g1]| |] eqn:E.
  - apply IH.
  - intros [= <-]. unfold randint in E.
    destruct (hi <? lo) eqn:Ec; [|done].
    apply Z.ltb_lt in Ec. unfold Py.raise in E. by injection E as <-.
  - done.
Qed.

(** The product of an int and a float, turned into an int, raises
    OverflowError or, for a product that is not a number, ValueError. *)
Lemma int_times_Raise n x e :
  int_times n x = Raise e → e = OverflowError.
Proof.
  unfold int_times, float_of_int. destruct (round64 _); [done|].
  by intros [= <-].
Qed.

Lemma rounded_share_Raise s e :
  Segmented.rounded_share num_trips s = Raise e →
  e = OverflowError ∨ e = ValueError.
Proof.
  unfold Segmented.rounded_share.
  destruct (int_times _ _) as [x| |] eqn:E;
    [|intros [= <-]; left; by apply int_times_Raise in E|done].
  cbn [rbind]. destruct x; cbn [round_float]; [done|..]; intros [= <-]; eauto.
Qed.

Lemma target_Raise pct e :
  Segmented.target_od_equal_trips num_trips pct = Raise e →
  e = OverflowError ∨ e = ValueError.
Proof.
  unfold Segmented.target_od_equal_trips.
  destruct (int_times _ _) as [x| |] eqn:E;
    [|intros [= <-]; left; by apply int_times_Raise in E|done].
  cbn [rbind]. destruct x; cbn [int_float]; [done|..]; intros [= <-]; eauto.
Qed.



Lemma allocate_slot_Raise n i s st g e :
  Segmented.allocate_slot num_trips max_time n i s st g = Raise e →
  (e = ValueError ∧ Segmented.useless max_time s = true)
  ∨ Segmented.rounded_share num_trips s = Raise e.
Proof.
  destruct st as [acc alloc]. rewrite allocate_slot_unfold.
  destruct (Z.of_nat i =? Z.of_nat n - 1).
  - destruct (Segmented.draw_times _ _ _ _ _) as [[? ?]| |] eqn:E;
      [done| |done].
    intros [= <-]. apply draw_times_Raise in E as [-> Hlt].
    left. split; [done|]. by apply useless_spec.
  - destruct (Segmented.rounded_share num_trips s) as [q| |];
      [|intros [= <-]; by right|done].
    destruct (Segmented.draw_times _ _ _ _ _) as [[? ?]| |] eqn:E;
      [done| |done].
    intros [= <-]. apply draw_times_Raise in E as [-> Hlt].
    left. split; [done|]. by apply useless_spec.
Qed.

Lemma allocate_slots_Raise n slots : ∀ i st g e,
  Segmented.allocate_slots num_trips max_time n i slots st g = Raise e →
  ∃ s, s ∈ slots
       ∧ ((e = ValueError ∧ Segmented.useless max_time s = true)
          ∨ Segmented.rounded_share num_trips s = Raise e).
Proof.
  induction slots as [|s rest IH]; intros i st g e; [done|].
  rewrite allocate_slots_cons. unfold Py.bind.
  destruct (Segmented.allocate_slot _ _ _ _ _ _ _) as [[st1 g1]| |] eqn:E.
  - intros H. apply IH in H as (s' & Hs' & Hu).
    exists s'. split; [by right|done].
  - intros [= <-]. apply allocate_slot_Raise in E.
    exists s. split; [by left|done].
  - done.
Qed.

Lemma target_slot_None slots :
  Segmented.target_slot_for_remainder max_time slots = None →
  Forall (λ s, Segmented.useless max_time s = true) slots.
Proof.
  unfold Segmented.target_slot_for_remainder.
  destruct (List.find _ _) as [s|] eqn:E; [done|]. intros _.
  apply Forall_forall. intros s Hs.
  pose proof (find_none _ _ E s) as Hn. simpl in Hn.
  apply useless_spec.
  assert (In s (rev slots)) as Hin.
  { apply in_rev. rewrite rev_involutive. by apply list_elem_of_In. }
  specialize (Hn Hin). apply andb_false_iff in Hn.
  rewrite !Z.leb_gt in Hn. lia.
Qed.

Lemma refill_Raise fuel slots : ∀ acc g e,
  Segmented.refill fuel num_trips max_time slots acc g = Raise e →
  e = ValueError ∧ max_time < 0
  ∧ Forall (λ s, Segmented.useless max_time s = true) slots.
Proof.
  induction fuel as [|fuel IH]; intros acc g e; simpl.
  - destruct (_ <? num_trips); done.
  - destruct (_ <? num_trips); [|done].
    destruct (Segmented.target_slot_for_remainder max_time slots)
      as [[lo hi]|] eqn:Et.
    + apply target_slot_Some in Et as (s & _ & -> & -> & Hle).
      unfold Py.bind.
      destruct (randint_total _ _ g Hle) as (t & -> & _). apply IH.
    + unfold Py.bind.
      destruct (randint 0 max_time g) as [[t g1]| |] eqn:E.
      * destruct (num_trips <=? _); [done|]. apply IH.
      * intros [= <-]. unfold randint in E.
        destruct (max_time <? 0) eqn:Ec; [|done].
        apply Z.ltb_lt in Ec. unfold Py.raise in E. injection E as <-.
        split; [done|]. split; [done|]. by apply target_slot_None.
      * done.
Qed.

Lemma start_time_pool_Raise slots g e :
  Segmented.start_time_pool num_trips max_time slots g = Raise e →
  (e = ValueError
   ∧ ((∃ s, s ∈ slots ∧ Segmented.useless max_time s = true)
      ∨ (slots = [] ∧ max_time < 0)))
  ∨ (∃ s, s ∈ slots ∧ Segmented.rounded_share num_trips s = Raise e).
Proof.
  unfold Segmented.start_time_pool. unfold Py.bind at 1.
  destruct (Segmented.allocate_slots _ _ _ _ _ _ _) as [[[acc alloc] g1]| |]
    eqn:E.
  - unfold Py.bind.
    destruct (Segmented.refill _ _ _ _ _ _) as [[acc2 g2]| |] eqn:E2;
      [done| |done].
    intros [= <-]. apply refill_Raise in E2 as (-> & Hmax & Hu).
    left. split; [done|]. destruct slots as [|s rest].
    + by right.
    + left. exists s. split; [by left|]. by apply Forall_cons in Hu as [? _].
  - intros [= <-]. apply allocate_slots_Raise in E as (s & Hs & [[-> Hu]|Hq]).
    + left. split; [done|]. left. by exists s.
    + right. by exists s.
  - done.
Qed.

End SegmentedMore.

Section SegmentedOutcomes.

Variable node_ids : list string.
Variable outgoing_links : gmap string (list string).
Variable num_trips max_time : Z.
Variable output_file : io.
Variable slots : list Segmented.slot.
Variable pct : float.

Local Abbreviation valid := (valid_origin_nodes node_ids outgoing_links).
Local Abbreviation actual_pct :=
  (if Nat.eqb (length node_ids) 1 then Finite 1 else pct).

(** How the segmented generator ends. *)
Lemma segmented_outcomes g written r :
  Segmented.generate_and_write_trips_iterative
    node_ids outgoing_links num_trips max_time output_file slots pct g
  = (written, r) →
  (r = Ret true ∧ valid ≠ [] ∧ length written = Z.to_nat num_trips
   ∧ accepts output_file (Z.to_nat num_trips))
  ∨ (r = Ret false ∧ written = [] ∧ valid = [])
  ∨ (r = Ret false ∧ valid ≠ []
     ∧ refuses output_file (Z.to_nat num_trips))
  ∨ (∃ e, r = Raise e ∧ written = [] ∧ valid ≠ []
       ∧ ((e = ValueError
           ∧ ((∃ s, s ∈ slots ∧ Segmented.useless max_time s = true)
              ∨ (slots = [] ∧ max_time < 0)))
          ∨ (∃ s, s ∈ slots ∧ Segmented.rounded_share num_trips s = Raise e)
          ∨ Segmented.target_od_equal_trips num_trips actual_pct = Raise e)).
Proof.
  unfold Segmented.generate_and_write_trips_iterative.
  destruct (nonempty_list node_ids) eqn:En; simpl.
  2:{ intros [= <- <-]. right. left. split; [done|]. split; [done|].
      apply nonempty_list_false in En. by rewrite En. }
  destruct (nonempty_list valid) eqn:Ev; simpl.
  2:{ intros [= <- <-]. right. left. split; [done|]. split; [done|].
      by apply nonempty_list_false in Ev. }
  assert (valid ≠ []) as Hv by (intros E; by rewrite E in Ev).
  unfold Py.bind at 1.
  destruct (Segmented.start_time_pool num_trips max_time slots g)
    as [[pool g1]| |] eqn:Ep.
  - unfold Py.bind.
    destruct (Segmented.od_equal_flags num_trips actual_pct g1)
      as [[flags g2]| |] eqn:Ef.
    + unfold Py.ret.
      destruct (od_equal_flags_inv _ _ _ _ _ Ef) as (target & _ & _ & Hlen).
      apply start_time_pool_Ret in Ep as [_ Hplen].
      intros H.
      apply (file_outcomes _ _ _ _ (Z.to_nat num_trips)) in H
        as [(-> & Hacc & g3 & Ew)|[[-> Href]|[(_ & i & g0 & e & Hi & Hm)
                                             |(_ & i & g0 & Hi & Hm)]]].
      * left. split; [done|]. split; [done|]. split; [|done].
        apply write_loop_length in Ew. by rewrite Ew, length_range.
      * right. right. left. done.
      * exfalso. apply range_lt in Hi.
        destruct (segmented_make_trip_total node_ids outgoing_links
                    (Nat.eqb (length node_ids) 1) pool flags i g0 Hv)
          as (t & g' & Ht); [rewrite Hplen; lia|lia|].
        by rewrite Ht in Hm.
      * exfalso. apply range_lt in Hi.
        destruct (segmented_make_trip_total node_ids outgoing_links
                    (Nat.eqb (length node_ids) 1) pool flags i g0 Hv)
          as (t & g' & Ht); [rewrite Hplen; lia|lia|].
        by rewrite Ht in Hm.
      * apply length_range.
      * apply segmented_indices.
    + intros [= <- <-]. do 3 right. exists e. split_and!; [done..|].
      right. right.
      unfold Segmented.od_equal_flags, Py.bind, lift in Ef.
      destruct (Segmented.target_od_equal_trips _ _) as [t| |];
        [|congruence|done].
      by destruct (shuffle_Ret
                     (replicate (Z.to_nat t) true
                      ++ replicate (Z.to_nat (num_trips - t)) false) g1)
        as (y & g' & Es & _); rewrite Es in Ef.
    + by apply od_equal_flags_not_OutOfFuel in Ef.
  - intros [= <- <-]. do 3 right. exists e. split_and!; [done..|].
    apply start_time_pool_Raise in Ep as [[-> Hs]|Hs]; [by left|].
    right. by left.
  - by pose proof (start_time_pool_not_OutOfFuel _ _ _ _ Ep).
Qed.

(** With a pool and a number of trips with origin = destination that can
    be computed, and a file system that refuses nothing, the generator
    returns [True]. *)
Lemma segmented_run_from_pool g pool g1 target :
  valid ≠ [] →
  Segmented.start_time_pool num_trips max_time slots g = Ret (pool, g1) →
  Segmented.target_od_equal_trips num_trips actual_pct = Ret target →
  accepts output_file (Z.to_nat num_trips) →
  ∃ written,
    Segmented.generate_and_write_trips_iterative
      node_ids outgoing_links num_trips max_time output_file slots pct g
    = (written, Ret true)
    ∧ length written = Z.to_nat num_trips.
Proof.
  intros Hv Ep Ht Hacc.
  destruct (od_equal_flags_Ret num_trips actual_pct target g1 Ht)
    as (flags & g2 & Ef & _ & Hlen).
  unfold Segmented.generate_and_write_trips_iterative.
  rewrite (nonempty_list_true _ (valid_nonempty_nodes _ _ Hv)),
          (nonempty_list_true _ Hv). simpl.
  unfold Py.bind at 1. rewrite Ep. unfold Py.bind. rewrite Ef.
  unfold Py.ret.
  apply start_time_pool_Ret in Ep as [_ Hplen].
  destruct (try_except _) as [written r] eqn:E. exists written.
  apply (file_outcomes _ _ _ _ (Z.to_nat num_trips)) in E
    as [(-> & _ & g3 & Ew)|[[-> Href]|[(_ & i & g0 & e & Hi & Hm)
                                       |(_ & i & g0 & Hi & Hm)]]].
  - split; [done|].
    apply write_loop_length in Ew. by rewrite Ew, length_range.
  - by apply accepts_not_refuses in Hacc.
  - exfalso. apply range_lt in Hi.
    destruct (segmented_make_trip_total node_ids outgoing_links
                (Nat.eqb (length node_ids) 1) pool flags i g0 Hv)
      as (t & g' & Hmt); [rewrite Hplen; lia|lia|].
    by rewrite Hmt in Hm.
  - exfalso. apply range_lt in Hi.
    destruct (segmented_make_trip_total node_ids outgoing_links
                (Nat.eqb (length node_ids) 1) pool flags i g0 Hv)
      as (t & g' & Hmt); [rewrite Hplen; lia|lia|].
    by rewrite Hmt in Hm.
  - apply length_range.
  - apply segmented_indices.
Qed.

End SegmentedOutcomes.

(** ** How the basic generator ends *)

Section BasicOutcomes.

Variable node_ids : list string.
Variable outgoing_links : gmap string (list string).
Variable max_start_time : Z.
Variable output_file : io.

Local Abbreviation valid := (valid_origin_nodes node_ids outgoing_links).

Lemma basic_redraw_not_Raise fuel : ∀ o d g e,
  node_ids ≠ [] → Basic.redraw fuel node_ids o d g ≠ Raise e.
Proof.
  induction fuel as [|fuel IH]; intros o d g e Hne; simpl;
    destruct ((1 <? length node_ids)%nat && String.eqb d o); try done.
  unfold Py.bind. destruct (choice_total node_ids g Hne) as (d1 & -> & _).
  by apply IH.
Qed.

Lemma basic_redraw_OutOfFuel fuel : ∀ o d g,
  Basic.redraw fuel node_ids o d g = OutOfFuel → (1 < length node_ids)%nat.
Proof.
  induction fuel as [|fuel IH]; intros o d g; simpl;
    destruct ((1 <? length node_ids)%nat && String.eqb d o) eqn:E; try done.
  - intros _. apply andb_prop in E as [E _]. by apply Nat.ltb_lt.
  - intros _. apply andb_prop in E as [E _]. by apply Nat.ltb_lt.
Qed.

(** The only call of the loop body that can fail is
    [random.randint(0, max_start_time)], and the only call that may not
    return is the loop that redraws the destination. *)
Lemma basic_make_trip_failure fuel i g :
  valid ≠ [] →
  match Basic.make_trip fuel node_ids outgoing_links valid max_start_time i g
  with
  | Ret _ => 0 ≤ max_start_time
  | Raise e => e = ValueError ∧ max_start_time < 0
  | OutOfFuel => (1 < length node_ids)%nat
  end.
Proof.
  intros Hv.
  destruct (choice_total _ g Hv) as (o & Ho & Hin).
  apply valid_origin_nodes_spec in Hin as [Hon Hvo].
  apply valid_origin_links in Hvo as (l & ls & Hl).
  destruct (choice_total (l :: ls) (advance g)) as (lk & Hlk & _); [done|].
  assert (Hne : node_ids ≠ [])
    by (intros E; rewrite E in Hon; by apply elem_of_nil in Hon).
  destruct (choice_total node_ids (advance (advance g)) Hne)
    as (d0 & Hd0 & _).
  unfold Basic.make_trip.
  erewrite bind_Ret_intro by exact Ho.
  erewrite bind_Ret_intro by (unfold dict_getitem; rewrite Hl; reflexivity).
  erewrite bind_Ret_intro by exact Hlk.
  erewrite bind_Ret_intro by exact Hd0.
  unfold Py.bind at 1.
  destruct (Basic.redraw fuel node_ids o d0 _) as [[d g1]|e|] eqn:Er.
  - unfold Py.bind, randint.
    destruct (max_start_time <? 0) eqn:Em.
    + apply Z.ltb_lt in Em. done.
    + apply Z.ltb_ge in Em. done.
  - by apply basic_redraw_not_Raise in Er.
  - by apply basic_redraw_OutOfFuel in Er.
Qed.

Lemma basic_index_positive num_trips i :
  i ∈ Py.range2 1 (num_trips + 1) → 0 < num_trips.
Proof.
  intros Hi. apply list_elem_of_lookup in Hi as [k Hk].
  apply lookup_lt_Some in Hk. unfold Py.range2 in Hk.
  rewrite length_fmap, length_seq in Hk. lia.
Qed.

Lemma basic_outcomes fuel num_trips g written r :
  Basic.generate_and_write_trips_iterative
    fuel node_ids outgoing_links num_trips max_start_time output_file g
  = (written, r) →
  (r = Ret true ∧ valid ≠ [] ∧ length written = Z.to_nat num_trips
   ∧ (0 < num_trips → 0 ≤ max_start_time)
   ∧ accepts output_file (Z.to_nat num_trips))
  ∨ (r = Ret false ∧ written = []
     ∧ (valid = [] ∨ (max_start_time < 0 ∧ 0 < num_trips)))
  ∨ (r = Ret false ∧ valid ≠ []
     ∧ refuses output_file (Z.to_nat num_trips))
  ∨ (r = OutOfFuel ∧ valid ≠ [] ∧ (1 < length node_ids)%nat ∧ 0 < num_trips).
Proof.
  intros E. pose proof E as H. revert H.
  unfold Basic.generate_and_write_trips_iterative.
  destruct (nonempty_list node_ids) eqn:En; simpl.
  2:{ intros [= <- <-]. right. left. split; [done|]. split; [done|]. left.
      apply nonempty_list_false in En. by rewrite En. }
  destruct (nonempty_list valid) eqn:Ev; simpl.
  2:{ intros [= <- <-]. right. left. split; [done|]. split; [done|]. left.
      by apply nonempty_list_false in Ev. }
  assert (valid ≠ []) as Hv by (intros E'; by rewrite E' in Ev).
  intros H.
  assert (Hprod : Forall (λ t, 0 ≤ max_start_time) written).
  { destruct (with_open _ _ _ _) as [w lr] eqn:Ew.
    assert (written = w) as -> by (destruct lr; simpl in H; congruence).
    eapply write_file_Forall; [|exact Ew].
    intros i t (g1 & g2 & Hb).
    pose proof (basic_make_trip_failure fuel i g1 Hv) as Hm.
    by rewrite Hb in Hm. }
  apply (file_outcomes _ _ _ _ (Z.to_nat num_trips)) in H
    as [(-> & Hacc & g3 & Ew)|[[-> Href]|[(-> & i & g0 & e & Hi & Hm)
                                         |(-> & i & g0 & Hi & Hm)]]].
  - left. split; [done|]. split; [done|].
    apply write_loop_length in Ew as Hlen. rewrite length_range2 in Hlen.
    split; [done|]. split; [|done].
    intros HN. destruct written as [|t w]; [simpl in Hlen; lia|].
    by apply Forall_cons in Hprod as [? _].
  - right. right. left. done.
  - pose proof (basic_make_trip_failure fuel i g0 Hv) as Hf.
    rewrite Hm in Hf. destruct Hf as [_ Hneg].
    right. left. split; [done|]. split.
    + destruct written as [|t w]; [done|].
      apply Forall_cons in Hprod as [? _]. lia.
    + right. split; [done|]. by eapply basic_index_positive.
  - pose proof (basic_make_trip_failure fuel i g0 Hv) as Hf.
    rewrite Hm in Hf. do 3 right. split; [done|]. split; [done|].
    split; [done|]. by eapply basic_index_positive.
  - apply length_range2.
  - apply basic_indices.
Qed.

(** On a list of one node the loop that redraws the destination is not
    entered, and a run returns whatever the random source. *)
Lemma basic_run_single fuel num_trips g :
  (length node_ids ≤ 1)%nat →
  valid ≠ [] → 0 ≤ max_start_time →
  accepts output_file (Z.to_nat num_trips) →
  ∃ written,
    Basic.generate_and_write_trips_iterative
      fuel node_ids outgoing_links num_trips max_start_time output_file g
    = (written, Ret true)
    ∧ length written = Z.to_nat num_trips.
Proof.
  intros Hone Hv Hmax Hacc.
  destruct (Basic.generate_and_write_trips_iterative
              fuel node_ids outgoing_links num_trips max_start_time
              output_file g) as [written r] eqn:E.
  exists written.
  destruct (basic_outcomes _ _ _ _ _ E)
    as [(-> & _ & Hlen & _)|[(_ & _ & [Hv'|[Hneg _]])
                            |[(_ & _ & Href)|(_ & _ & Hlen & _)]]].
  - done.
  - done.
  - lia.
  - by apply accepts_not_refuses in Hacc.
  - lia.
Qed.

End BasicOutcomes.

(** ** The records of the grouping generator *)

Section GroupMore.

Lemma first_occurrence (raws : list Group.raw_trip) k :
  k ∈ Group.key_of <$> raws →
  ∃ raws1 r raws2,
    raws = raws1 ++ r :: raws2 ∧ Group.key_of r = k
    ∧ (k ∉ Group.key_of <$> raws1).
Proof.
  induction raws as [|r raws IH].
  - intros H. rewrite fmap_nil in H. by apply elem_of_nil in H.
  - intros H. destruct (decide (Group.key_of r = k)) as [E|E].
    + exists [], r, raws. split; [done|]. split; [done|]. apply not_elem_of_nil.
    + rewrite fmap_cons in H. apply elem_of_cons in H as [H|H]; [done|].
      destruct (IH H) as (raws1 & r' & raws2 & -> & Hk & Hn).
      exists (r :: raws1), r', raws2. split; [done|]. split; [done|].
      rewrite fmap_cons. apply not_elem_of_cons. done.
Qed.

Lemma aggregate_entry (raws : list Group.raw_trip) k v :
  (k, v) ∈ Group.aggregate raws →
  (1 ≤ Group.grp_count v)%nat
  ∧ ∃ raws1 r raws2,
      raws = raws1 ++ r :: raws2 ∧ Group.key_of r = k
      ∧ (k ∉ Group.key_of <$> raws1)
      ∧ Group.grp_link_origin v = Group.raw_link_origin r.
Proof.
  intros Hin.
  assert (k ∈ Group.key_of <$> raws) as Hk.
  { apply aggregate_keys, list_elem_of_fmap. by exists (k, v). }
  split.
  - rewrite (aggregate_count _ _ _ Hin).
    apply list_elem_of_In in Hk.
    by apply (count_occ_In (@decide_rel _ _ (=) _)) in Hk.
  - destruct (first_occurrence _ _ Hk) as (raws1 & r & raws2 & -> & <- & Hn).
    exists raws1, r, raws2. split; [done|]. split; [done|]. split; [done|].
    by eapply aggregate_first_link.
Qed.

Lemma finish_length m : length (Group.finish m) = length m.
Proof.
  unfold Group.finish, Group.final_trips_for_xml.
  rewrite length_imap, sort_by_start_Permutation.
  unfold Group.processed_trips_list. by rewrite length_fmap.
Qed.

Lemma length_le_sum (m : Group.trips_map) :
  Forall (λ kv, (1 ≤ Group.grp_count kv.2)%nat) m →
  (length m ≤ sum_list_with (λ kv, Group.grp_count kv.2) m)%nat.
Proof. induction 1 as [|kv m H _ IH]; simpl; lia. Qed.

Lemma aggregate_length (raws : list Group.raw_trip) :
  (length (Group.aggregate raws) ≤ length raws)%nat.
Proof.
  etransitivity; [apply length_le_sum|by rewrite aggregate_sum].
  apply Forall_forall. intros [k v] Hin. simpl.
  by apply aggregate_entry in Hin as [? _].
Qed.

Lemma aggregate_nonempty (raws : list Group.raw_trip) :
  raws ≠ [] → Group.aggregate raws ≠ [].
Proof.
  intros Hne E. pose proof (aggregate_sum raws) as Hs. rewrite E in Hs.
  simpl in Hs. destruct raws; [done|]. simpl in Hs. lia.
Qed.

End GroupMore.

Section GroupOutcomes.

Variable node_ids : list string.
Variable outgoing_links : gmap string (list string).
Variable max_start_time : Z.

Local Abbreviation valid := (valid_origin_nodes node_ids outgoing_links).

Lemma group_sample_trip_failure fuel g :
  valid ≠ [] →
  match Group.sample_trip fuel node_ids outgoing_links valid max_start_time g
  with
  | Ret _ => 0 ≤ max_start_time
  | Raise e => e = ValueError ∧ max_start_time < 0
  | OutOfFuel => (1 < length node_ids)%nat
  end.
Proof.
  intros Hv.
  destruct (choice_total _ g Hv) as (o & Ho & Hin).
  apply valid_origin_nodes_spec in Hin as [Hon Hvo].
  apply valid_origin_links in Hvo as (l & ls & Hl).
  destruct (choice_total (l :: ls) (advance g)) as (lk & Hlk & _); [done|].
  assert (Hne : node_ids ≠ [])
    by (intros E; rewrite E in Hon; by apply elem_of_nil in Hon).
  destruct (choice_total node_ids (advance (advance g)) Hne)
    as (d0 & Hd0 & _).
  unfold Group.sample_trip.
  erewrite bind_Ret_intro by exact Ho.
  erewrite bind_Ret_intro by (unfold dict_getitem; rewrite Hl; reflexivity).
  erewrite bind_Ret_intro by exact Hlk.
  erewrite bind_Ret_intro by exact Hd0.
  unfold Py.bind at 1. rewrite group_redraw_basic.
  destruct (Basic.redraw fuel node_ids o d0 _) as [[d g1]|e|] eqn:Er.
  - unfold Py.bind, randint.
    destruct (max_start_time <? 0) eqn:Em.
    + apply Z.ltb_lt in Em. done.
    + apply Z.ltb_ge in Em. done.
  - by apply basic_redraw_not_Raise in Er.
  - by apply basic_redraw_OutOfFuel in Er.
Qed.

Lemma aggregate_loop_failure n (sample : M Group.raw_trip) : ∀ m g,
  match Group.aggregate_loop n sample m g with
  | Ret _ => True
  | Raise e => ∃ g0, sample g0 = Raise e
  | OutOfFuel => ∃ g0, sample g0 = OutOfFuel
  end.
Proof.
  induction n as [|n IH]; intros m g; simpl; [done|].
  unfold Py.bind. destruct (sample g) as [[r g1]|e|] eqn:E.
  - apply IH.
  - by exists g.
  - by exists g.
Qed.

Lemma group_outcomes fuel num_trips g :
  match Group.generate_aggregated_and_sorted_trips
          fuel node_ids outgoing_links num_trips max_start_time g with
  | Ret out =>
      (out = [] ↔ valid = [] ∨ num_trips ≤ 0)
      ∧ (out ≠ [] → 0 ≤ max_start_time)
  | Raise e => e = ValueError ∧ max_start_time < 0 ∧ valid ≠ [] ∧ 0 < num_trips
  | OutOfFuel => (1 < length node_ids)%nat ∧ valid ≠ [] ∧ 0 < num_trips
  end.
Proof.
  unfold Group.generate_aggregated_and_sorted_trips.
  destruct (nonempty_list node_ids) eqn:En; simpl.
  2:{ apply nonempty_list_false in En. rewrite En. simpl.
      split; [|done]. split; [by left|done]. }
  destruct (nonempty_list valid) eqn:Ev; simpl.
  2:{ apply nonempty_list_false in Ev. split; [|done]. split; [by left|done]. }
  assert (valid ≠ []) as Hv by (intros E; by rewrite E in Ev).
  pose proof (aggregate_loop_failure (Z.to_nat num_trips)
                (Group.sample_trip fuel node_ids outgoing_links valid
                   max_start_time) [] g) as Hf.
  destruct (Group.aggregate_loop _ _ _ _) as [[m g']|e|] eqn:E.
  - apply aggregate_loop_Ret in E as (raws & Hlen & HF & ->).
    change (foldl _ [] raws) with (Group.aggregate raws).
    split.
    + split.
      * intros Hout. right.
        assert (length (Group.finish (Group.aggregate raws)) = 0%nat) as Hl
          by by rewrite Hout.
        rewrite finish_length in Hl.
        destruct raws as [|r raws]; [simpl in Hlen; lia|].
        exfalso. by eapply (aggregate_nonempty (r :: raws));
          [|apply length_zero_iff_nil].
      * intros [?|HN]; [done|].
        destruct raws as [|r raws]; [done|]. simpl in Hlen. lia.
    + intros Hout. destruct raws as [|r raws]; [done|].
      apply Forall_cons in HF as [(g1 & g2 & Hs) _].
      pose proof (group_sample_trip_failure fuel g1 Hv) as Hm.
      by rewrite Hs in Hm.
  - destruct Hf as [g0 Hs].
    pose proof (group_sample_trip_failure fuel g0 Hv) as Hm.
    rewrite Hs in Hm. destruct Hm as [-> Hmax]. split_and!; try done.
    destruct (Z.to_nat num_trips) eqn:EN; [done|lia].
  - destruct Hf as [g0 Hs].
    pose proof (group_sample_trip_failure fuel g0 Hv) as Hm.
    rewrite Hs in Hm. split_and!; try done.
    destruct (Z.to_nat num_trips) eqn:EN; [done|lia].
Qed.

Lemma group_records fuel num_trips g out :
  Group.generate_aggregated_and_sorted_trips
    fuel node_ids outgoing_links num_trips max_start_time g = Ret out →
  Forall (origin_ok node_ids outgoing_links) out
  ∧ Forall (λ t, (1 ≤ count t)%nat) out
  ∧ (length out ≤ Z.to_nat num_trips)%nat.
Proof.
  intros H. pose proof H as H'.
  apply group_run in H as (raws & -> & HF & Hlen & _).
  split; [|split].
  - apply Forall_forall. intros t Ht.
    apply finish_entry in Ht as (v & Hv & _ & Hl).
    apply aggregate_entry in Hv
      as [_ (raws1 & r & raws2 & -> & Hk & _ & Hlink)].
    apply Forall_app in HF as [_ HF].
    apply Forall_cons in HF as [(g1 & g2 & Hs) _].
    apply group_sample_trip_Ret in Hs as (Ho & Hls & _).
    unfold Group.key_of, Group.trip_key_of in Hk. injection Hk as Eo _ _.
    unfold origin_ok. rewrite <- Eo, Hl, Hlink. done.
  - apply Forall_forall. intros t Ht.
    apply finish_entry in Ht as (v & Hv & -> & _).
    by apply aggregate_entry in Hv as [? _].
  - rewrite finish_length.
    destruct (decide (valid = [])) as [E|E].
    + unfold Group.generate_aggregated_and_sorted_trips in H'.
      rewrite E in H'. simpl in H'.
      destruct (negb (nonempty_list node_ids)); injection H' as H'.
      * assert (length (Group.finish (Group.aggregate raws)) = 0%nat) as Hl
          by by rewrite <- H'.
        rewrite finish_length in Hl. lia.
      * assert (length (Group.finish (Group.aggregate raws)) = 0%nat) as Hl
          by by rewrite <- H'.
        rewrite finish_length in Hl. lia.
    + rewrite <- (Hlen E). apply aggregate_length.
Qed.

End GroupOutcomes.

(** ** The scripts from the command line to the exit code *)

Section Scripts.

Lemma nonempty_dict_false (m : gmap string (list string)) :
  nonempty_dict m = false → m = ∅.
Proof.
  unfold nonempty_dict. intros H. apply negb_false_iff in H.
  by apply bool_decide_eq_true in H.
Qed.


Lemma valid_origin_nodes_nil_l links : valid_origin_nodes [] links = [].
Proof. reflexivity. Qed.

Lemma valid_origin_nodes_empty nodes : valid_origin_nodes nodes ∅ = [].
Proof.
  induction nodes as [|n nodes IH]; [done|].
  unfold valid_origin_nodes in *. simpl. unfold valid_origin at 1.
  by rewrite lookup_empty.
Qed.

(** The critical check of the loaders of the basic and of the grouping
    script: an index with nodes and links has a valid origin. *)
Lemma parse_basic_valid file nodes links :
  Basic.parse_network_iterative file = Some (nodes, links) →
  nodes ≠ [] → links ≠ ∅ → valid_origin_nodes nodes links ≠ [].
Proof.
  unfold Basic.parse_network_iterative.
  destruct file as [items|]; [|done].
  destruct (iterate items initial) as [st|]; [|done].
  destruct (_ && _) eqn:E; [done|]. intros [= <- <-] Hn Hl Hv.
  rewrite Hv in E. simpl in E.
  rewrite (nonempty_list_true _ Hn) in E. simpl in E.
  apply nonempty_dict_false in E. done.
Qed.


Lemma parse_empty_network items st :
  iterate items initial = Some st →
  node_ids st = [] ∨ outgoing_links st = ∅ →
  Basic.parse_network_iterative (Some items)
  = Some (node_ids st, outgoing_links st)
  ∧ Group.parse_network_iterative (Some items)
    = Some (node_ids st, outgoing_links st)
  ∧ Segmented.parse_network_iterative (Some items)
    = Some (node_ids st, outgoing_links st).
Proof.
  intros Hit Hempty.
  unfold Basic.parse_network_iterative, Group.parse_network_iterative,
    Segmented.parse_network_iterative.
  rewrite Hit.
  assert (Nat.eqb (length (valid_origin_nodes (node_ids st) (outgoing_links st))) 0
          && nonempty_list (node_ids st) && nonempty_dict (outgoing_links st)
          = false) as ->; [|done].
  destruct Hempty as [->| ->].
  - simpl. done.
  - rewrite valid_origin_nodes_empty. simpl.
    rewrite andb_false_iff. right. unfold nonempty_dict.
    by rewrite bool_decide_eq_true_2.
Qed.

End Scripts.

(** ** The text written for a trip *)

Section Writer.

Import Stdlib.Strings.Ascii.

Lemma string_app_cons x (a b : string) : String x a +:+ b = String x (a +:+ b).
Proof. reflexivity. Qed.

Lemma string_app_nil_l (b : string) : EmptyString +:+ b = b.
Proof. reflexivity. Qed.

Lemma string_app_assoc (a b c : string) : (a +:+ b) +:+ c = a +:+ (b +:+ c).
Proof.
  induction a as [|x a IH]; [done|]. rewrite !string_app_cons. by rewrite IH.
Qed.

Lemma replace_char_app old new (a b : string) :
  Xml.replace_char old new (a +:+ b)
  = Xml.replace_char old new a +:+ Xml.replace_char old new b.
Proof.
  induction a as [|x a IH]; [done|].
  rewrite string_app_cons. cbn [Xml.replace_char].
  destruct (Ascii.eqb x old); rewrite IH.
  - by rewrite string_app_assoc.
  - by rewrite string_app_cons.
Qed.

Lemma count_char_app c (a b : string) :
  Xml.count_char c (a +:+ b) = (Xml.count_char c a + Xml.count_char c b)%nat.
Proof.
  induction a as [|x a IH]; [done|].
  rewrite string_app_cons. cbn [Xml.count_char]. rewrite IH. lia.
Qed.

(** The three passes of [escape] act as one substitution of every
    character: the ampersands of the entities that a pass inserts are
    not escaped again, because the ampersand is replaced first. *)
Lemma escape_substitute (s : string) : Xml.escape s = Xml.substitute s.
Proof.
  unfold Xml.escape. induction s as [|c s IH]; [done|].
  cbn [Xml.substitute Xml.replace_char]. unfold Xml.entity.
  destruct (Ascii.eqb c "&") eqn:E1.
  { rewrite !replace_char_app, IH. reflexivity. }
  cbn [Xml.replace_char].
  destruct (Ascii.eqb c ">") eqn:E2.
  { rewrite !replace_char_app, IH. reflexivity. }
  cbn [Xml.replace_char].
  destruct (Ascii.eqb c "<") eqn:E3.
  { rewrite IH. reflexivity. }
  rewrite IH. reflexivity.
Qed.

Lemma entity_cases c :
  (c = "&"%char ∧ Xml.entity c = "&amp;")
  ∨ (c = ">"%char ∧ Xml.entity c = "&gt;")
  ∨ (c = "<"%char ∧ Xml.entity c = "&lt;")
  ∨ (c ≠ "&"%char ∧ c ≠ ">"%char ∧ c ≠ "<"%char ∧ Xml.entity c = String c "").
Proof.
  unfold Xml.entity.
  destruct (Ascii.eqb_spec c "&"); [by left|].
  destruct (Ascii.eqb_spec c ">"); [by right; left|].
  destruct (Ascii.eqb_spec c "<"); [by right; right; left|].
  by right; right; right.
Qed.

Lemma substitute_inj (s1 : string) : ∀ s2,
  Xml.substitute s1 = Xml.substitute s2 → s1 = s2.
Proof.
  induction s1 as [|c1 s1 IH]; intros [|c2 s2]; cbn [Xml.substitute].
  - done.
  - destruct (entity_cases c2) as [[_ ->]|[[_ ->]|[[_ ->]|(_ & _ & _ & ->)]]];
      rewrite !string_app_cons; done.
  - destruct (entity_cases c1) as [[_ ->]|[[_ ->]|[[_ ->]|(_ & _ & _ & ->)]]];
      rewrite !string_app_cons; done.
  - destruct (entity_cases c1)
      as [[-> ->]|[[-> ->]|[[-> ->]|(N1 & N2 & N3 & ->)]]];
    destruct (entity_cases c2)
      as [[-> ->]|[[-> ->]|[[-> ->]|(M1 & M2 & M3 & ->)]]];
    rewrite !string_app_cons, !string_app_nil_l; intros H;
      try (injection H as H); try congruence;
      try (f_equal; by apply IH).
    f_equal; [congruence|]. apply IH. congruence.
Qed.

Lemma substitute_plain (s : string) : Xml.plain s → Xml.substitute s = s.
Proof.
  unfold Xml.plain. induction s as [|c s IH]; [done|].
  cbn [Xml.count_char Xml.substitute]. intros (H1 & H2 & H3).
  destruct (Ascii.eqb c "&") eqn:E1; [simpl in H1; lia|].
  destruct (Ascii.eqb c "<") eqn:E2; [simpl in H2; lia|].
  destruct (Ascii.eqb c ">") eqn:E3; [simpl in H3; lia|].
  unfold Xml.entity. rewrite E1, E2, E3.
  rewrite string_app_cons, string_app_nil_l. f_equal. by apply IH.
Qed.

Lemma count_substitute_markup (s : string) :
  Xml.count_char "<" (Xml.substitute s) = 0%nat
  ∧ Xml.count_char ">" (Xml.substitute s) = 0%nat.
Proof.
  induction s as [|c s [IH1 IH2]]; [done|].
  cbn [Xml.substitute]. rewrite !count_char_app, IH1, IH2.
  destruct (entity_cases c)
    as [[-> ->]|[[-> ->]|[[-> ->]|(_ & N2 & N3 & ->)]]]; try done.
  simpl. apply Ascii.eqb_neq in N2, N3. by rewrite N2, N3.
Qed.

Lemma count_entity_dquote (c : ascii) :
  Xml.count_char (ascii_of_nat 34) (Xml.entity c)
  = Xml.count_char (ascii_of_nat 34) (String c "").
Proof.
  destruct (entity_cases c)
    as [[-> ->]|[[-> ->]|[[-> ->]|(_ & _ & _ & ->)]]]; done.
Qed.

Lemma count_substitute_dquote (s : string) :
  Xml.count_char (ascii_of_nat 34) (Xml.substitute s)
  = Xml.count_char (ascii_of_nat 34) s.
Proof.
  induction s as [|c s IH]; [done|].
  cbn [Xml.substitute]. rewrite count_char_app, IH, count_entity_dquote.
  simpl. lia.
Qed.

Lemma count_char_concat c (l : list string) :
  Forall (λ s, Xml.count_char c s = 0%nat) l →
  Xml.count_char c " " = 0%nat →
  Xml.count_char c (String.concat " " l) = 0%nat.
Proof.
  intros HF Hsp. induction HF as [|s l Hs HF IH]; [done|].
  destruct l as [|s' l]; [done|].
  change (String.concat " " (s :: s' :: l))
    with (s +:+ " " +:+ String.concat " " (s' :: l)).
  rewrite !count_char_app, Hs, Hsp, IH. done.
Qed.

Lemma count_attribute (c : ascii) (kv : string * string) :
  c ≠ "="%char → Xml.count_char c Xml.dquote = 0%nat →
  Xml.count_char c (Xml.attribute kv)
  = (Xml.count_char c kv.1 + Xml.count_char c (Xml.escape kv.2))%nat.
Proof.
  intros Hc Hq. unfold Xml.attribute. rewrite !count_char_app, Hq.
  assert (Xml.count_char c "=" = 0%nat) as ->; [|lia].
  cbn [Xml.count_char]. destruct (Ascii.eqb_spec "=" c); [congruence|done].
Qed.

Lemma count_trip_line (c : ascii) (trip_attrs : list (string * string)) :
  (c = "<" ∨ c = ">")%char →
  Forall (λ kv, Xml.count_char c kv.1 = 0%nat) trip_attrs →
  Xml.count_char c (Xml.trip_line trip_attrs) = 1%nat.
Proof.
  intros Hc HF. unfold Xml.trip_line, Xml.attr_string.
  rewrite !count_char_app, count_char_concat.
  - destruct Hc as [-> | ->]; done.
  - apply Forall_fmap. eapply Forall_impl; [exact HF|]. simpl.
    intros kv Hk. rewrite count_attribute, Hk, escape_substitute.
    + destruct Hc as [-> | ->]; simpl; apply count_substitute_markup.
    + destruct Hc as [-> | ->]; done.
    + destruct Hc as [-> | ->]; done.
  - destruct Hc as [-> | ->]; done.
Qed.

Lemma count_char_lines c (l : list string) :
  Forall (λ s, Xml.count_char c s = 1%nat) l →
  Xml.count_char c (String.concat EmptyString l) = length l.
Proof.
  intros HF. induction HF as [|s l Hs HF IH]; [done|].
  destruct l as [|s' l].
  - simpl. by rewrite Hs.
  - change (String.concat EmptyString (s :: s' :: l))
      with (s +:+ EmptyString +:+ String.concat EmptyString (s' :: l)).
    rewrite !count_char_app, Hs, IH. done.
Qed.

End Writer.

(** * Further properties of the scripts *)

(** ** Properties of the loaders *)

(** X1. A network file that does not exist, or whose parsing raises
    ParseError at any point, makes the three loaders return no index,
    whatever was read before the error. *)
Theorem loader_fails_on_unreadable_input (file : network_file) :
  file = None ∨ (∃ items, file = Some items ∧ XmlParseError ∈ items) →
  Basic.parse_network_iterative file = None
  ∧ Segmented.parse_network_iterative file = None
  ∧ Group.parse_network_iterative file = None.
Proof.
  intros [->|(items & -> & Hin)]; [done|].
  unfold Basic.parse_network_iterative, Segmented.parse_network_iterative,
    Group.parse_network_iterative.
  by rewrite (iterate_parse_error _ _ Hin).
Qed.

Lemma loader_fails_on_unreadable_input_witness :
  Basic.parse_network_iterative (Some MoreExamples.doc_broken) = None
  ∧ Segmented.parse_network_iterative (Some MoreExamples.doc_broken) = None
  ∧ Group.parse_network_iterative (Some MoreExamples.doc_broken) = None.
Proof.
  apply (loader_fails_on_unreadable_input (Some MoreExamples.doc_broken)).
  right. exists MoreExamples.doc_broken. split; [reflexivity|].
  unfold MoreExamples.doc_broken. do 2 apply list_elem_of_further.
  apply list_elem_of_here.
Defined.

(** X2. In an index returned by a loader every key of [outgoing_links]
    holds at least one link, so a node is a valid origin exactly when it
    is a key: the second half of the test
    [node in outgoing_links and outgoing_links[node]] never decides. *)
Theorem loaded_links_never_empty (file : network_file)
    (nodes : list string) (links : gmap string (list string)) :
  Basic.parse_network_iterative file = Some (nodes, links)
  ∨ Segmented.parse_network_iterative file = Some (nodes, links)
  ∨ Group.parse_network_iterative file = Some (nodes, links) →
  (∀ k ls, links !! k = Some ls → ls ≠ [])
  ∧ (∀ node, valid_origin links node = true ↔ is_Some (links !! node)).
Proof.
  intros H. apply parse_Some in H as (items & st & -> & Hit & -> & ->).
  split.
  - eapply iterate_links_nonempty; [exact Hit|].
    intros k ls. simpl. by rewrite lookup_empty.
  - by apply loaded_links_nonempty_aux with items.
Qed.

Lemma loaded_links_never_empty_witness :
  (∀ k ls, Examples.links_ab !! k = Some ls → ls ≠ [])
  ∧ (∀ node, valid_origin Examples.links_ab node = true
             ↔ is_Some (Examples.links_ab !! node)).
Proof.
  apply (loaded_links_never_empty (Some Examples.doc_ab) ["a"; "b"]).
  left. vm_compute. reflexivity.
Defined.

(** X3. Everything in a loaded index comes from the document, in document
    order: the node list is a sublist of the ids of the [node] elements and
    the links of a node are a sublist of the ids of the [link] elements
    that leave it. *)
Theorem loaded_index_comes_from_document (items : list parse_item)
    (nodes : list string) (links : gmap string (list string)) :
  Basic.parse_network_iterative (Some items) = Some (nodes, links)
  ∨ Segmented.parse_network_iterative (Some items) = Some (nodes, links)
  ∨ Group.parse_network_iterative (Some items) = Some (nodes, links) →
  nodes `sublist_of` node_elements items
  ∧ ∀ from_node ls, links !! from_node = Some ls →
      ls `sublist_of`
         (List.filter (λ p : string * string, bool_decide (p.1 = from_node))
                      (link_elements items)).*2.
Proof.
  intros H. apply parse_Some in H as (items' & st & [= <-] & Hit & -> & ->).
  split.
  - by apply loaded_nodes_sublist.
  - intros k ls Hk. by apply loaded_links_sublist with st.
Qed.

Lemma loaded_index_comes_from_document_witness :
  ["a"; "b"] `sublist_of` node_elements Examples.doc_ab
  ∧ ∀ from_node ls, Examples.links_ab !! from_node = Some ls →
      ls `sublist_of`
         (List.filter (λ p : string * string, bool_decide (p.1 = from_node))
                      (link_elements Examples.doc_ab)).*2.
Proof.
  apply (loaded_index_comes_from_document Examples.doc_ab).
  left. vm_compute. reflexivity.
Defined.

(** X4. The loaders read [node] elements only inside a [nodes] element and
    [link] elements only inside a [links] element: a document without
    these two elements loads as the empty index, whatever else it
    holds. *)
Theorem loader_ignores_elements_outside_regions (items : list parse_item) :
  XmlParseError ∉ items →
  (∀ ev elem, Item ev elem ∈ items →
     tag elem ≠ "nodes" ∧ tag elem ≠ "links") →
  Basic.parse_network_iterative (Some items) = Some ([], ∅)
  ∧ Segmented.parse_network_iterative (Some items) = Some ([], ∅)
  ∧ Group.parse_network_iterative (Some items) = Some ([], ∅).
Proof.
  intros Hn Hall. destruct (iterate_total items initial Hn) as [st Hit].
  pose proof (iterate_no_region items initial st Hall eq_refl Hit) as ->.
  destruct (parse_empty_network _ _ Hit) as (H1 & H2 & H3); [by left|].
  done.
Qed.

Lemma loader_ignores_elements_outside_regions_witness :
  Basic.parse_network_iterative (Some MoreExamples.doc_flat) = Some ([], ∅)
  ∧ Segmented.parse_network_iterative (Some MoreExamples.doc_flat)
    = Some ([], ∅)
  ∧ Group.parse_network_iterative (Some MoreExamples.doc_flat) = Some ([], ∅).
Proof.
  apply (loader_ignores_elements_outside_regions MoreExamples.doc_flat).
  - intros H. vm_compute in H.
    repeat (apply elem_of_cons in H as [H|H]; [discriminate|]).
    by apply elem_of_nil in H.
  - intros ev elem H. vm_compute in H.
    repeat (apply elem_of_cons in H as [H|H];
            [injection H as -> ->; split; discriminate|]).
    by apply elem_of_nil in H.
Defined.



(** ** Properties of the time slots *)

(** X6. The slots that [parse_time_slots_json] returns are at least one,
    in order and pairwise disjoint (a slot ends before every later slot
    starts); each starts in [0, max_time], ends no earlier than one
    second before its start, and has a share that is a float and is not
    negative. *)
Theorem time_slots_ordered_and_disjoint
    (default_name : nat → float → float → string)
    (time_slots : list Segmented.slot_def) (max_time : Z)
    (slots : list Segmented.slot) :
  Segmented.parse_time_slots_json default_name time_slots max_time
  = Ret (Some slots) →
  slots ≠ []
  ∧ (∀ i j a b, (i < j)%nat → slots !! i = Some a → slots !! j = Some b →
       Segmented.end_sec a < Segmented.start_sec b)
  ∧ Forall (λ s, 0 ≤ Segmented.start_sec s ≤ max_time
                 ∧ Segmented.start_sec s - 1 ≤ Segmented.end_sec s
                 ∧ Segmented.percentage s ≠ NaN
                 ∧ is_negative (Segmented.percentage s) = false) slots.
Proof.
  intros H.
  destruct (parse_time_slots_json_Some _ _ _ _ H)
    as (Hne & HR & HS & HE & HP).
  split; [done|]. split.
  - intros i j a b Hij Hi Hj.
    by apply (StronglySorted_lookup_lt _ _ _ _ _ _ HS Hij Hi Hj).
  - apply Forall_forall. intros s Hs.
    eapply Forall_forall in HR; [|exact Hs].
    eapply Forall_forall in HE; [|exact Hs].
    eapply Forall_forall in HP; [|exact Hs]. simpl in *.
    split; [done|]. split; [done|].
    destruct HP as [(v & -> & Hv)| ->]; [|done]. split; [done|].
    cbn [is_negative]. unfold Qlt_bool. apply negb_false_iff.
    by apply Qle_bool_iff.
Qed.

Lemma time_slots_ordered_and_disjoint_witness :
  [Examples.morning; Examples.evening] ≠ []
  ∧ (∀ i j a b, (i < j)%nat →
       [Examples.morning; Examples.evening] !! i = Some a →
       [Examples.morning; Examples.evening] !! j = Some b →
       Segmented.end_sec a < Segmented.start_sec b)
  ∧ Forall (λ s, 0 ≤ Segmented.start_sec s ≤ 7200
                 ∧ Segmented.start_sec s - 1 ≤ Segmented.end_sec s
                 ∧ Segmented.percentage s ≠ NaN
                 ∧ is_negative (Segmented.percentage s) = false)
      [Examples.morning; Examples.evening].
Proof.
  apply (time_slots_ordered_and_disjoint MoreExamples.label
           Examples.two_hours_json 7200).
  vm_compute. reflexivity.
Defined.

(** X7. On a list of objects whose values under [start_hour], [end_hour]
    and [percentage] are JSON numbers, [parse_time_slots_json] always
    ends, and the only exception that leaves it is OverflowError: of an
    int too large for a float, in the key of the sort or in the loop, or
    of an hour too large for its seconds to be an int (an end hour of
    1e400 is read as an infinity, and [int(end_hour * 3600)] then
    raises). *)
Theorem time_slots_raise_overflow_only
    (default_name : nat → float → float → string)
    (time_slots : list Segmented.slot_def) (max_time : Z) :
  Segmented.parse_time_slots_json default_name time_slots max_time
  ≠ OutOfFuel
  ∧ (∀ e, Segmented.parse_time_slots_json default_name time_slots max_time
          = Raise e → e = OverflowError)
  ∧ Segmented.parse_time_slots_json default_name MoreExamples.endless_json
      max_time
    = Raise OverflowError.
Proof.
  split; [apply parse_time_slots_json_not_OutOfFuel|].
  split; [apply parse_time_slots_json_Raise|].
  vm_compute. reflexivity.
Qed.

Lemma time_slots_raise_overflow_only_witness :
  Segmented.parse_time_slots_json MoreExamples.label MoreExamples.endless_json
    3600
  = Raise OverflowError.
Proof.
  destruct (time_slots_raise_overflow_only MoreExamples.label
              MoreExamples.endless_json 3600) as (_ & H & _).
  destruct (Segmented.parse_time_slots_json MoreExamples.label
              MoreExamples.endless_json 3600) as [r|e|] eqn:E.
  - vm_compute in E. discriminate.
  - by rewrite (H e eq_refl).
  - vm_compute in E. discriminate.
Defined.



(** X9. When every object of the [--time-slots] list starts after
    [max_time] (the empty list included; the start is the integer part
    of the float product [start_hour * 3600]), [parse_time_slots_json]
    returns no list of slots: the objects are skipped one by one and
    nothing is left, unless an object is refused or a conversion raises
    first. *)
Theorem time_slots_beyond_max_time_rejected
    (default_name : nat → float → float → string)
    (time_slots : list Segmented.slot_def) (max_time : Z)
    (slots : list Segmented.slot) :
  (∀ d sh (a v : Q),
     d ∈ time_slots → Segmented.sd_start_hour d = Some sh →
     Segmented.float_of sh = Ret (Finite a) →
     round64 (a * 3600) = Some v →
     max_time < int_of v) →
  Segmented.parse_time_slots_json default_name time_slots max_time
  ≠ Ret (Some slots).
Proof.
  intros Hlate H.
  destruct (parse_time_slots_json_Some _ _ _ _ H) as (Hne & HR & _).
  destruct (parse_time_slots_json_objects _ _ _ _ H) as [_ HO].
  destruct slots as [|s slots]; [done|].
  apply Forall_cons in HR as [Hs _].
  apply Forall_cons in HO as [(d & sh & a & v & Hd & Hsh & Ha & Hv & Hstart) _].
  specialize (Hlate d sh a v Hd Hsh Ha Hv). lia.
Qed.

Lemma time_slots_beyond_max_time_rejected_witness :
  Segmented.parse_time_slots_json MoreExamples.label
    MoreExamples.late_json 3600 = Ret None.
Proof.
  destruct (Segmented.parse_time_slots_json MoreExamples.label
              MoreExamples.late_json 3600)
    as [[slots|]| |] eqn:E; [|reflexivity|vm_compute in E; discriminate..].
  exfalso.
  apply (time_slots_beyond_max_time_rejected MoreExamples.label
           MoreExamples.late_json 3600 slots); [|exact E].
  intros d sh a v Hd Hsh Ha Hv. apply list_elem_of_singleton in Hd. subst d.
  injection Hsh as <-. vm_compute in Ha. injection Ha as <-.
  vm_compute in Hv. injection Hv as <-. vm_compute. reflexivity.
Defined.

(** ** Properties of the unaggregated generators *)

(** X10. The shares of the slots decide the pool.  Let the quota of a slot
    before the last one be [round(num_trips * percentage)], computed on
    floats as the script does; when these quotas are not negative and
    their sum does not exceed [num_trips], the pool is made, in slot
    order, of exactly that many start times from each of these slots and
    of the remaining [num_trips] minus their sum from the last slot;
    nothing is refilled or cut. *)
Theorem segmented_pool_quotas (num_trips max_time : Z)
    (slots : list Segmented.slot) (last : Segmented.slot)
    (quotas : list Z) (g g' : rng) (pool : list Z) :
  Forall2 (λ s q, Segmented.rounded_share num_trips s = Ret q) slots quotas →
  Forall (λ q, 0 ≤ q) quotas →
  sum_Z quotas ≤ num_trips →
  Segmented.start_time_pool num_trips max_time (slots ++ [last]) g
  = Ret (pool, g') →
  ∃ chunks last_chunk,
    pool = concat chunks ++ last_chunk
    ∧ Forall2 (λ q chunk, Z.of_nat (length chunk) = q) quotas chunks
    ∧ Forall2 (λ s chunk,
                 Forall (λ t, Segmented.start_sec s ≤ t
                              ≤ Z.min (Segmented.end_sec s) max_time) chunk)
              slots chunks
    ∧ Z.of_nat (length last_chunk) = num_trips - sum_Z quotas
    ∧ Forall (λ t, Segmented.start_sec last ≤ t
                   ≤ Z.min (Segmented.end_sec last) max_time) last_chunk.
Proof.
  intros HQ Hq Hsum. unfold Segmented.start_time_pool. intros H.
  bind_inv H. destruct a as [times alloc]. bind_inv H.
  unfold Py.ret in H. injection H as <- <-.
  assert (0 + length slots + 1 = length (slots ++ [last]))%nat as Hn
    by (rewrite length_app; simpl; lia).
  destruct (allocate_slots_quota _ _ _ _ _ _ _ _ _ _ _ _ Hn Hm)
    as (quotas' & chunks & last_chunk & Ht & HQ' & HL & HF & Hl & HFl).
  assert (quotas' = quotas) as ->.
  { clear -HQ HQ'. revert quotas' HQ'.
    induction HQ as [|s q slots quotas Hs _ IH]; intros quotas' HQ'.
    - by inversion HQ'.
    - inversion HQ' as [|? q' ? quotas'' Hs' HQ'']; subst.
      rewrite Hs in Hs'. injection Hs' as <-. f_equal. by apply IH. }
  simpl in Ht. subst times.
  pose proof (sum_lengths_quota _ _ Hq HL) as Hlen.
  assert (Z.of_nat (length (concat chunks ++ last_chunk)) = num_trips) as Hall.
  { rewrite length_app, Nat2Z.inj_add, Hlen, Hl. lia. }
  rewrite refill_full in Hm0 by lia. injection Hm0 as <- <-.
  rewrite slice_to_all by done.
  exists chunks, last_chunk. split; [done|]. split; [|split; [done|split; [|done]]].
  - clear -HL Hq.
    induction HL as [|q c quotas chunks Hc _ IH]; [constructor|].
    apply Forall_cons in Hq as [Hs Hq]. constructor; [|by apply IH]. lia.
  - rewrite Hl. lia.
Qed.

Lemma segmented_pool_quotas_witness :
  ∃ pool g' chunks last_chunk,
    Segmented.start_time_pool 4 7200 ([Examples.morning] ++ [Examples.evening])
      Examples.counting = Ret (pool, g')
    ∧ pool = concat chunks ++ last_chunk
    ∧ Forall2 (λ q chunk, Z.of_nat (length chunk) = q) [2] chunks
    ∧ Forall2 (λ s chunk,
                 Forall (λ t, Segmented.start_sec s ≤ t
                              ≤ Z.min (Segmented.end_sec s) 7200) chunk)
              [Examples.morning] chunks
    ∧ Z.of_nat (length last_chunk) = 4 - sum_Z [2]
    ∧ Forall (λ t, Segmented.start_sec Examples.evening ≤ t
                   ≤ Z.min (Segmented.end_sec Examples.evening) 7200)
             last_chunk.
Proof.
  destruct (Segmented.start_time_pool 4 7200
              ([Examples.morning] ++ [Examples.evening]) Examples.counting)
    as [[pool g']| |] eqn:E; [|vm_compute in E; discriminate..].
  destruct (segmented_pool_quotas 4 7200 [Examples.morning] Examples.evening
              [2] Examples.counting g' pool) as (chunks & last_chunk & H).
  - repeat constructor.
  - repeat constructor. lia.
  - vm_compute. discriminate.
  - exact E.
  - exists pool, g', chunks, last_chunk. split; [reflexivity|exact H].
Defined.

(** X11. How the segmented generator ends.  It always returns or raises:
    [True] after writing exactly [num_trips] trips, every operation on
    the output file having succeeded; [False] without having written a
    trip when no node is a valid origin; [False] with a valid origin when
    the file system refuses an operation on the output file (the
    IOError is caught); or an exception raised before the output file is
    opened, which is the ValueError of a slot that cannot be drawn from
    (or of no slot at all and a negative [max_time]), or the
    OverflowError or ValueError of a number of trips
    [round(num_trips * percentage)] or [int(num_trips * fraction)] whose
    product is not a finite float. *)
Theorem segmented_generator_outcomes (node_ids : list string)
    (outgoing_links : gmap string (list string)) (num_trips max_time : Z)
    (output_file : io) (slots : list Segmented.slot) (pct : float) (g : rng)
    (written : list trip) (r : result bool) :
  Segmented.generate_and_write_trips_iterative
    node_ids outgoing_links num_trips max_time output_file slots pct g
  = (written, r) →
  (r = Ret true ∧ valid_origin_nodes node_ids outgoing_links ≠ []
   ∧ length written = Z.to_nat num_trips
   ∧ accepts output_file (Z.to_nat num_trips))
  ∨ (r = Ret false ∧ written = []
     ∧ valid_origin_nodes node_ids outgoing_links = [])
  ∨ (r = Ret false ∧ valid_origin_nodes node_ids outgoing_links ≠ []
     ∧ refuses output_file (Z.to_nat num_trips))
  ∨ (∃ e, r = Raise e ∧ written = []
       ∧ valid_origin_nodes node_ids outgoing_links ≠ []
       ∧ (e = ValueError ∨ e = OverflowError)
       ∧ ((e = ValueError
           ∧ ((∃ s, s ∈ slots ∧ Segmented.useless max_time s = true)
              ∨ (slots = [] ∧ max_time < 0)))
          ∨ (∃ s, s ∈ slots ∧ Segmented.rounded_share num_trips s = Raise e)
          ∨ Segmented.target_od_equal_trips num_trips
              (if Nat.eqb (length node_ids) 1 then Finite 1 else pct)
            = Raise e)).
Proof.
  intros H.
  destruct (segmented_outcomes _ _ _ _ _ _ _ _ _ _ H)
    as [?|[?|[?|(e & -> & -> & Hv & He)]]]; [tauto..|].
  do 3 right. exists e. split_and!; [done..| |done].
  destruct He as [[-> _]|[(s & _ & Hs)|Ht]]; [by left|..].
  - apply rounded_share_Raise in Hs. tauto.
  - apply target_Raise in Ht. tauto.
Qed.

Lemma segmented_generator_outcomes_witness :
  ∃ written,
    Segmented.generate_and_write_trips_iterative
      ["a"; "b"] Examples.links_ab 2 3600 (MoreExamples.fails_at 4)
      [Examples.morning] 0 Examples.counting
    = (written, Ret false)
    ∧ refuses (MoreExamples.fails_at 4) 2.
Proof.
  destruct (Segmented.generate_and_write_trips_iterative
              ["a"; "b"] Examples.links_ab 2 3600 (MoreExamples.fails_at 4)
              [Examples.morning] 0 Examples.counting)
    as [written r] eqn:E.
  destruct (segmented_generator_outcomes _ _ _ _ _ _ _ _ _ _ E)
    as [(-> & _)|[(_ & _ & Hv)|[(-> & _ & Href)|(e & -> & _)]]].
  - vm_compute in E. discriminate.
  - vm_compute in Hv. discriminate.
  - exists written. split; [reflexivity|exact Href].
  - vm_compute in E. discriminate.
Defined.

(** X12. In the basic and in the segmented script the trip written at
    0-based position [k] is named [trip_(k+1)], whatever ends the run, so
    the names of an output are pairwise distinct. *)
Theorem unaggregated_trip_names (node_ids : list string)
    (outgoing_links : gmap string (list string)) (num_trips max_time : Z)
    (output_file : io) (slots : list Segmented.slot) (pct : float)
    (fuel : nat) (g : rng) (written : list trip) :
  written = (Basic.generate_and_write_trips_iterative
               fuel node_ids outgoing_links num_trips max_time output_file
               g).1
  ∨ written = (Segmented.generate_and_write_trips_iterative
                 node_ids outgoing_links num_trips max_time output_file
                 slots pct g).1 →
  (∀ k t, written !! k = Some t →
     name t = "trip_" +:+ pretty (Z.of_nat k + 1))
  ∧ NoDup (name <$> written).
Proof.
  intros Hw.
  assert (∀ k t, written !! k = Some t →
            name t = "trip_" +:+ pretty (Z.of_nat k + 1)) as Hn.
  { destruct Hw as [-> | ->]; intros k t.
    - unfold Basic.generate_and_write_trips_iterative.
      destruct (negb (nonempty_list node_ids)); [done|].
      destruct (negb (nonempty_list _)); [done|].
      destruct (with_open _ _ _ _) as [w lr] eqn:Ew.
      assert ((try_except (w, lr)).1 = w) as -> by by destruct lr.
      intros Hk.
      destruct (file_lookup _ _ _ _ _ _ _ _ _ _ Ew Hk)
        as (i & Hi & (g1 & g2 & Hb)).
      apply range2_lookup in Hi as ->.
      apply basic_make_trip_Ret in Hb as (_ & _ & _ & _ & _ & ->).
      do 2 f_equal. lia.
    - unfold Segmented.generate_and_write_trips_iterative.
      destruct (negb (nonempty_list node_ids)); [done|].
      destruct (negb (nonempty_list _)); [done|].
      destruct (Py.bind _ _ g) as [[[pool flags] g1]| |]; [|done..].
      destruct (with_open _ _ _ _) as [w lr] eqn:Ew.
      assert ((try_except (w, lr)).1 = w) as -> by by destruct lr.
      intros Hk.
      destruct (file_lookup _ _ _ _ _ _ _ _ _ _ Ew Hk)
        as (i & Hi & (g2 & g3 & Hb)).
      apply range_lookup in Hi as ->.
      by apply segmented_make_trip_Ret in Hb as (_ & _ & _ & ->). }
  split; [exact Hn|]. by apply trip_names_NoDup.
Qed.

Lemma unaggregated_trip_names_witness :
  name <$> (Basic.generate_and_write_trips_iterative
              5 ["a"; "b"] Examples.links_ab 3 7200 reliable
              Examples.counting).1
  = ["trip_1"; "trip_2"; "trip_3"]
  ∧ NoDup (name <$> (Basic.generate_and_write_trips_iterative
                       5 ["a"; "b"] Examples.links_ab 3 7200 reliable
                       Examples.counting).1).
Proof.
  split; [vm_compute; reflexivity|].
  apply (unaggregated_trip_names ["a"; "b"] Examples.links_ab 3 7200 reliable
           [] 0 5 Examples.counting).
  left. reflexivity.
Defined.

(** X13. The last resort of the pool: called with no time slot at all (which
    [main] never does), with a fraction whose product with [num_trips]
    has an integer part (as every float between 0 and 1 has for up to
    2^53 trips) and on a file system that accepts the writes, the
    segmented generator draws every start time from
    [0, max_start_time_simulation] and returns [True] with [num_trips]
    trips. *)
Theorem segmented_generator_without_slots (node_ids : list string)
    (outgoing_links : gmap string (list string)) (num_trips max_time : Z)
    (output_file : io) (pct : float) (target : Z) (g : rng) :
  valid_origin_nodes node_ids outgoing_links ≠ [] →
  0 ≤ max_time →
  Segmented.target_od_equal_trips num_trips
    (if Nat.eqb (length node_ids) 1 then Finite 1 else pct)
  = Ret target →
  accepts output_file (Z.to_nat num_trips) →
  ∃ written,
    Segmented.generate_and_write_trips_iterative
      node_ids outgoing_links num_trips max_time output_file [] pct g
    = (written, Ret true)
    ∧ length written = Z.to_nat num_trips
    ∧ Forall (λ t, 0 ≤ start t ≤ max_time) written.
Proof.
  intros Hv Hmax Ht Hacc.
  destruct (Segmented.start_time_pool num_trips max_time [] g)
    as [[pool g1]|e|] eqn:Ep.
  - destruct (segmented_run_from_pool _ _ _ _ _ _ pct _ _ _ _ Hv Ep Ht Hacc)
      as (written & E & Hlen).
    exists written. split; [done|]. split; [done|].
    revert E. unfold Segmented.generate_and_write_trips_iterative.
    destruct (negb (nonempty_list node_ids)); [by intros [= <- _]|].
    destruct (negb (nonempty_list _)); [by intros [= <- _]|].
    unfold Py.bind at 1. rewrite Ep. unfold Py.bind.
    destruct (Segmented.od_equal_flags _ _ g1)
      as [[flags g2]| |] eqn:Ef; [|by intros [= <- _]..].
    unfold Py.ret.
    destruct (with_open _ _ _ g2) as [w lr] eqn:Ew.
    intros H.
    assert (written = w) as -> by (destruct lr; simpl in H; congruence).
    apply start_time_pool_Ret in Ep as [Hpool _].
    apply Forall_lookup. intros k t Hk.
    destruct (segmented_file_lookup _ _ _ _ _ _ _ _ _ _ _ _ _ Ew Hk)
      as (_ & Hp & _).
    eapply Forall_lookup in Hpool; [|exact Hp].
    destruct Hpool as [(s & Hs & _)|[_ Hs]]; [by apply elem_of_nil in Hs|done].
  - exfalso.
    apply start_time_pool_Raise in Ep
      as [[_ [(s & Hs & _)|[_ Hneg]]]|(s & Hs & _)];
      [by apply elem_of_nil in Hs|lia|by apply elem_of_nil in Hs].
  - by apply start_time_pool_not_OutOfFuel in Ep.
Qed.

Lemma segmented_generator_without_slots_witness :
  ∃ written,
    Segmented.generate_and_write_trips_iterative
      ["a"; "b"] Examples.links_ab 3 7200 reliable [] 0 Examples.counting
    = (written, Ret true)
    ∧ length written = 3%nat
    ∧ Forall (λ t, 0 ≤ start t ≤ 7200) written.
Proof.
  apply (segmented_generator_without_slots ["a"; "b"] Examples.links_ab
           3 7200 reliable 0 0 Examples.counting).
  - intros H. vm_compute in H. discriminate.
  - lia.
  - vm_compute. reflexivity.
  - by intros k _.
Defined.

(** X14. How the basic generator ends.  It never raises.  It returns
    [True] after exactly [num_trips] trips, every operation on the output
    file having succeeded.  It returns [False] without a valid origin or
    with a negative [max_start_time] (every call of
    [random.randint(0, max_start_time)] then fails), and in both cases
    not one trip has been written; and it returns [False] when the file
    system refuses an operation on the output file.  A run that does not
    return is inside the loop that redraws the destination. *)
Theorem basic_generator_outcomes (fuel : nat) (node_ids : list string)
    (outgoing_links : gmap string (list string))
    (num_trips max_start_time : Z) (output_file : io) (g : rng)
    (written : list trip) (r : result bool) :
  Basic.generate_and_write_trips_iterative
    fuel node_ids outgoing_links num_trips max_start_time output_file g
  = (written, r) →
  (r = Ret true ∧ valid_origin_nodes node_ids outgoing_links ≠ []
   ∧ length written = Z.to_nat num_trips
   ∧ (0 < num_trips → 0 ≤ max_start_time)
   ∧ accepts output_file (Z.to_nat num_trips))
  ∨ (r = Ret false ∧ written = []
     ∧ (valid_origin_nodes node_ids outgoing_links = []
        ∨ (max_start_time < 0 ∧ 0 < num_trips)))
  ∨ (r = Ret false ∧ valid_origin_nodes node_ids outgoing_links ≠ []
     ∧ refuses output_file (Z.to_nat num_trips))
  ∨ (r = OutOfFuel ∧ valid_origin_nodes node_ids outgoing_links ≠ []
     ∧ (1 < length node_ids)%nat ∧ 0 < num_trips).
Proof. apply basic_outcomes. Qed.

Lemma basic_generator_outcomes_witness :
  ∃ written,
    Basic.generate_and_write_trips_iterative
      5 ["a"; "b"] Examples.links_ab 3 7200 (MoreExamples.fails_at 4)
      Examples.counting
    = (written, Ret false)
    ∧ refuses (MoreExamples.fails_at 4) 3.
Proof.
  destruct (Basic.generate_and_write_trips_iterative
              5 ["a"; "b"] Examples.links_ab 3 7200 (MoreExamples.fails_at 4)
              Examples.counting)
    as [written r] eqn:E.
  destruct (basic_generator_outcomes _ _ _ _ _ _ _ _ _ E)
    as [(-> & _)|[(_ & _ & [Hv|[Hneg _]])|[(-> & _ & Href)|(-> & _)]]].
  - vm_compute in E. discriminate.
  - vm_compute in Hv. discriminate.
  - lia.
  - exists written. split; [reflexivity|exact Href].
  - vm_compute in E. discriminate.
Defined.



(** X16. The basic script succeeds on every loaded network with nodes and
    links: for a positive [num_trips], a non-negative [max_time], a file
    system that accepts the writes and, when the network has more than
    one node, a random source that does not withhold the other nodes for
    ever, it ends with exit code 0.  On a network of one node it does so
    whatever the random source: every trip then ends where it starts. *)
Theorem basic_main_succeeds (network : network_file)
    (node_ids : list string) (outgoing_links : gmap string (list string))
    (num_trips : Z) (output_file : io) (max_time : Z) (f : nat → nat)
    (p : nat) :
  0 < num_trips → 0 ≤ max_time →
  Basic.parse_network_iterative network = Some (node_ids, outgoing_links) →
  node_ids ≠ [] → outgoing_links ≠ ∅ →
  accepts output_file (Z.to_nat num_trips) →
  ((1 < length node_ids)%nat → offers_other_nodes node_ids f) →
  ∃ fuel written,
    BasicScript.main fuel network num_trips output_file max_time (Rng f p)
    = (written, Some (Segmented.Exit 0))
    ∧ length written = Z.to_nat num_trips.
Proof.
  intros HN HM Hp Hn Hl Hacc Hfair.
  pose proof (parse_basic_valid _ _ _ Hp Hn Hl) as Hv.
  assert (∃ fuel written,
    Basic.generate_and_write_trips_iterative
      fuel node_ids outgoing_links num_trips max_time output_file (Rng f p)
    = (written, Ret true)) as (fuel & written & Hg).
  { destruct (decide (1 < length node_ids)%nat) as [Hmany|Hone].
    - by apply basic_run_total; [apply Hfair|..].
    - exists 0%nat.
      destruct (basic_run_single node_ids outgoing_links max_time
                  output_file 0 num_trips (Rng f p))
        as (written & E & _); [lia|done..|].
      by exists written. }
  exists fuel, written. unfold BasicScript.main.
  rewrite (proj2 (Z.leb_gt _ _) HN), (proj2 (Z.ltb_ge _ _) HM), Hp.
  rewrite (nonempty_list_true _ Hn). simpl.
  assert (nonempty_dict outgoing_links = true) as ->.
  { unfold nonempty_dict. by rewrite bool_decide_eq_false_2. }
  simpl. rewrite Hg. split; [done|].
  by apply basic_run in Hg as [_ ->].
Qed.

Lemma basic_main_succeeds_witness :
  (∃ fuel written,
     BasicScript.main fuel (Some Examples.doc_ab) 3 reliable 7200
       (Rng (λ i, i) 0)
     = (written, Some (Segmented.Exit 0))
     ∧ length written = 3%nat)
  ∧ (∃ fuel written,
       BasicScript.main fuel (Some MoreExamples.doc_one) 3 reliable 7200
         Examples.zeros
       = (written, Some (Segmented.Exit 0))
       ∧ length written = 3%nat).
Proof.
  split.
  - apply (basic_main_succeeds (Some Examples.doc_ab) ["a"; "b"]
             Examples.links_ab 3 reliable 7200 (λ i, i) 0).
    + lia.
    + lia.
    + vm_compute. reflexivity.
    + discriminate.
    + intros H. vm_compute in H. discriminate.
    + by intros k _.
    + intros _. apply counting_offers_other. exists "a", "b".
      split; [by left|]. split; [by right; left|discriminate].
  - apply (basic_main_succeeds (Some MoreExamples.doc_one) ["a"]
             {["a" := ["l1"]]} 3 reliable 7200 (λ _, 0%nat) 0).
    + lia.
    + lia.
    + vm_compute. reflexivity.
    + discriminate.
    + intros H. vm_compute in H. discriminate.
    + by intros k _.
    + simpl. lia.
Defined.





(** ** The writer of the grouping script *)



(** ** Properties of the grouping script *)

(** X18. Every record returned by the grouping generator has a valid
    origin with one of the links recorded for it and a count of at least
    1, and there are at most [num_trips_to_generate] records. *)
Theorem group_records_valid (fuel : nat) (node_ids : list string)
    (outgoing_links : gmap string (list string))
    (num_trips max_start_time : Z) (g : rng) (out : list trip) :
  Group.generate_aggregated_and_sorted_trips
    fuel node_ids outgoing_links num_trips max_start_time g = Ret out →
  Forall (origin_ok node_ids outgoing_links) out
  ∧ Forall (λ t, (1 ≤ count t)%nat) out
  ∧ (length out ≤ Z.to_nat num_trips)%nat.
Proof. apply group_records. Qed.

Lemma group_records_valid_witness :
  ∃ out,
    Group.generate_aggregated_and_sorted_trips
      10 ["a"; "b"] Examples.links_ab 6 1 Examples.counting = Ret out
    ∧ Forall (origin_ok ["a"; "b"] Examples.links_ab) out
    ∧ Forall (λ t, (1 ≤ count t)%nat) out
    ∧ (length out ≤ 6)%nat.
Proof.
  destruct (Group.generate_aggregated_and_sorted_trips
              10 ["a"; "b"] Examples.links_ab 6 1 Examples.counting)
    as [out| |] eqn:E; [|vm_compute in E; discriminate..].
  exists out. split; [reflexivity|].
  exact (group_records_valid _ _ _ _ _ _ _ E).
Defined.

(** X19. A record of the grouping generator carries the [link_origin] of
    the first sampled trip with its (origin, destination, start): the
    links drawn for the later trips of the group are dropped. *)
Theorem group_keeps_link_of_first_trip (raws1 raws2 : list Group.raw_trip)
    (r : Group.raw_trip) (t : trip) :
  Group.key_of r ∉ Group.key_of <$> raws1 →
  t ∈ Group.finish (Group.aggregate (raws1 ++ r :: raws2)) →
  Group.trip_key_of t = Group.key_of r →
  link_origin t = Group.raw_link_origin r.
Proof.
  intros Hfirst Ht Hk. apply finish_entry in Ht as (v & Hv & _ & ->).
  rewrite Hk in Hv. by eapply aggregate_first_link.
Qed.

Lemma group_keeps_link_of_first_trip_witness :
  ∃ t, t ∈ Group.finish (Group.aggregate MoreExamples.raws)
       ∧ Group.trip_key_of t = ("a", "b", 5)
       ∧ link_origin t = "l1".
Proof.
  exists (Trip "trip_2" "a" "b" "l1" 3 5 "car" "false").
  assert (Trip "trip_2" "a" "b" "l1" 3 5 "car" "false"
          ∈ Group.finish (Group.aggregate MoreExamples.raws)) as Hin.
  { vm_compute. apply list_elem_of_further, list_elem_of_here. }
  split; [exact Hin|]. split; [reflexivity|].
  apply (group_keeps_link_of_first_trip []
           [Group.Raw "b" "a" 3 "l3"; Group.Raw "a" "b" 5 "l2";
            Group.Raw "a" "b" 5 "l1"]
           (Group.Raw "a" "b" 5 "l1")
           (Trip "trip_2" "a" "b" "l1" 3 5 "car" "false")).
  - apply not_elem_of_nil.
  - exact Hin.
  - reflexivity.
Defined.

(** X20. How the grouping generator ends.  It returns the empty list
    exactly when no node is a valid origin or no trip is asked for; it
    raises only ValueError, and only for a negative [max_start_time]; a
    run that does not return is inside the loop that redraws the
    destination. *)
Theorem group_generator_outcomes (fuel : nat) (node_ids : list string)
    (outgoing_links : gmap string (list string))
    (num_trips max_start_time : Z) (g : rng) :
  match Group.generate_aggregated_and_sorted_trips
          fuel node_ids outgoing_links num_trips max_start_time g with
  | Ret out =>
      (out = [] ↔ valid_origin_nodes node_ids outgoing_links = []
                  ∨ num_trips ≤ 0)
      ∧ (out ≠ [] → 0 ≤ max_start_time)
  | Raise e =>
      e = ValueError ∧ max_start_time < 0
      ∧ valid_origin_nodes node_ids outgoing_links ≠ [] ∧ 0 < num_trips
  | OutOfFuel =>
      (1 < length node_ids)%nat
      ∧ valid_origin_nodes node_ids outgoing_links ≠ [] ∧ 0 < num_trips
  end.
Proof. apply group_outcomes. Qed.



(** ** Properties of the text written *)

Section WriterText.

Import Stdlib.Strings.Ascii.

(** X22. The three replacements of [escape], made one after the other,
    act as one substitution applied to every character of the value:
    [&], [>] and [<] become [&amp;], [&gt;] and [&lt;], and the
    ampersands that these entities bring in are not escaped again. *)
Theorem escape_is_one_substitution (data : string) :
  Xml.escape data = Xml.substitute data.
Proof. apply escape_substitute. Qed.

(** X23. [escape] loses nothing: two values with the same escaped text
    are the same value, so distinct node ids stay distinct in the
    output. *)
Theorem escape_injective (s1 s2 : string) :
  Xml.escape s1 = Xml.escape s2 → s1 = s2.
Proof. rewrite !escape_substitute. apply substitute_inj. Qed.

Lemma escape_injective_witness : "a&b" = "a&b".
Proof. apply (escape_injective "a&b" "a&b"). reflexivity. Defined.

(** X24. A value without [&], [<] and [>] is written as it is. *)
Theorem escape_plain_unchanged (s : string) :
  Xml.plain s → Xml.escape s = s.
Proof. rewrite escape_substitute. apply substitute_plain. Qed.

Lemma escape_plain_unchanged_witness : Xml.escape "trip_1" = "trip_1".
Proof.
  apply (escape_plain_unchanged "trip_1"). unfold Xml.plain.
  split; [reflexivity|]. split; reflexivity.
Defined.

(** X25. [escape] leaves the double quote alone, although the value is
    written between double quotes: an attribute written for a value
    holds, besides the two quotes around the value, every double quote of
    the key and of the value. *)
Theorem attribute_keeps_double_quotes (k v : string) :
  Xml.count_char (ascii_of_nat 34) (Xml.escape v)
  = Xml.count_char (ascii_of_nat 34) v
  ∧ Xml.count_char (ascii_of_nat 34) (Xml.attribute (k, v))
    = (2 + Xml.count_char (ascii_of_nat 34) k
       + Xml.count_char (ascii_of_nat 34) v)%nat.
Proof.
  rewrite escape_substitute. split; [apply count_substitute_dquote|].
  unfold Xml.attribute. rewrite !count_char_app, escape_substitute.
  rewrite count_substitute_dquote. simpl.
  change (Xml.count_char (ascii_of_nat 34) Xml.dquote) with 1%nat.
  change (Xml.count_char (ascii_of_nat 34) "=") with 0%nat. lia.
Qed.

(** X26. Whatever the ids of a trip hold, the line written for it has
    exactly one [<] and one [>], those of the [trip] element itself, in
    the three scripts. *)
Theorem trip_line_has_one_element (t : trip) :
  Xml.count_char "<" (Xml.trip_line (BasicScript.trip_attrs t)) = 1%nat
  ∧ Xml.count_char ">" (Xml.trip_line (BasicScript.trip_attrs t)) = 1%nat
  ∧ Xml.count_char "<" (Xml.trip_line (GroupScript.trip_attrs t)) = 1%nat
  ∧ Xml.count_char ">" (Xml.trip_line (GroupScript.trip_attrs t)) = 1%nat.
Proof.
  split_and!; apply count_trip_line; try (by left); try (by right);
    repeat constructor.
Qed.

(** X27. The text of an output file holds one element per trip: besides
    the XML declaration and the opening and closing tag of
    [scsimulator_matrix], it has exactly one [<] for every trip written,
    whatever the ids are. *)
Theorem document_has_one_element_per_trip (trips : list trip) :
  Xml.count_char "<" (BasicScript.file_text trips) = (3 + length trips)%nat
  ∧ Xml.count_char "<" (GroupScript.file_text trips)
    = (3 + length trips)%nat.
Proof.
  unfold BasicScript.file_text, GroupScript.file_text, Xml.document.
  rewrite !count_char_app, !count_char_lines.
  - rewrite !length_fmap.
    change (Xml.count_char "<" Xml.header) with 1%nat.
    change (Xml.count_char "<" Xml.newline) with 0%nat.
    change (Xml.count_char "<" "<scsimulator_matrix>") with 1%nat.
    change (Xml.count_char "<" "</scsimulator_matrix>") with 1%nat.
    split; lia.
  - apply Forall_fmap, Forall_fmap, Forall_forall. intros t _.
    unfold compose. apply count_trip_line; [by left|repeat constructor].
  - apply Forall_fmap, Forall_fmap, Forall_forall. intros t _.
    unfold compose. apply count_trip_line; [by left|repeat constructor].
Qed.

End WriterText.
